(** * Camarim persistent store: a shallow embedding of [database.js]

    The development follows the source file top to bottom: the records kept
    in the object stores, the storage engine the code talks to (IndexedDB,
    reduced to the operations the code calls), [QueryCache],
    [DatabaseManager] and [BackgroundSync].  Asynchronous functions become
    computations in a state-and-error monad: a rejected promise is [Err], an
    awaited call is a bind, [try]/[catch] is [try_catch].

    Conventions.
    - Instants (values of [Date.now()], and the ISO-8601 strings made by
      [toISOString()]) are integers counting milliseconds; equality and order
      of the strings coincide with those of the integers.
    - Numbers are integers.
    - [console.*] output and the counters of [DatabaseMonitor] are not
      modelled: nothing in the program reads them back.
    - Operations run to completion one after the other; a call that the
      source does not await (the audit append issued by [add], [update] and
      [delete]) is kept in a queue of pending requests. *)

From Stdlib Require Import ZArith String List Lia.
From stdpp Require Import base option list gmap strings pretty sorting.

Open Scope string_scope.
Open Scope list_scope.
Open Scope Z_scope.

(** ** Records *)

Record Product := mkProduct {
  p_id : Z;
  p_name : string;
  p_category : string;
  p_stock : Z;
  p_sellingPrice : Z;
  p_createdAt : Z
}.

Record SaleItem := mkSaleItem {
  i_productId : Z;
  i_name : string;
  i_quantity : Z;
  i_price : Z
}.

Record Sale := mkSale {
  s_id : Z;
  s_date : Z;
  s_attendant : string;
  s_paymentMethod : string;
  s_total : Z;
  s_items : option (list SaleItem)      (* [None]: the property is missing *)
}.

Record Setting := mkSetting {
  st_key : string;
  st_value : string
}.

(** Keys of the engine.  [KDate] stands for the ISO string of an instant. *)
Inductive Key :=
| KNum (n : Z)
| KDate (ms : Z)
| KStr (s : string).

#[global] Instance Key_eq_dec : EqDecision Key.
Proof. solve_decision. Defined.

#[global] Instance Key_countable : Countable Key.
Proof.
  refine (inj_countable'
    (fun k => match k with
              | KNum n => inl (inl n) | KDate d => inl (inr d) | KStr s => inr s
              end)
    (fun x => match x with
              | inl (inl n) => KNum n | inl (inr d) => KDate d | inr s => KStr s
              end) _).
  intros []; reflexivity.
Defined.

(** The [details] argument of [logAudit], one constructor per call site. *)
Inductive Details :=
| DStoreId (store : string) (id : option Key)      (* add / update / delete *)
| DMigrationStart (products sales : nat)
| DMigrationComplete (products sales : nat)
| DError (message : string)
| DRestore (timestamp : Key)
| DIntegrity (issues : list string) (autoFixed : string).

Record AuditEntry := mkAudit {
  a_id : option Z;                      (* assigned by the key generator *)
  a_timestamp : Z;
  a_action : string;
  a_details : Details;
  a_userId : string;
  a_userName : string
}.

(** What [getDatabaseInfo] reports (storage estimate and metrics left out). *)
Record DbInfo := mkDbInfo {
  info_products : nat;
  info_sales : nat;
  info_backups : nat;
  info_audit_log : nat;
  info_settings : nat;
  info_lastBackup : option Z
}.

(** A JavaScript value as the code sees the result of a read or a property of
    a payload: [undefined], one object, or an array of objects. *)
Inductive Val (R : Type) :=
| VUndef
| VObj (r : R)
| VArr (l : list R).
Arguments VUndef {R}.
Arguments VObj {R} _.
Arguments VArr {R} _.

(** The triple [{products, sales, settings}]; [settings] is an object used as
    a map, kept in insertion order, [None] when the property is missing. *)
Record SysData (R : Type) := mkSysData {
  sd_products : Val R;
  sd_sales : Val R;
  sd_settings : option (list (string * string))
}.
Arguments mkSysData {R} _ _ _.
Arguments sd_products {R} _.
Arguments sd_sales {R} _.
Arguments sd_settings {R} _.

(** Any object that the code puts into a store. *)
#[local] Unset Elimination Schemes.
Inductive Rec :=
| RProduct (p : Product)
| RSale (s : Sale)
| RSetting (s : Setting)
| RAudit (a : AuditEntry)
| RBackup (timestamp : Z) (type : string) (data : SysData Rec)
          (version : Z) (info : option DbInfo).
#[local] Set Elimination Schemes.

Abbreviation SystemData := (SysData Rec).

(** ** Property access *)

(** [r.id], [r.key], [r.timestamp] as engine keys. *)
Definition prop_id (r : Rec) : option Key :=
  match r with
  | RProduct p => Some (KNum (p_id p))
  | RSale s => Some (KNum (s_id s))
  | RAudit a => KNum <$> a_id a
  | _ => None
  end.

Definition prop_key (r : Rec) : option Key :=
  match r with
  | RSetting s => Some (KStr (st_key s))
  | _ => None
  end.

Definition prop_timestamp (r : Rec) : option Z :=
  match r with
  | RBackup t _ _ _ _ => Some t
  | RAudit a => Some (a_timestamp a)
  | _ => None
  end.

Definition prop_date (r : Rec) : option Z :=
  match r with
  | RSale s => Some (s_date s)
  | _ => None
  end.

Definition prop_stock (r : Rec) : option Z :=
  match r with
  | RProduct p => Some (p_stock p)
  | _ => None
  end.

Definition prop_type (r : Rec) : option string :=
  match r with
  | RBackup _ ty _ _ _ => Some ty
  | _ => None
  end.

(** The value at a key path or index path; the schema uses these paths only. *)
Definition prop_path (path : string) (r : Rec) : option Key :=
  if decide (path = "id") then prop_id r
  else if decide (path = "key") then prop_key r
  else if decide (path = "timestamp") then KDate <$> prop_timestamp r
  else if decide (path = "date") then KDate <$> prop_date r
  else None.

(** JavaScript truthiness of a key value, for [a || b]. *)
Definition truthy (k : Key) : bool :=
  match k with
  | KNum n => negb (n =? 0)
  | KDate _ => true
  | KStr s => negb (String.eqb s "")
  end.

(** [data.id || data.key] *)
Definition id_or_key (r : Rec) : option Key :=
  match prop_id r with
  | Some k => if truthy k then Some k else prop_key r
  | None => prop_key r
  end.

(** Template-literal rendering of a key. *)
Definition render_key (k : Key) : string :=
  match k with
  | KNum n => pretty n
  | KDate ms => pretty ms
  | KStr s => s
  end.

(** ** The storage engine

    An object store has a key path, an optional key generator, index names
    and its records, at most one per key. *)

Record Store := mkStore {
  keyPath : string;
  autoIncrement : bool;
  keyGen : Z;
  indexNames : list string;
  records : gmap Key Rec
}.

(** [abortOnError]: whether a failed request aborts its transaction (what
    IndexedDB does when the error event is not cancelled) or leaves the other
    requests of the transaction in effect.  The results below hold for both. *)
Record DB := mkDB {
  objectStores : gmap string Store;
  abortOnError : bool
}.

Inductive Error :=
| NotInitialized                      (* 'Database não inicializada' *)
| NotFoundError                       (* no such object store or index *)
| ConstraintError                     (* add: the key is taken *)
| DataError                           (* the record yields no valid key *)
| TypeError                           (* method call on a non-array *)
| SyntaxError                         (* JSON.parse *)
| BulkErrors (failed total : nat)     (* 'N erros em M itens' *)
| BackupNotFound.                     (* 'Backup não encontrado' *)

Definition error_message (e : Error) : string :=
  match e with
  | NotInitialized => "Database não inicializada"
  | NotFoundError => "NotFoundError"
  | ConstraintError => "ConstraintError"
  | DataError => "DataError"
  | TypeError => "TypeError"
  | SyntaxError => "SyntaxError"
  | BulkErrors failed total => pretty failed +:+ " erros em " +:+ pretty total +:+ " itens"
  | BackupNotFound => "Backup não encontrado"
  end.

Definition set_records (m : gmap Key Rec) (st : Store) : Store :=
  {| keyPath := keyPath st; autoIncrement := autoIncrement st;
     keyGen := keyGen st; indexNames := indexNames st; records := m |}.

Definition set_keyGen (g : Z) (st : Store) : Store :=
  {| keyPath := keyPath st; autoIncrement := autoIncrement st;
     keyGen := g; indexNames := indexNames st; records := records st |}.

(** The generator moves past an explicit numeric key. *)
Definition bump_keyGen (k : Key) (st : Store) : Store :=
  match k with
  | KNum n => if autoIncrement st && (keyGen st <=? n) then set_keyGen (n + 1) st else st
  | _ => st
  end.

(** The generated key is written into the stored record at the key path. *)
Definition inject_key (n : Z) (r : Rec) : Rec :=
  match r with
  | RAudit a => RAudit {| a_id := Some n; a_timestamp := a_timestamp a;
                          a_action := a_action a; a_details := a_details a;
                          a_userId := a_userId a; a_userName := a_userName a |}
  | _ => r
  end.

(** The key under which a record would be stored, and the record as stored. *)
Definition assign_key (r : Rec) (st : Store) : option (Key * Rec * Store) :=
  match prop_path (keyPath st) r with
  | Some k => Some (k, r, bump_keyGen k st)
  | None =>
      if autoIncrement st
      then Some (KNum (keyGen st), inject_key (keyGen st) r, set_keyGen (keyGen st + 1) st)
      else None
  end.

(** [store.add(r)] *)
Definition store_add (r : Rec) (st : Store) : Error + Key * Store :=
  match assign_key r st with
  | None => inl DataError
  | Some (k, r', st') =>
      match records st !! k with
      | Some _ => inl ConstraintError
      | None => inr (k, set_records (<[k := r']> (records st')) st')
      end
  end.

(** [store.put(r)] *)
Definition store_put (r : Rec) (st : Store) : Error + Key * Store :=
  match assign_key r st with
  | None => inl DataError
  | Some (k, r', st') => inr (k, set_records (<[k := r']> (records st')) st')
  end.

(** [store.delete(k)], [store.clear()], [store.get(k)], [store.count()] *)
Definition store_delete (k : Key) (st : Store) : Store :=
  set_records (delete k (records st)) st.

Definition store_clear (st : Store) : Store := set_records ∅ st.

Definition store_get (k : Key) (st : Store) : option Rec := records st !! k.

Definition store_count (st : Store) : nat := size (records st).

(** Keys are ordered: numbers, then dates, then strings. *)
Definition key_leb (a b : Key) : bool :=
  match a, b with
  | KNum x, KNum y => x <=? y
  | KNum _, _ => true
  | KDate _, KNum _ => false
  | KDate x, KDate y => x <=? y
  | KDate _, KStr _ => true
  | KStr x, KStr y => String.leb x y
  | KStr _, _ => false
  end.

Definition entry_le (a b : Key * Rec) : Prop := key_leb a.1 b.1 = true.

#[global] Instance entry_le_dec a b : Decision (entry_le a b).
Proof. unfold entry_le. apply _. Defined.

(** [store.getAll()]: every record, by ascending key. *)
Definition store_getAll (st : Store) : list Rec :=
  (merge_sort entry_le (map_to_list (records st))).*2.

(** [IDBKeyRange.bound(lower, upper)] *)
Record KeyRange := mkRange { lower : Key; upper : Key }.

Definition in_range (rg : option KeyRange) (k : Key) : bool :=
  match rg with
  | None => true
  | Some r => key_leb (lower r) k && key_leb k (upper r)
  end.

(** [store.index(ix).getAll(range)]: the records that have the indexed
    property, with its value in the range, by ascending index value. *)
Definition index_getAll (ix : string) (rg : option KeyRange) (st : Store) : list Rec :=
  (merge_sort entry_le
     (omap (fun r => match prop_path ix r with
                     | Some k => if in_range rg k then Some (k, r) else None
                     | None => None
                     end)
           (store_getAll st))).*2.

(** [store.getAll(range)] on the store itself. *)
Definition range_getAll (rg : option KeyRange) (st : Store) : list Rec :=
  (merge_sort entry_le
     (filter (fun kr => in_range rg kr.1 = true) (map_to_list (records st)))).*2.

(** ** Program state *)

Record CacheEntry := mkEntry {
  ce_data : Val Rec;
  ce_timestamp : Z
}.

(** The keys of [localStorage] that the code reads or writes.  The legacy
    blob is [Some None] when the stored text is not valid JSON. *)
Record LocalStorage := mkLS {
  ls_system_data : option (option SystemData);     (* 'camarim-system-data' *)
  ls_migrated_date : option Z;                     (* 'camarim-migrated-date' *)
  ls_backup_data : option (option SystemData);     (* 'camarim-backup-data' *)
  ls_backup_latest : option SystemData;            (* 'camarim-backup-latest' *)
  ls_last_save : option Z                          (* 'camarim-last-save' *)
}.

Record State := mkState {
  db : option DB;                                  (* DatabaseManager.db *)
  queryCache : list (string * CacheEntry);         (* QueryCache.cache, a Map: insertion order *)
  maxSize : nat;                                   (* QueryCache.maxSize *)
  defaultTTL : Z;                                  (* QueryCache.defaultTTL *)
  lastSync : option Z;                             (* BackgroundSync.lastSync *)
  syncInProgress : bool;                           (* BackgroundSync.syncInProgress *)
  localStorage : LocalStorage;
  externalLoginSystem : option (string * string);  (* getUserId(), getUserName() *)
  clock : nat -> Z;                                (* the successive readings of the clock *)
  ticks : nat;                                     (* how many readings were taken *)
  pending : list AuditEntry                        (* audit appends issued and not awaited *)
}.

Definition set_db (d : option DB) (s : State) : State :=
  {| db := d; queryCache := queryCache s; maxSize := maxSize s;
     defaultTTL := defaultTTL s; lastSync := lastSync s;
     syncInProgress := syncInProgress s; localStorage := localStorage s;
     externalLoginSystem := externalLoginSystem s; clock := clock s;
     ticks := ticks s; pending := pending s |}.

Definition set_queryCache (c : list (string * CacheEntry)) (s : State) : State :=
  {| db := db s; queryCache := c; maxSize := maxSize s;
     defaultTTL := defaultTTL s; lastSync := lastSync s;
     syncInProgress := syncInProgress s; localStorage := localStorage s;
     externalLoginSystem := externalLoginSystem s; clock := clock s;
     ticks := ticks s; pending := pending s |}.

Definition set_lastSync (t : option Z) (s : State) : State :=
  {| db := db s; queryCache := queryCache s; maxSize := maxSize s;
     defaultTTL := defaultTTL s; lastSync := t;
     syncInProgress := syncInProgress s; localStorage := localStorage s;
     externalLoginSystem := externalLoginSystem s; clock := clock s;
     ticks := ticks s; pending := pending s |}.

Definition set_syncInProgress (b : bool) (s : State) : State :=
  {| db := db s; queryCache := queryCache s; maxSize := maxSize s;
     defaultTTL := defaultTTL s; lastSync := lastSync s;
     syncInProgress := b; localStorage := localStorage s;
     externalLoginSystem := externalLoginSystem s; clock := clock s;
     ticks := ticks s; pending := pending s |}.

Definition set_localStorage (l : LocalStorage) (s : State) : State :=
  {| db := db s; queryCache := queryCache s; maxSize := maxSize s;
     defaultTTL := defaultTTL s; lastSync := lastSync s;
     syncInProgress := syncInProgress s; localStorage := l;
     externalLoginSystem := externalLoginSystem s; clock := clock s;
     ticks := ticks s; pending := pending s |}.

Definition set_ticks (n : nat) (s : State) : State :=
  {| db := db s; queryCache := queryCache s; maxSize := maxSize s;
     defaultTTL := defaultTTL s; lastSync := lastSync s;
     syncInProgress := syncInProgress s; localStorage := localStorage s;
     externalLoginSystem := externalLoginSystem s; clock := clock s;
     ticks := n; pending := pending s |}.

Definition set_pending (p : list AuditEntry) (s : State) : State :=
  {| db := db s; queryCache := queryCache s; maxSize := maxSize s;
     defaultTTL := defaultTTL s; lastSync := lastSync s;
     syncInProgress := syncInProgress s; localStorage := localStorage s;
     externalLoginSystem := externalLoginSystem s; clock := clock s;
     ticks := ticks s; pending := p |}.

(** ** The monad of asynchronous functions *)

Inductive Res (A : Type) :=
| Ok (a : A)
| Err (e : Error).
Arguments Ok {A} _.
Arguments Err {A} _.

Definition M (A : Type) : Type := State -> Res A * State.

Definition ret {A} (a : A) : M A := fun s => (Ok a, s).

Definition bind {A B} (m : M A) (k : A -> M B) : M B :=
  fun s => match m s with
           | (Ok a, s') => k a s'
           | (Err e, s') => (Err e, s')
           end.

Definition throw {A} (e : Error) : M A := fun s => (Err e, s).

(** [try { m } catch (e) { h e }] *)
Definition try_catch {A} (m : M A) (h : Error -> M A) : M A :=
  fun s => match m s with
           | (Ok a, s') => (Ok a, s')
           | (Err e, s') => h e s'
           end.

(** [try { m } finally { f }], for an [f] that cannot throw. *)
Definition try_finally {A} (m : M A) (f : State -> State) : M A :=
  fun s => let '(r, s') := m s in (r, f s').

Definition gets {A} (f : State -> A) : M A := fun s => (Ok (f s), s).

Definition modify (f : State -> State) : M unit := fun s => (Ok tt, f s).

Declare Scope monad_scope.
Delimit Scope monad_scope with monad.
Notation "x <- c1 ;; c2" := (bind c1 (fun x => c2))
  (at level 100, c1 at next level, right associativity) : monad_scope.
Notation "c1 >> c2" := (bind c1 (fun _ => c2))
  (at level 100, right associativity) : monad_scope.
Open Scope monad_scope.

(** [for (const x of l) { await f(x) }] *)
Fixpoint for_each {A} (l : list A) (f : A -> M unit) : M unit :=
  match l with
  | [] => ret tt
  | x :: l' => f x >> for_each l' f
  end.

(** [Promise.all] of two calls: both run; the first rejection is the result. *)
Definition both {A B} (m1 : M A) (m2 : M B) : M (A * B) :=
  fun s => let '(r1, s1) := m1 s in
           let '(r2, s2) := m2 s1 in
           match r1, r2 with
           | Ok a, Ok b => (Ok (a, b), s2)
           | Err e, _ => (Err e, s2)
           | _, Err e => (Err e, s2)
           end.

(** [Date.now()] and [new Date()]: the next reading of the clock. *)
Definition Date_now : M Z :=
  fun s => (Ok (clock s (ticks s)), set_ticks (S (ticks s)) s).

(** Array methods on a value that may not be an array. *)
Definition as_array (v : Val Rec) : M (list Rec) :=
  match v with
  | VArr l => ret l
  | _ => throw TypeError
  end.

(** [v?.length || 0] *)
Definition length_or_0 (v : Val Rec) : nat :=
  match v with
  | VArr l => length l
  | _ => 0%nat
  end.

(** [v && v.length > 0], with the array when the test holds. *)
Definition nonempty_array (v : Val Rec) : option (list Rec) :=
  match v with
  | VArr (x :: l) => Some (x :: l)
  | _ => None
  end.

(** ** QueryCache *)

Fixpoint cache_get (key : string) (c : list (string * CacheEntry)) : option CacheEntry :=
  match c with
  | [] => None
  | (k, e) :: c' => if String.eqb k key then Some e else cache_get key c'
  end.

(** [Map.set]: a present key keeps its place, a new key goes last. *)
Fixpoint cache_set (key : string) (e : CacheEntry) (c : list (string * CacheEntry))
  : list (string * CacheEntry) :=
  match c with
  | [] => [(key, e)]
  | (k, e') :: c' =>
      if String.eqb k key then (k, e) :: c' else (k, e') :: cache_set key e c'
  end.

Definition cache_delete (key : string) (c : list (string * CacheEntry))
  : list (string * CacheEntry) :=
  filter (fun ke => negb (String.eqb ke.1 key) = true) c.

(** [key.includes(pattern)] *)
Fixpoint includes (pattern key : string) : bool :=
  String.prefix pattern key ||
  match key with
  | EmptyString => false
  | String _ key' => includes pattern key'
  end.

(** The scan of [removeOldest]: [oldestTime] starts at [Infinity] ([None]),
    [oldestKey] at [null] ([None]); a strictly smaller timestamp wins. *)
Definition oldest_step (acc : option string * option Z) (ke : string * CacheEntry)
  : option string * option Z :=
  match acc.2 with
  | None => (Some ke.1, Some (ce_timestamp ke.2))
  | Some t => if ce_timestamp ke.2 <? t
              then (Some ke.1, Some (ce_timestamp ke.2))
              else acc
  end.

Definition oldest_scan (c : list (string * CacheEntry)) : option string * option Z :=
  fold_left oldest_step c (None, None).

(** [if (oldestKey)] holds for a non-empty string. *)
Definition removeOldest (c : list (string * CacheEntry)) : list (string * CacheEntry) :=
  match (oldest_scan c).1 with
  | Some k => if String.eqb k "" then c else cache_delete k c
  | None => c
  end.

Definition invalidate (key : string) : M unit :=
  modify (fun s => set_queryCache (cache_delete key (queryCache s)) s).

Definition invalidatePattern (pattern : string) : M unit :=
  modify (fun s => set_queryCache
    (filter (fun ke => includes pattern ke.1 = false) (queryCache s)) s).

Definition clear : M unit := modify (set_queryCache []).

Definition getOrFetch_miss (key : string) (fetchFunction : M (Val Rec)) : M (Val Rec) :=
  data <- fetchFunction ;;
  modify (fun s => if (maxSize s <=? length (queryCache s))%nat
                   then set_queryCache (removeOldest (queryCache s)) s else s) >>
  now <- Date_now ;;
  modify (fun s => set_queryCache
            (cache_set key {| ce_data := data; ce_timestamp := now |} (queryCache s)) s) >>
  ret data.

Definition getOrFetch (key : string) (fetchFunction : M (Val Rec)) (ttl : Z) : M (Val Rec) :=
  cached <- gets (fun s => cache_get key (queryCache s)) ;;
  match cached with
  | Some c =>
      now <- Date_now ;;
      if now - ce_timestamp c <? ttl
      then ret (ce_data c)
      else getOrFetch_miss key fetchFunction
  | None => getOrFetch_miss key fetchFunction
  end.

(** ** DatabaseManager *)

Definition PRODUCTS : string := "products".
Definition SALES : string := "sales".
Definition SETTINGS : string := "settings".
Definition BACKUPS : string := "backups".
Definition AUDIT_LOG : string := "audit_log".

Definition dbVersion : Z := 3.

(** [if (!this.db) reject(...)] *)
Definition get_db : M DB :=
  fun s => match db s with
           | Some d => (Ok d, s)
           | None => (Err NotInitialized, s)
           end.

(** [this.db.transaction([storeName], mode).objectStore(storeName)] *)
Definition objectStore (storeName : string) : M Store :=
  d <- get_db ;;
  match objectStores d !! storeName with
  | Some st => ret st
  | None => throw NotFoundError
  end.

(** The effect of a committed write on the store [storeName]. *)
Definition set_store (storeName : string) (st : Store) (s : State) : State :=
  match db s with
  | Some d => set_db (Some {| objectStores := <[storeName := st]> (objectStores d);
                              abortOnError := abortOnError d |}) s
  | None => s
  end.

Definition put_store (storeName : string) (st : Store) : M unit :=
  modify (set_store storeName st).

(** The part of [logAudit] before its [add]: the availability test and the
    entry.  [None] is the early [return]. *)
Definition logAudit_entry (action : string) (details : Details) : M (option AuditEntry) :=
  d <- gets db ;;
  match d with
  | None => ret None
  | Some d =>
      match objectStores d !! AUDIT_LOG with
      | None => ret None
      | Some _ =>
          login <- gets externalLoginSystem ;;
          let userId := match login with
                        | Some (uid, _) => if String.eqb uid "" then "unknown" else uid
                        | None => "unknown"
                        end in
          let userName := match login with
                          | Some (_, nm) => if String.eqb nm "" then "Sistema" else nm
                          | None => "Sistema"
                          end in
          now <- Date_now ;;
          ret (Some {| a_id := None; a_timestamp := now; a_action := action;
                       a_details := details; a_userId := userId;
                       a_userName := userName |})
      end
  end.

(** A call [this.logAudit(...)] that is not awaited: the entry is made at
    once and its append is left pending. *)
Definition spawn_logAudit (action : string) (details : Details) : M unit :=
  e <- logAudit_entry action details ;;
  match e with
  | Some e => modify (fun s => set_pending (pending s ++ [e]) s)
  | None => ret tt
  end.

Definition add (storeName : string) (data : Rec) : M Key :=
  st <- objectStore storeName ;;
  match store_add data st with
  | inl e => throw e
  | inr (k, st') =>
      put_store storeName st' >>
      invalidatePattern storeName >>
      spawn_logAudit "add" (DStoreId storeName (id_or_key data)) >>
      ret k
  end.

Definition update (storeName : string) (data : Rec) : M Key :=
  st <- objectStore storeName ;;
  match store_put data st with
  | inl e => throw e
  | inr (k, st') =>
      put_store storeName st' >>
      invalidatePattern storeName >>
      spawn_logAudit "update" (DStoreId storeName (id_or_key data)) >>
      ret k
  end.

(** [key] is [None] for [undefined], which the engine refuses. *)
Definition delete (storeName : string) (key : option Key) : M bool :=
  st <- objectStore storeName ;;
  match key with
  | None => throw DataError
  | Some k =>
      put_store storeName (store_delete k st) >>
      invalidatePattern storeName >>
      spawn_logAudit "delete" (DStoreId storeName (Some k)) >>
      ret true
  end.

Definition logAudit (action : string) (details : Details) : M unit :=
  try_catch
    (e <- logAudit_entry action details ;;
     match e with
     | None => ret tt
     | Some e => add AUDIT_LOG (RAudit e) >> ret tt
     end)
    (fun _ => ret tt).

(** The engine completes the oldest pending audit append. *)
Definition complete_pending : M unit :=
  p <- gets pending ;;
  match p with
  | [] => ret tt
  | e :: p' =>
      modify (set_pending p') >>
      try_catch (add AUDIT_LOG (RAudit e) >> ret tt) (fun _ => ret tt)
  end.

Definition cacheKey_get (storeName : string) (key : Key) : string :=
  storeName +:+ "_" +:+ render_key key.

Definition get (storeName : string) (key : Key) : M (Val Rec) :=
  ttl <- gets defaultTTL ;;
  getOrFetch (cacheKey_get storeName key)
    (st <- objectStore storeName ;;
     ret (match store_get key st with Some r => VObj r | None => VUndef end))
    ttl.

(** [range?.lower || ''] *)
Definition render_bound (k : option Key) : string :=
  match k with
  | Some k => if truthy k then render_key k else ""
  | None => ""
  end.

Definition cacheKey_getAll (storeName : string) (indexName : option string)
    (range : option KeyRange) : string :=
  storeName +:+ "_all_" +:+ default "null" indexName +:+ "_"
    +:+ render_bound (lower <$> range) +:+ "_" +:+ render_bound (upper <$> range).

Definition getAll (storeName : string) (indexName : option string)
    (range : option KeyRange) : M (Val Rec) :=
  ttl <- gets defaultTTL ;;
  getOrFetch (cacheKey_getAll storeName indexName range)
    (st <- objectStore storeName ;;
     match indexName with
     | Some ix =>
         if String.eqb ix "" then ret (VArr (range_getAll range st))
         else if bool_decide (ix ∈ indexNames st)
              then ret (VArr (index_getAll ix range st))
              else throw NotFoundError
     | None => ret (VArr (range_getAll range st))
     end)
    ttl.

(** The requests that [items.forEach] issues: [store.add(item)] throws, and
    ends the loop, at the first item that yields no key. *)
Fixpoint bulk_issue (st : Store) (items : list Rec) : list Rec * bool :=
  match items with
  | [] => ([], true)
  | r :: items' =>
      match assign_key r st with
      | None => ([], false)
      | Some _ => let '(l, all) := bulk_issue st items' in (r :: l, all)
      end
  end.

(** The issued requests run in order, counting successes and failures;
    [None] when a failure aborted the transaction. *)
Fixpoint bulk_run (abort : bool) (items : list Rec) (st : Store)
    (completed errors : nat) : option (Store * nat * nat) :=
  match items with
  | [] => Some (st, completed, errors)
  | r :: items' =>
      match store_add r st with
      | inr (_, st') => bulk_run abort items' st' (S completed) errors
      | inl _ => if abort then None
                 else bulk_run abort items' st completed (S errors)
      end
  end.

(** [items] is [None] for [null] or [undefined]. *)
Definition bulkAdd (storeName : string) (items : option (list Rec)) : M nat :=
  d <- gets db ;;
  match d, items with
  | None, _ | _, None | _, Some [] => ret 0%nat
  | Some d, Some items =>
      st <- objectStore storeName ;;
      let '(issued, all_issued) := bulk_issue st items in
      match bulk_run (abortOnError d) issued st 0 0 with
      | None =>
          (* transaction.onerror, unless the loop had thrown before *)
          throw (if all_issued then ConstraintError else DataError)
      | Some (st', completed, errors) =>
          (* transaction.oncomplete *)
          put_store storeName st' >>
          invalidatePattern storeName >>
          if negb all_issued then throw DataError
          else if (0 <? errors)%nat then throw (BulkErrors errors (length items))
          else ret completed
      end
  end.

Definition clearStore (storeName : string) : M bool :=
  st <- objectStore storeName ;;
  put_store storeName (store_clear st) >>
  invalidatePattern storeName >>
  ret true.

Definition getStoreCount (storeName : string) : M nat :=
  st <- objectStore storeName ;;
  ret (store_count st).

Definition getDefaultSettings : list (string * string) :=
  [("defaultDebitFee", "2"); ("defaultCreditFee", "4.5"); ("defaultTax", "6");
   ("defaultMargin", "40"); ("monthlyOperationalExpenses", "4000");
   ("lastProductId", "0"); ("lastSaleId", "0")].

Definition getFallbackData : M SystemData :=
  blob <- gets (fun s => ls_system_data (localStorage s)) ;;
  match blob with
  | Some (Some data) => ret data
  | _ => ret {| sd_products := VArr []; sd_sales := VArr [];
                sd_settings := Some getDefaultSettings |}
  end.

(** [JSON.stringify(undefined)] is stored as text that does not parse. *)
Definition saveToLocalStorageFallback (data : option SystemData) : M bool :=
  modify (fun s => set_localStorage
    {| ls_system_data := Some data;
       ls_migrated_date := ls_migrated_date (localStorage s);
       ls_backup_data := ls_backup_data (localStorage s);
       ls_backup_latest := ls_backup_latest (localStorage s);
       ls_last_save := ls_last_save (localStorage s) |} s) >>
  ret true.

(** [settings[k] = v] on an object used as a map. *)
Fixpoint object_set (k v : string) (o : list (string * string)) : list (string * string) :=
  match o with
  | [] => [(k, v)]
  | (k', v') :: o' =>
      if String.eqb k' k then (k', v) :: o' else (k', v') :: object_set k v o'
  end.

(** The loop of [getSystemData] over the settings records.  A record of a
    store whose key path is [key] has that property; other records are
    passed over. *)
Definition settings_object (l : list Rec) : list (string * string) :=
  fold_left (fun o r => match r with
                        | RSetting st => object_set (st_key st) (st_value st) o
                        | _ => o
                        end) l [].

(** [v || []] *)
Definition or_empty (v : Val Rec) : Val Rec :=
  match v with
  | VUndef => VArr []
  | _ => v
  end.

Definition getSystemData : M SystemData :=
  try_catch
    (all <- both (getAll PRODUCTS None None)
                  (both (getAll SALES None None) (getAll SETTINGS None None)) ;;
     let '(products, (sales, settingsArray)) := all in
     settings <- match settingsArray with
                 | VUndef => ret []
                 | VObj _ => throw TypeError
                 | VArr l => ret (settings_object l)
                 end ;;
     ret {| sd_products := or_empty products; sd_sales := or_empty sales;
            sd_settings := Some settings |})
    (fun _ => getFallbackData).

(** [Array.prototype.sort] with a comparator, as a stable insertion sort. *)
Fixpoint insert_by (le : Rec -> Rec -> bool) (x : Rec) (l : list Rec) : list Rec :=
  match l with
  | [] => [x]
  | y :: l' => if le x y then x :: y :: l' else y :: insert_by le x l'
  end.

Definition sort_by (le : Rec -> Rec -> bool) (l : list Rec) : list Rec :=
  foldr (insert_by le) [] l.

(** [new Date(a) - new Date(b) <= 0]; with a missing timestamp the difference
    is [NaN], which [sort] takes for equal. *)
Definition date_le (a b : option Z) : bool :=
  match a, b with
  | Some x, Some y => x <=? y
  | _, _ => true
  end.

Definition oldest_first (a b : Rec) : bool := date_le (prop_timestamp a) (prop_timestamp b).
Definition newest_first (a b : Rec) : bool := date_le (prop_timestamp b) (prop_timestamp a).

(** [sort] works in place, so it also reorders the array held by the cache;
    every reader of that entry sorts again, and the order inside the cache is
    not tracked. *)
Definition getBackups (type : option string) : M (list Rec) :=
  try_catch
    (v <- getAll BACKUPS None None ;;
     backups <- as_array v ;;
     let backups := match type with
                    | Some ty => if String.eqb ty "" then backups
                                 else filter (fun b => prop_type b = Some ty) backups
                    | None => backups
                    end in
     ret (sort_by newest_first backups))
    (fun _ => ret []).

Definition getLastBackupDate : M (option Z) :=
  try_catch
    (backups <- getBackups None ;;
     ret (match backups with
          | b :: _ => prop_timestamp b
          | [] => None
          end))
    (fun _ => ret None).

Definition getDatabaseInfo : M (option DbInfo) :=
  try_catch
    (d <- gets db ;;
     match d with
     | None => ret None
     | Some _ =>
         counts <- both (getStoreCount PRODUCTS)
                     (both (getStoreCount SALES)
                        (both (getStoreCount BACKUPS)
                           (both (getStoreCount AUDIT_LOG) (getStoreCount SETTINGS)))) ;;
         let '(productsCount, (salesCount, (backupsCount, (auditCount, settingsCount)))) :=
           counts in
         lastBackup <- getLastBackupDate ;;
         ret (Some {| info_products := productsCount; info_sales := salesCount;
                      info_backups := backupsCount; info_audit_log := auditCount;
                      info_settings := settingsCount; info_lastBackup := lastBackup |})
     end)
    (fun _ => ret None).

Definition cleanupOldBackups (maxBackups : nat) : M unit :=
  try_catch
    (v <- getAll BACKUPS None None ;;
     match v with
     | VUndef => throw TypeError
     | VObj _ => ret tt
     | VArr backups =>
         if (maxBackups <? length backups)%nat then
           let sorted := sort_by oldest_first backups in
           let toRemove := take (length backups - maxBackups)%nat sorted in
           for_each toRemove
             (fun backup => delete BACKUPS (KDate <$> prop_timestamp backup) >> ret tt)
         else ret tt
     end)
    (fun _ => ret tt).

(** [data] is [None] when the argument is omitted. *)
Definition createBackup (type : string) (data : option SystemData) : M (option Z) :=
  try_catch
    (timestamp <- Date_now ;;
     data <- match data with
             | Some data => ret data
             | None => getSystemData
             end ;;
     info <- getDatabaseInfo ;;
     add BACKUPS (RBackup timestamp type data dbVersion info) >>
     cleanupOldBackups 30 >>
     ret (Some timestamp))
    (fun _ => ret None).

(** The transaction opened here carries no request of its own: each
    operation opens its own transaction, and [transaction.abort()] undoes
    none of them.  The promise is settled when the operations have run. *)
Definition executeTransaction (operations : M unit) : M unit :=
  d <- get_db ;;
  if bool_decide (is_Some (objectStores d !! PRODUCTS)
                  ∧ is_Some (objectStores d !! SALES)
                  ∧ is_Some (objectStores d !! SETTINGS))
  then operations
  else throw NotFoundError.

Definition setting_records (o : list (string * string)) : list Rec :=
  map (fun kv => RSetting {| st_key := kv.1; st_value := kv.2 |}) o.

(** [data] is [None] for [undefined] (a backup record without [data]). *)
Definition saveSystemData (data : option SystemData) : M bool :=
  try_catch
    (executeTransaction
       (match data with
        | None => throw TypeError
        | Some data =>
            match nonempty_array (sd_products data) with
            | Some products =>
                clearStore PRODUCTS >> bulkAdd PRODUCTS (Some products) >> ret tt
            | None => ret tt
            end >>
            match nonempty_array (sd_sales data) with
            | Some sales =>
                clearStore SALES >> bulkAdd SALES (Some sales) >> ret tt
            | None => ret tt
            end >>
            match sd_settings data with
            | Some settings =>
                clearStore SETTINGS >>
                bulkAdd SETTINGS (Some (setting_records settings)) >> ret tt
            | None => ret tt
            end
        end) >>
     createBackup "auto" data >>
     now <- Date_now ;;
     modify (fun s => set_localStorage
       {| ls_system_data := ls_system_data (localStorage s);
          ls_migrated_date := ls_migrated_date (localStorage s);
          ls_backup_data := ls_backup_data (localStorage s);
          ls_backup_latest := data;
          ls_last_save := Some now |} s) >>
     ret true)
    (fun _ => saveToLocalStorageFallback data).

Definition prop_data (r : Rec) : option SystemData :=
  match r with
  | RBackup _ _ data _ _ => Some data
  | _ => None
  end.

Definition restoreBackup (timestamp : Key) : M bool :=
  try_catch
    (backup <- get BACKUPS timestamp ;;
     data <- match backup with
             | VUndef => throw BackupNotFound
             | VObj r => ret (prop_data r)
             | VArr _ => ret None
             end ;;
     createBackup "pre_restore" None >>
     saveSystemData data >>
     logAudit "restore_backup" (DRestore timestamp) >>
     ret true)
    (fun _ => ret false).

(** One collection of [mergeData]: the legacy records whose [id] is not in
    the set of the ids read from the store. *)
Definition merge_collection (storeName : string) (legacy : Val Rec) : M unit :=
  match nonempty_array legacy with
  | Some legacy =>
      v <- getAll storeName None None ;;
      existing <- as_array v ;;
      let existingIds := map prop_id existing in
      let new := filter (fun p => prop_id p ∉ existingIds) legacy in
      match new with
      | [] => ret tt
      | _ => bulkAdd storeName (Some new) >> ret tt
      end
  | None => ret tt
  end.

Definition mergeData (data : SystemData) : M unit :=
  try_catch
    (merge_collection PRODUCTS (sd_products data) >>
     merge_collection SALES (sd_sales data))
    (fun error => throw error).

Definition migrateFromLocalStorage : M unit :=
  try_catch
    (localStorageData <- gets (fun s => ls_system_data (localStorage s)) ;;
     match localStorageData with
     | None => ret tt
     | Some parsed =>
         data <- match parsed with
                 | Some data => ret data
                 | None => throw SyntaxError
                 end ;;
         logAudit "migration_start"
           (DMigrationStart (length_or_0 (sd_products data))
                            (length_or_0 (sd_sales data))) >>
         existingProducts <- getStoreCount PRODUCTS ;;
         existingSales <- getStoreCount SALES ;;
         (if (0 <? existingProducts)%nat || (0 <? existingSales)%nat
          then mergeData data
          else saveSystemData (Some data) >> ret tt) >>
         createBackup "migration" (Some data) >>
         now <- Date_now ;;
         modify (fun s => set_localStorage
           {| ls_system_data := ls_system_data (localStorage s);
              ls_migrated_date := Some now;
              ls_backup_data := localStorageData;
              ls_backup_latest := ls_backup_latest (localStorage s);
              ls_last_save := ls_last_save (localStorage s) |} s) >>
         logAudit "migration_complete"
           (DMigrationComplete (length_or_0 (sd_products data))
                               (length_or_0 (sd_sales data)))
     end)
    (fun error => logAudit "migration_error" (DError (error_message error))).

(** [IDBKeyRange.bound] throws when the bounds are out of order. *)
Definition getSalesByDateRange (startDate endDate : Key) : M (Val Rec) :=
  try_catch
    (if key_leb startDate endDate
     then getAll SALES (Some "date") (Some {| lower := startDate; upper := endDate |})
     else throw DataError)
    (fun _ => ret (VArr [])).

(** ** BackgroundSync *)

Section BackgroundSync.

(** [d.setFullYear(d.getFullYear() - 2)]: the host's calendar, in local time. *)
Variable twoYearsBefore : Z -> Z.

Definition hasChangesSinceLastSync : M bool :=
  lastSave <- gets (fun s => ls_last_save (localStorage s)) ;;
  lastSync <- gets lastSync ;;
  match lastSave, lastSync with
  | Some lastSave, Some lastSync => ret (lastSync <? lastSave)
  | _, _ => ret true
  end.

Definition cleanupOldData : M unit :=
  try_catch
    (now <- Date_now ;;
     let twoYearsAgo := twoYearsBefore now in
     v <- getSalesByDateRange (KDate 0) (KDate twoYearsAgo) ;;
     match v with
     | VUndef => throw TypeError
     | VObj _ | VArr [] => ret tt
     | VArr oldSales =>
         createBackup "archive"
           (Some {| sd_products := VArr []; sd_sales := VArr oldSales;
                    sd_settings := Some [] |}) >>
         for_each oldSales
           (fun sale => delete SALES (prop_id sale) >> ret tt)
     end)
    (fun _ => ret tt).

Definition clamp_stock (r : Rec) : Rec :=
  match r with
  | RProduct p =>
      RProduct {| p_id := p_id p; p_name := p_name p; p_category := p_category p;
                  p_stock := Z.max 0 (p_stock p);
                  p_sellingPrice := p_sellingPrice p; p_createdAt := p_createdAt p |}
  | _ => r
  end.

(** [p.stock < 0] *)
Definition negative_stock (r : Rec) : bool :=
  match prop_stock r with
  | Some z => z <? 0
  | None => false
  end.

(** [!s.items || s.items.length === 0] *)
Definition without_items (r : Rec) : bool :=
  match r with
  | RSale s => match s_items s with
               | Some (_ :: _) => false
               | _ => true
               end
  | _ => true
  end.

(** [l.indexOf(x)] *)
Fixpoint indexOf (x : option Key) (l : list (option Key)) : option nat :=
  match l with
  | [] => None
  | y :: l' => if decide (y = x) then Some 0%nat else S <$> indexOf x l'
  end.

(** [ids.filter((id, index) => ids.indexOf(id) !== index)] *)
Definition duplicateIds (ids : list (option Key)) : list (option Key) :=
  (filter (fun ix => indexOf ix.2 ids ≠ Some ix.1) (imap pair ids)).*2.

(** The assignment [product.stock = ...] also changes the object inside the
    array that the cache may hold; the [update] that follows removes that
    entry, and the model passes the changed record to [update] only. *)
(** [if (l.length > 0) issues.push(`${l.length}` + text)] *)
Definition push_issue {A} (l : list A) (text : string) (issues : list string)
  : list string :=
  match l with
  | [] => issues
  | _ => issues ++ [pretty (length l) +:+ text]
  end.

Definition checkDataIntegrity : M (list string) :=
  try_catch
    (both_v <- both (getAll PRODUCTS None None) (getAll SALES None None) ;;
     products <- as_array both_v.1 ;;
     let negativeStock := filter (fun p => negative_stock p = true) products in
     let issues := push_issue negativeStock " produtos com estoque negativo" [] in
     for_each negativeStock
       (fun product => update PRODUCTS (clamp_stock product) >> ret tt) >>
     sales <- as_array both_v.2 ;;
     let emptySales := filter (fun s => without_items s = true) sales in
     let issues := push_issue emptySales " vendas sem itens" issues in
     let duplicates := duplicateIds (map prop_id products) in
     let issues := push_issue duplicates " IDs de produto duplicados" issues in
     match issues with
     | [] => ret tt
     | _ => logAudit "integrity_check"
              (DIntegrity issues
                 (match negativeStock with [] => "none" | _ => "negative_stock" end))
     end >>
     ret issues)
    (fun _ => ret ["Erro na verificação"]).

(** The body of the [try] block of [sync]. *)
Definition sync_body : M unit :=
  checkDataIntegrity >>
  hasChanges <- hasChangesSinceLastSync ;;
  (if hasChanges then createBackup "auto_sync" None >> ret tt else ret tt) >>
  cleanupOldData >>
  now <- Date_now ;;
  modify (set_lastSync (Some now)).

Definition sync : M unit :=
  inProgress <- gets syncInProgress ;;
  if inProgress then ret tt
  else
    modify (set_syncInProgress true) >>
    try_finally
      (try_catch sync_body (fun _ => ret tt))
      (set_syncInProgress false).

Definition quickSync : M unit :=
  try_catch (createBackup "quick_sync" None >> ret tt) (fun _ => ret tt).

End BackgroundSync.

(** * Properties *)

(** ** The monad *)

Lemma bind_ok {A B} (m : M A) (k : A -> M B) s a s' :
  m s = (Ok a, s') -> bind m k s = k a s'.
Proof. intros H. unfold bind. rewrite H. reflexivity. Qed.

Lemma bind_err {A B} (m : M A) (k : A -> M B) s e s' :
  m s = (Err e, s') -> bind m k s = (Err e, s').
Proof. intros H. unfold bind. rewrite H. reflexivity. Qed.

Lemma for_each_cons_ok {A} (x : A) (l : list A) (f : A -> M unit) s s1 :
  f x s = (Ok tt, s1) -> for_each (x :: l) f s = for_each l f s1.
Proof. intros H. simpl. unfold bind. rewrite H. reflexivity. Qed.

Lemma for_each_cons_err {A} (x : A) (l : list A) (f : A -> M unit) s e s1 :
  f x s = (Err e, s1) -> for_each (x :: l) f s = (Err e, s1).
Proof. intros H. simpl. unfold bind. rewrite H. reflexivity. Qed.

(** A computation leaves an observation [f] of the state as it was. *)
Definition preserves {A X} (f : State -> X) (m : M A) : Prop :=
  forall s, f (m s).2 = f s.

Section Preserves.
Context {X : Type} (f : State -> X).

Lemma preserves_ret {A} (a : A) : preserves f (ret a).
Proof. intros s. reflexivity. Qed.

Lemma preserves_throw {A} e : preserves f (@throw A e).
Proof. intros s. reflexivity. Qed.

Lemma preserves_gets {A} (g : State -> A) : preserves f (gets g).
Proof. intros s. reflexivity. Qed.

Lemma preserves_modify g : (forall s, f (g s) = f s) -> preserves f (modify g).
Proof. intros H s. apply H. Qed.

Lemma preserves_bind {A B} (m : M A) (k : A -> M B) :
  preserves f m -> (forall a, preserves f (k a)) -> preserves f (bind m k).
Proof.
  intros Hm Hk s. unfold bind. specialize (Hm s).
  destruct (m s) as [[a|e] s']; simpl in *.
  - rewrite Hk. exact Hm.
  - exact Hm.
Qed.

Lemma preserves_try_catch {A} (m : M A) h :
  preserves f m -> (forall e, preserves f (h e)) -> preserves f (try_catch m h).
Proof.
  intros Hm Hh s. unfold try_catch. specialize (Hm s).
  destruct (m s) as [[a|e] s']; simpl in *.
  - exact Hm.
  - rewrite Hh. exact Hm.
Qed.

Lemma preserves_both {A B} (m1 : M A) (m2 : M B) :
  preserves f m1 -> preserves f m2 -> preserves f (both m1 m2).
Proof.
  intros H1 H2 s. unfold both. specialize (H1 s).
  destruct (m1 s) as [r1 s1]. specialize (H2 s1).
  destruct (m2 s1) as [r2 s2]. simpl in *.
  destruct r1, r2; simpl; congruence.
Qed.

Lemma preserves_for_each {A} (l : list A) (g : A -> M unit) :
  (forall x, preserves f (g x)) -> preserves f (for_each l g).
Proof.
  intros Hg. induction l as [|x l IH]; simpl.
  - apply preserves_ret.
  - apply preserves_bind; [apply Hg | intros _; exact IH].
Qed.

End Preserves.

(** Pieces of the state that a computation can be shown to leave alone. *)
Create HintDb preserves.

Ltac preserves_step :=
  first
    [ assumption
    | solve [eauto 3 with preserves]
    | apply preserves_ret
    | apply preserves_throw
    | apply preserves_gets
    | apply preserves_bind; [| intros ?]
    | apply preserves_try_catch; [| intros ?]
    | apply preserves_both
    | apply preserves_for_each; intros ?
    | apply preserves_modify; intros ?; reflexivity
    | progress case_match ].

Ltac solve_preserves := repeat preserves_step.

(** ** Which operations touch which part of the state *)

(** [f] does not look at the cache or the clock. *)
Record Volatile {X} (f : State -> X) : Prop := {
  vol_cache : forall c s, f (set_queryCache c s) = f s;
  vol_ticks : forall n s, f (set_ticks n s) = f s
}.

(** [f] does not look at the pending audit appends. *)
Definition ignores_pending {X} (f : State -> X) : Prop :=
  forall p s, f (set_pending p s) = f s.

(** [f] does not look at the object store [name]. *)
Definition ignores_store {X} (f : State -> X) (name : string) : Prop :=
  forall st s, f (set_store name st s) = f s.

Definition ignores_localStorage {X} (f : State -> X) : Prop :=
  forall l s, f (set_localStorage l s) = f s.

Section Frames.
Context {X : Type} (f : State -> X) (Hvol : Volatile f) (Hpend : ignores_pending f).

Lemma Date_now_preserves : preserves f Date_now.
Proof. intros s. simpl. apply Hvol. Qed.

Lemma invalidatePattern_preserves p : preserves f (invalidatePattern p).
Proof. intros s. simpl. apply Hvol. Qed.

Lemma get_db_preserves : preserves f get_db.
Proof. intros s. unfold get_db. destruct (db s); reflexivity. Qed.

Hint Resolve Date_now_preserves invalidatePattern_preserves get_db_preserves : preserves.

Lemma objectStore_preserves n : preserves f (objectStore n).
Proof. unfold objectStore. solve_preserves. Qed.

Hint Resolve objectStore_preserves : preserves.

Lemma getOrFetch_miss_preserves key fetch :
  preserves f fetch -> preserves f (getOrFetch_miss key fetch).
Proof.
  intros Hf. unfold getOrFetch_miss.
  apply preserves_bind; [exact Hf | intros data].
  apply preserves_bind.
  { intros s. simpl. case_match; [apply Hvol | reflexivity]. }
  intros _. apply preserves_bind; [apply Date_now_preserves | intros now].
  apply preserves_bind; [| intros _; apply preserves_ret].
  intros s. simpl. apply Hvol.
Qed.

Lemma getOrFetch_preserves key fetch ttl :
  preserves f fetch -> preserves f (getOrFetch key fetch ttl).
Proof.
  intros Hf. unfold getOrFetch.
  pose proof (getOrFetch_miss_preserves key fetch Hf).
  solve_preserves.
Qed.

Lemma get_preserves n k : preserves f (get n k).
Proof.
  unfold get. apply preserves_bind; [apply preserves_gets | intros ttl].
  apply getOrFetch_preserves. solve_preserves.
Qed.

Lemma getAll_preserves n ix rg : preserves f (getAll n ix rg).
Proof.
  unfold getAll. apply preserves_bind; [apply preserves_gets | intros ttl].
  apply getOrFetch_preserves. solve_preserves.
Qed.

Lemma getStoreCount_preserves n : preserves f (getStoreCount n).
Proof. unfold getStoreCount. solve_preserves. Qed.

Hint Resolve get_preserves getAll_preserves getStoreCount_preserves : preserves.

Lemma as_array_preserves v : preserves f (as_array v).
Proof. unfold as_array. solve_preserves. Qed.

Hint Resolve as_array_preserves : preserves.

Lemma getFallbackData_preserves : preserves f getFallbackData.
Proof. unfold getFallbackData. solve_preserves. Qed.

Hint Resolve getFallbackData_preserves : preserves.

Lemma getSystemData_preserves : preserves f getSystemData.
Proof. unfold getSystemData. solve_preserves. Qed.

Lemma getBackups_preserves ty : preserves f (getBackups ty).
Proof. unfold getBackups. solve_preserves. Qed.

Hint Resolve getSystemData_preserves getBackups_preserves : preserves.

Lemma getLastBackupDate_preserves : preserves f getLastBackupDate.
Proof. unfold getLastBackupDate. solve_preserves. Qed.

Hint Resolve getLastBackupDate_preserves : preserves.

Lemma getDatabaseInfo_preserves : preserves f getDatabaseInfo.
Proof. unfold getDatabaseInfo. solve_preserves. Qed.

Lemma getSalesByDateRange_preserves a b : preserves f (getSalesByDateRange a b).
Proof. unfold getSalesByDateRange. solve_preserves. Qed.

Lemma logAudit_entry_preserves a d : preserves f (logAudit_entry a d).
Proof. unfold logAudit_entry. solve_preserves. Qed.

Hint Resolve getDatabaseInfo_preserves getSalesByDateRange_preserves
  logAudit_entry_preserves : preserves.

Lemma spawn_logAudit_preserves a d : preserves f (spawn_logAudit a d).
Proof.
  unfold spawn_logAudit. solve_preserves.
  intros s. simpl. apply Hpend.
Qed.

Hint Resolve spawn_logAudit_preserves : preserves.

Lemma put_store_preserves n st : ignores_store f n -> preserves f (put_store n st).
Proof. intros H s. simpl. apply H. Qed.

Hint Resolve put_store_preserves : preserves.

Lemma add_preserves n r : ignores_store f n -> preserves f (add n r).
Proof. intros H. unfold add. solve_preserves. Qed.

Lemma update_preserves n r : ignores_store f n -> preserves f (update n r).
Proof. intros H. unfold update. solve_preserves. Qed.

Lemma delete_preserves n k : ignores_store f n -> preserves f (delete n k).
Proof. intros H. unfold delete. solve_preserves. Qed.

Lemma clearStore_preserves n : ignores_store f n -> preserves f (clearStore n).
Proof. intros H. unfold clearStore. solve_preserves. Qed.

Lemma bulkAdd_preserves n items : ignores_store f n -> preserves f (bulkAdd n items).
Proof. intros H. unfold bulkAdd. solve_preserves. Qed.

Hint Resolve add_preserves update_preserves delete_preserves clearStore_preserves
  bulkAdd_preserves : preserves.

Lemma logAudit_preserves a d : ignores_store f AUDIT_LOG -> preserves f (logAudit a d).
Proof. intros H. unfold logAudit. solve_preserves. Qed.

Lemma complete_pending_preserves :
  ignores_store f AUDIT_LOG -> preserves f complete_pending.
Proof.
  intros H. unfold complete_pending. solve_preserves.
  intros s. simpl. apply Hpend.
Qed.

Lemma cleanupOldBackups_preserves n :
  ignores_store f BACKUPS -> preserves f (cleanupOldBackups n).
Proof. intros H. unfold cleanupOldBackups. solve_preserves. Qed.

Hint Resolve logAudit_preserves cleanupOldBackups_preserves : preserves.

Lemma createBackup_preserves ty data :
  ignores_store f BACKUPS -> preserves f (createBackup ty data).
Proof. intros H. unfold createBackup. solve_preserves. Qed.

Hint Resolve createBackup_preserves : preserves.

Lemma merge_collection_preserves n legacy :
  ignores_store f n -> preserves f (merge_collection n legacy).
Proof. intros H. unfold merge_collection. solve_preserves. Qed.

Hint Resolve merge_collection_preserves : preserves.

Lemma mergeData_preserves data :
  ignores_store f PRODUCTS -> ignores_store f SALES -> preserves f (mergeData data).
Proof. intros H1 H2. unfold mergeData. solve_preserves. Qed.

Lemma saveSystemData_preserves data :
  ignores_store f PRODUCTS -> ignores_store f SALES -> ignores_store f SETTINGS ->
  ignores_store f BACKUPS -> ignores_localStorage f ->
  preserves f (saveSystemData data).
Proof.
  intros H1 H2 H3 H4 H5. unfold saveSystemData, executeTransaction,
    saveToLocalStorageFallback.
  solve_preserves; intros s; simpl; apply H5.
Qed.

Hint Resolve mergeData_preserves saveSystemData_preserves : preserves.

Lemma restoreBackup_preserves t :
  ignores_store f PRODUCTS -> ignores_store f SALES -> ignores_store f SETTINGS ->
  ignores_store f BACKUPS -> ignores_store f AUDIT_LOG -> ignores_localStorage f ->
  preserves f (restoreBackup t).
Proof. intros H1 H2 H3 H4 H5 H6. unfold restoreBackup. solve_preserves. Qed.

Lemma migrateFromLocalStorage_preserves :
  ignores_store f PRODUCTS -> ignores_store f SALES -> ignores_store f SETTINGS ->
  ignores_store f BACKUPS -> ignores_store f AUDIT_LOG -> ignores_localStorage f ->
  preserves f migrateFromLocalStorage.
Proof.
  intros H1 H2 H3 H4 H5 H6. unfold migrateFromLocalStorage.
  solve_preserves; intros s; simpl; apply H6.
Qed.

Lemma hasChangesSinceLastSync_preserves : preserves f hasChangesSinceLastSync.
Proof. unfold hasChangesSinceLastSync. solve_preserves. Qed.

Lemma cleanupOldData_preserves y :
  ignores_store f SALES -> ignores_store f BACKUPS -> preserves f (cleanupOldData y).
Proof. intros H1 H2. unfold cleanupOldData. solve_preserves. Qed.

Lemma checkDataIntegrity_preserves :
  ignores_store f PRODUCTS -> ignores_store f AUDIT_LOG ->
  preserves f checkDataIntegrity.
Proof. intros H1 H2. unfold checkDataIntegrity. solve_preserves. Qed.

End Frames.

(** ** A database as [createOrUpdateStores] makes it, and a starting state *)

Definition schema : gmap string Store :=
  list_to_map
    [(PRODUCTS, {| keyPath := "id"; autoIncrement := false; keyGen := 1;
                   indexNames := ["category"; "stock"; "createdAt"]; records := ∅ |});
     (SALES, {| keyPath := "id"; autoIncrement := false; keyGen := 1;
                indexNames := ["date"; "attendant"; "total"; "paymentMethod"];
                records := ∅ |});
     (SETTINGS, {| keyPath := "key"; autoIncrement := false; keyGen := 1;
                   indexNames := []; records := ∅ |});
     (BACKUPS, {| keyPath := "timestamp"; autoIncrement := false; keyGen := 1;
                  indexNames := ["type"]; records := ∅ |});
     (AUDIT_LOG, {| keyPath := "id"; autoIncrement := true; keyGen := 1;
                    indexNames := ["timestamp"; "action"; "userId"]; records := ∅ |})].

Definition empty_localStorage : LocalStorage :=
  {| ls_system_data := None; ls_migrated_date := None; ls_backup_data := None;
     ls_backup_latest := None; ls_last_save := None |}.

(** The state after [init] on a new database, for an engine with the given
    behaviour on a failed request; the clock reads [t0], [t0 + 1], ... *)
Definition initial_state (abort : bool) (t0 : Z) : State :=
  {| db := Some {| objectStores := schema; abortOnError := abort |};
     queryCache := []; maxSize := 100; defaultTTL := 5 * 60 * 1000;
     lastSync := None; syncInProgress := false;
     localStorage := empty_localStorage; externalLoginSystem := None;
     clock := fun n => t0 + Z.of_nat n; ticks := 0; pending := [] |}.

(** The object store [name] of the current database, if any. *)
Definition store_at (name : string) (s : State) : option Store :=
  match db s with
  | Some d => objectStores d !! name
  | None => None
  end.

(** ** C10: [bulkAdd] with nothing to add *)

(** C10. For every store name, [bulkAdd] called with [null]/[undefined] items
    ([None]), with an empty list, or while the database handle is not
    initialised resolves with 0 and leaves the whole state (stores, cache,
    pending audit appends) as it was. *)
Theorem bulkAdd_nothing_to_do (storeName : string) (items : option (list Rec)) (s : State) :
  db s = None \/ items = None \/ items = Some [] ->
  bulkAdd storeName items s = (Ok 0%nat, s).
Proof.
  intros H. unfold bulkAdd, bind, gets, ret.
  destruct (db s) as [d|].
  - destruct H as [H | [-> | ->]]; [discriminate | reflexivity | reflexivity].
  - reflexivity.
Qed.

Lemma bulkAdd_nothing_to_do_witness :
  bulkAdd "no_such_store" None (initial_state true 0) = (Ok 0%nat, initial_state true 0)
  /\ bulkAdd PRODUCTS (Some []) (initial_state false 0) = (Ok 0%nat, initial_state false 0)
  /\ bulkAdd SALES (Some [RSale (mkSale 1 0 "" "" 0 None)])
       (set_db None (initial_state true 0))
     = (Ok 0%nat, set_db None (initial_state true 0)).
Proof.
  split; [| split].
  - apply (bulkAdd_nothing_to_do "no_such_store" None). right; left; reflexivity.
  - apply (bulkAdd_nothing_to_do PRODUCTS (Some [])). right; right; reflexivity.
  - apply (bulkAdd_nothing_to_do SALES). left; reflexivity.
Defined.

(** ** C9: the audit append never fails its caller *)

Lemma logAudit_ok action details s : (logAudit action details s).1 = Ok tt.
Proof.
  unfold logAudit, try_catch.
  destruct (bind (logAudit_entry action details) _ s) as [[[]|e] s']; reflexivity.
Qed.

Lemma logAudit_unavailable action details s :
  store_at AUDIT_LOG s = None -> logAudit action details s = (Ok tt, s).
Proof.
  unfold store_at, logAudit, try_catch, logAudit_entry, bind, gets, ret.
  destruct (db s) as [d|]; [| reflexivity].
  intros ->. reflexivity.
Qed.

(** What the engine answers to the request of [add], [update], [delete]. *)
Definition add_outcome (storeName : string) (data : Rec) (s : State) : Res Key :=
  match db s with
  | None => Err NotInitialized
  | Some d =>
      match objectStores d !! storeName with
      | None => Err NotFoundError
      | Some st => match store_add data st with
                   | inl e => Err e
                   | inr (k, _) => Ok k
                   end
      end
  end.

Definition update_outcome (storeName : string) (data : Rec) (s : State) : Res Key :=
  match db s with
  | None => Err NotInitialized
  | Some d =>
      match objectStores d !! storeName with
      | None => Err NotFoundError
      | Some st => match store_put data st with
                   | inl e => Err e
                   | inr (k, _) => Ok k
                   end
      end
  end.

Definition delete_outcome (storeName : string) (key : option Key) (s : State) : Res bool :=
  match db s with
  | None => Err NotInitialized
  | Some d =>
      match objectStores d !! storeName with
      | None => Err NotFoundError
      | Some st => match key with
                   | None => Err DataError
                   | Some _ => Ok true
                   end
      end
  end.

Lemma spawn_logAudit_ok action details s : (spawn_logAudit action details s).1 = Ok tt.
Proof.
  unfold spawn_logAudit, logAudit_entry, bind, gets, ret, modify, Date_now.
  destruct (db s) as [d|]; [| reflexivity].
  destruct (objectStores d !! AUDIT_LOG); reflexivity.
Qed.

Lemma add_result storeName data s : (add storeName data s).1 = add_outcome storeName data s.
Proof.
  unfold add, add_outcome, objectStore, get_db, bind, throw, ret.
  destruct (db s) as [d|]; [| reflexivity].
  destruct (objectStores d !! storeName) as [st|]; [| reflexivity].
  destruct (store_add data st) as [e|[k st']]; [reflexivity |].
  unfold put_store, invalidatePattern, modify.
  match goal with |- context [spawn_logAudit ?a ?b ?s] =>
    pose proof (spawn_logAudit_ok a b s) as H;
    destruct (spawn_logAudit a b s) as [[[]|e] s'] end;
  [reflexivity | discriminate].
Qed.

Lemma update_result storeName data s :
  (update storeName data s).1 = update_outcome storeName data s.
Proof.
  unfold update, update_outcome, objectStore, get_db, bind, throw, ret.
  destruct (db s) as [d|]; [| reflexivity].
  destruct (objectStores d !! storeName) as [st|]; [| reflexivity].
  destruct (store_put data st) as [e|[k st']]; [reflexivity |].
  unfold put_store, invalidatePattern, modify.
  match goal with |- context [spawn_logAudit ?a ?b ?s] =>
    pose proof (spawn_logAudit_ok a b s) as H;
    destruct (spawn_logAudit a b s) as [[[]|e] s'] end;
  [reflexivity | discriminate].
Qed.

Lemma delete_result storeName key s :
  (delete storeName key s).1 = delete_outcome storeName key s.
Proof.
  unfold delete, delete_outcome, objectStore, get_db, bind, throw, ret.
  destruct (db s) as [d|]; [| reflexivity].
  destruct (objectStores d !! storeName) as [st|]; [| reflexivity].
  destruct key as [k|]; [| reflexivity].
  unfold put_store, invalidatePattern, modify.
  match goal with |- context [spawn_logAudit ?a ?b ?s] =>
    pose proof (spawn_logAudit_ok a b s) as H;
    destruct (spawn_logAudit a b s) as [[[]|e] s'] end;
  [reflexivity | discriminate].
Qed.

Lemma migrateFromLocalStorage_ok s : (migrateFromLocalStorage s).1 = Ok tt.
Proof.
  unfold migrateFromLocalStorage, try_catch.
  match goal with |- context [bind ?m ?k s] => destruct (bind m k s) as [[[]|e] s'] end.
  - reflexivity.
  - apply logAudit_ok.
Qed.

Lemma restoreBackup_ok t s : exists b, (restoreBackup t s).1 = Ok b.
Proof.
  unfold restoreBackup, try_catch.
  match goal with |- context [bind ?m ?k s] => destruct (bind m k s) as [[b|e] s'] end;
    eexists; reflexivity.
Qed.

(** C9. For every action and details payload [logAudit] returns normally: a
    failed append is caught, and when the audit store is unavailable nothing
    is done at all.  So the operation being recorded is never rejected on
    account of the audit entry: the result of [add], [update] and [delete] is
    the engine's answer to their own request, and the migration and the
    restore, which await [logAudit], return normally. *)
Theorem logAudit_never_rejects (action : string) (details : Details) (s : State) :
  (logAudit action details s).1 = Ok tt
  /\ (store_at AUDIT_LOG s = None -> logAudit action details s = (Ok tt, s))
  /\ (forall storeName data, (add storeName data s).1 = add_outcome storeName data s)
  /\ (forall storeName data, (update storeName data s).1 = update_outcome storeName data s)
  /\ (forall storeName key, (delete storeName key s).1 = delete_outcome storeName key s)
  /\ (migrateFromLocalStorage s).1 = Ok tt
  /\ (forall timestamp, exists b, (restoreBackup timestamp s).1 = Ok b).
Proof.
  repeat split.
  - apply logAudit_ok.
  - apply logAudit_unavailable.
  - intros; apply add_result.
  - intros; apply update_result.
  - intros; apply delete_result.
  - apply migrateFromLocalStorage_ok.
  - intros; apply restoreBackup_ok.
Qed.

(** An audit store without key generator refuses the entry; the append fails
    and [logAudit] still returns normally, having written nothing. *)
Definition broken_audit_state : State :=
  set_store AUDIT_LOG
    {| keyPath := "id"; autoIncrement := false; keyGen := 1; indexNames := [];
       records := ∅ |}
    (initial_state true 0).

Example logAudit_swallows_failure :
  add AUDIT_LOG
    (RAudit {| a_id := None; a_timestamp := 0; a_action := "add";
               a_details := DError ""; a_userId := "unknown"; a_userName := "Sistema" |})
    broken_audit_state
  = (Err DataError, broken_audit_state)
  /\ (logAudit "restore_backup" (DRestore (KDate 5)) broken_audit_state).1 = Ok tt
  /\ db (logAudit "restore_backup" (DRestore (KDate 5)) broken_audit_state).2
     = db broken_audit_state.
Proof. vm_compute. repeat split. Qed.

(** ** C8: the reentrancy guard of [sync] *)

Lemma syncInProgress_volatile : Volatile syncInProgress.
Proof. split; reflexivity. Qed.

Lemma syncInProgress_ignores_store n : ignores_store syncInProgress n.
Proof. intros st s. unfold set_store. destruct (db s); reflexivity. Qed.

Lemma syncInProgress_ignores_localStorage : ignores_localStorage syncInProgress.
Proof. intros l s. reflexivity. Qed.

Lemma syncInProgress_ignores_pending : ignores_pending syncInProgress.
Proof. intros p s. reflexivity. Qed.

Lemma sync_body_keeps_flag y : preserves syncInProgress (sync_body y).
Proof.
  pose proof syncInProgress_volatile as Hv.
  pose proof syncInProgress_ignores_pending as Hp.
  pose proof syncInProgress_ignores_store as Hs.
  unfold sync_body.
  apply preserves_bind; [apply checkDataIntegrity_preserves; auto | intros _].
  apply preserves_bind; [apply hasChangesSinceLastSync_preserves; auto | intros hasChanges].
  apply preserves_bind.
  { destruct hasChanges; [| apply preserves_ret].
    apply preserves_bind; [apply createBackup_preserves; auto | intros _; apply preserves_ret]. }
  intros _.
  apply preserves_bind; [apply cleanupOldData_preserves; auto | intros _].
  apply preserves_bind; [apply Date_now_preserves; auto | intros now].
  apply preserves_modify. reflexivity.
Qed.


(** ** QueryCache: keys and invalidation *)

Lemma prefix_app p x : String.prefix p (p +:+ x) = true.
Proof.
  induction p as [|a p IH]; simpl.
  - destruct x; reflexivity.
  - destruct (Ascii.ascii_dec a a) as [_|n]; [exact IH | contradiction].
Qed.

Lemma includes_app p x : includes p (p +:+ x) = true.
Proof.
  generalize (prefix_app p x).
  destruct (p +:+ x); intros H; unfold includes; fold includes; rewrite H; reflexivity.
Qed.

(** Every cache key that [get] and [getAll] make for a store contains the
    store's name, and none is the empty string. *)
Lemma cacheKey_get_includes storeName key :
  includes storeName (cacheKey_get storeName key) = true.
Proof. apply includes_app. Qed.

Lemma cacheKey_getAll_includes storeName ix rg :
  includes storeName (cacheKey_getAll storeName ix rg) = true.
Proof. unfold cacheKey_getAll. apply includes_app. Qed.

Lemma app_nonempty a b : b <> "" -> a +:+ b <> "".
Proof. destruct a; simpl; [tauto | discriminate]. Qed.

Lemma cacheKey_get_nonempty storeName key : cacheKey_get storeName key <> "".
Proof. unfold cacheKey_get. apply app_nonempty. discriminate. Qed.

Lemma cacheKey_getAll_nonempty storeName ix rg : cacheKey_getAll storeName ix rg <> "".
Proof. unfold cacheKey_getAll. apply app_nonempty. discriminate. Qed.

Lemma cache_get_None key (c : list (string * CacheEntry)) :
  (forall k e, (k, e) ∈ c -> k <> key) -> cache_get key c = None.
Proof.
  induction c as [|[k e] c IH]; intros H; simpl; [reflexivity |].
  destruct (String.eqb_spec k key) as [->|_].
  - exfalso. apply (H key e); [left | reflexivity].
  - apply IH. intros k' e' Hin. apply (H k' e'). right. exact Hin.
Qed.

Lemma cache_get_Some key e (c : list (string * CacheEntry)) :
  cache_get key c = Some e -> (key, e) ∈ c.
Proof.
  induction c as [|[k e'] c IH]; simpl; [discriminate |].
  destruct (String.eqb_spec k key) as [->|_].
  - intros [= ->]. left.
  - intros H. right. apply IH, H.
Qed.

Definition invalidated (pattern : string) (c : list (string * CacheEntry)) : Prop :=
  forall k e, (k, e) ∈ c -> includes pattern k = false.

Lemma invalidatePattern_invalidated pattern s :
  invalidated pattern (queryCache (invalidatePattern pattern s).2).
Proof.
  intros k e. simpl. rewrite list_elem_of_filter. intros [H _]. exact H.
Qed.

Lemma invalidated_get pattern c key :
  invalidated pattern c -> includes pattern key = true -> cache_get key c = None.
Proof.
  intros Hinv Hkey. apply cache_get_None. intros k e Hin ->.
  rewrite (Hinv _ _ Hin) in Hkey. discriminate.
Qed.

Lemma queryCache_set_store n st s : queryCache (set_store n st s) = queryCache s.
Proof. unfold set_store. destruct (db s); reflexivity. Qed.

Lemma spawn_logAudit_queryCache a d : preserves queryCache (spawn_logAudit a d).
Proof.
  intros s. unfold spawn_logAudit, logAudit_entry, bind, gets, ret, modify, Date_now.
  destruct (db s) as [db0|]; [| reflexivity].
  destruct (objectStores db0 !! AUDIT_LOG); reflexivity.
Qed.

Lemma add_invalidates storeName data s k s' :
  add storeName data s = (Ok k, s') -> invalidated storeName (queryCache s').
Proof.
  unfold add, objectStore, get_db, bind, throw, ret.
  destruct (db s) as [d|] eqn:Ed; [| discriminate].
  destruct (objectStores d !! storeName) as [st|]; [| discriminate].
  destruct (store_add data st) as [e|[k0 st']]; [discriminate |].
  destruct (put_store storeName st' s) as [r1 s1] eqn:E1.
  unfold put_store, modify in E1. injection E1 as <- <-.
  pose proof (invalidatePattern_invalidated storeName (set_store storeName st' s)) as Hinv.
  destruct (invalidatePattern storeName (set_store storeName st' s)) as [r2 s2] eqn:E2.
  unfold invalidatePattern, modify in E2. injection E2 as <- <-.
  match goal with |- context [spawn_logAudit ?a ?b ?s0] =>
    pose proof (spawn_logAudit_queryCache a b s0) as Hq;
    destruct (spawn_logAudit a b s0) as [[[]|e] s3] end; [| discriminate].
  intros [= _ <-]. simpl in Hq. rewrite Hq. exact Hinv.
Qed.

Lemma update_invalidates storeName data s k s' :
  update storeName data s = (Ok k, s') -> invalidated storeName (queryCache s').
Proof.
  unfold update, objectStore, get_db, bind, throw, ret.
  destruct (db s) as [d|] eqn:Ed; [| discriminate].
  destruct (objectStores d !! storeName) as [st|]; [| discriminate].
  destruct (store_put data st) as [e|[k0 st']]; [discriminate |].
  destruct (put_store storeName st' s) as [r1 s1] eqn:E1.
  unfold put_store, modify in E1. injection E1 as <- <-.
  pose proof (invalidatePattern_invalidated storeName (set_store storeName st' s)) as Hinv.
  destruct (invalidatePattern storeName (set_store storeName st' s)) as [r2 s2] eqn:E2.
  unfold invalidatePattern, modify in E2. injection E2 as <- <-.
  match goal with |- context [spawn_logAudit ?a ?b ?s0] =>
    pose proof (spawn_logAudit_queryCache a b s0) as Hq;
    destruct (spawn_logAudit a b s0) as [[[]|e] s3] end; [| discriminate].
  intros [= _ <-]. simpl in Hq. rewrite Hq. exact Hinv.
Qed.

Lemma delete_invalidates storeName key s b s' :
  delete storeName key s = (Ok b, s') -> invalidated storeName (queryCache s').
Proof.
  unfold delete, objectStore, get_db, bind, throw, ret.
  destruct (db s) as [d|] eqn:Ed; [| discriminate].
  destruct (objectStores d !! storeName) as [st|]; [| discriminate].
  destruct key as [k|]; [| discriminate].
  destruct (put_store storeName (store_delete k st) s) as [r1 s1] eqn:E1.
  unfold put_store, modify in E1. injection E1 as <- <-.
  pose proof (invalidatePattern_invalidated storeName
                (set_store storeName (store_delete k st) s)) as Hinv.
  destruct (invalidatePattern storeName (set_store storeName (store_delete k st) s))
    as [r2 s2] eqn:E2.
  unfold invalidatePattern, modify in E2. injection E2 as <- <-.
  match goal with |- context [spawn_logAudit ?a ?b ?s0] =>
    pose proof (spawn_logAudit_queryCache a b s0) as Hq;
    destruct (spawn_logAudit a b s0) as [[[]|e] s3] end; [| discriminate].
  intros [= _ <-]. simpl in Hq. rewrite Hq. exact Hinv.
Qed.

Lemma getOrFetch_uncached key fetch ttl s :
  cache_get key (queryCache s) = None ->
  getOrFetch key fetch ttl s = getOrFetch_miss key fetch s.
Proof. intros H. unfold getOrFetch, bind, gets. rewrite H. reflexivity. Qed.

Lemma getOrFetch_miss_result key fetch s :
  (getOrFetch_miss key fetch s).1 = (fetch s).1.
Proof.
  unfold getOrFetch_miss, bind. destruct (fetch s) as [[d|e] s1]; reflexivity.
Qed.

(** ** C2: a write invalidates the cached reads of its collection *)

(** C2. When [add], [update] or [delete] on a collection resolves, the cache
    holds no entry whose key contains the collection's name; the keys that
    [get] and [getAll] use for the collection all contain it, so the next
    [getOrFetch] for such a key finds nothing cached, calls its loader, and
    returns what the loader returns then. *)
Theorem write_invalidates_cache (storeName : string) (data : Rec) (okey : option Key)
    (s s' : State) :
  (exists k, add storeName data s = (Ok k, s'))
  \/ (exists k, update storeName data s = (Ok k, s'))
  \/ delete storeName okey s = (Ok true, s') ->
  (forall key e, (key, e) ∈ queryCache s' -> includes storeName key = false)
  /\ (forall k, includes storeName (cacheKey_get storeName k) = true)
  /\ (forall ix rg, includes storeName (cacheKey_getAll storeName ix rg) = true)
  /\ (forall key fetch ttl, includes storeName key = true ->
        getOrFetch key fetch ttl s' = getOrFetch_miss key fetch s'
        /\ (getOrFetch key fetch ttl s').1 = (fetch s').1).
Proof.
  intros H.
  assert (Hinv : invalidated storeName (queryCache s')).
  { destruct H as [[k H] | [[k H] | H]].
    - eapply add_invalidates, H.
    - eapply update_invalidates, H.
    - eapply delete_invalidates, H. }
  split; [exact Hinv |].
  split; [apply cacheKey_get_includes |].
  split; [apply cacheKey_getAll_includes |].
  intros key fetch ttl Hkey.
  assert (E : getOrFetch key fetch ttl s' = getOrFetch_miss key fetch s').
  { apply getOrFetch_uncached. eapply invalidated_get; eauto. }
  split; [exact E |]. rewrite E. apply getOrFetch_miss_result.
Qed.

Lemma write_invalidates_cache_witness :
  let data := RProduct (mkProduct 7 "batom" "maquiagem" 3 20 0) in
  let s := (getAll PRODUCTS None None (initial_state true 0)).2 in
  let s' := (add PRODUCTS data s).2 in
  cache_get (cacheKey_getAll PRODUCTS None None) (queryCache s) <> None
  /\ (forall key e, (key, e) ∈ queryCache s' -> includes PRODUCTS key = false)
  /\ (forall k, includes PRODUCTS (cacheKey_get PRODUCTS k) = true)
  /\ (forall ix rg, includes PRODUCTS (cacheKey_getAll PRODUCTS ix rg) = true)
  /\ (forall key fetch ttl, includes PRODUCTS key = true ->
        getOrFetch key fetch ttl s' = getOrFetch_miss key fetch s'
        /\ (getOrFetch key fetch ttl s').1 = (fetch s').1).
Proof.
  intros data s s'. split; [vm_compute; discriminate |].
  apply (write_invalidates_cache PRODUCTS data None s s').
  left. exists (KNum 7). vm_compute. reflexivity.
Defined.

(** ** C3: eviction order *)

(** What the scan of [removeOldest] has found after reading [seen]. *)
Definition scan_inv (seen : list (string * CacheEntry)) (acc : option string * option Z)
  : Prop :=
  match acc with
  | (Some k, Some t) =>
      (exists e, (k, e) ∈ seen /\ ce_timestamp e = t)
      /\ forall k' e', (k', e') ∈ seen -> t <= ce_timestamp e'
  | (None, None) => seen = []
  | _ => False
  end.

Lemma oldest_step_inv seen acc ke :
  scan_inv seen acc -> scan_inv (seen ++ [ke]) (oldest_step acc ke).
Proof.
  destruct ke as [k e]. destruct acc as [[k0|] [t0|]]; simpl; try tauto.
  - intros [[e0 [Hin Ht]] Hmin]. unfold oldest_step; simpl.
    destruct (Z.ltb_spec (ce_timestamp e) t0) as [Hlt|Hge]; simpl.
    + split.
      * exists e. split; [| reflexivity]. apply elem_of_app. right. left.
      * intros k' e' Hin'. apply elem_of_app in Hin' as [Hin'|Hin'].
        -- specialize (Hmin _ _ Hin'). lia.
        -- apply list_elem_of_singleton in Hin'. injection Hin' as -> ->. lia.
    + split.
      * exists e0. split; [| exact Ht]. apply elem_of_app. left. exact Hin.
      * intros k' e' Hin'. apply elem_of_app in Hin' as [Hin'|Hin'].
        -- apply (Hmin _ _ Hin').
        -- apply list_elem_of_singleton in Hin'. injection Hin' as -> ->. lia.
  - intros ->. unfold oldest_step; simpl. split.
    + exists e. split; [left | reflexivity].
    + intros k' e' Hin'. apply list_elem_of_singleton in Hin'.
      injection Hin' as -> ->. lia.
Qed.

Lemma oldest_fold_inv c : forall seen acc,
  scan_inv seen acc -> scan_inv (seen ++ c) (fold_left oldest_step c acc).
Proof.
  induction c as [|ke c IH]; intros seen acc H; simpl.
  - rewrite app_nil_r. exact H.
  - replace (seen ++ ke :: c) with ((seen ++ [ke]) ++ c)
      by (rewrite <- app_assoc; reflexivity).
    apply IH, oldest_step_inv, H.
Qed.

(** The scan ends on an entry with the smallest timestamp. *)
Lemma oldest_scan_min c :
  c <> [] ->
  exists ko eo, (oldest_scan c).1 = Some ko /\ (ko, eo) ∈ c
                /\ forall k e, (k, e) ∈ c -> ce_timestamp eo <= ce_timestamp e.
Proof.
  intros Hne. pose proof (oldest_fold_inv c [] (None, None) eq_refl) as H.
  simpl in H. fold (oldest_scan c) in H.
  destruct (oldest_scan c) as [[ko|] [t|]]; simpl in *; try tauto.
  destruct H as [[eo [Hin Ht]] Hmin]. exists ko, eo. subst t. auto.
Qed.

(** Among equal timestamps the scan keeps the first: with timestamps in
    non-decreasing order it ends on the first entry. *)
Lemma oldest_fold_first c k0 t0 :
  (forall k e, (k, e) ∈ c -> t0 <= ce_timestamp e) ->
  fold_left oldest_step c (Some k0, Some t0) = (Some k0, Some t0).
Proof.
  induction c as [|[k e] c IH]; intros H; simpl; [reflexivity |].
  unfold oldest_step at 2; simpl.
  destruct (Z.ltb_spec (ce_timestamp e) t0) as [Hlt|_].
  - specialize (H k e (list_elem_of_here _ _)). lia.
  - apply IH. intros k' e' Hin. apply (H k' e'). right. exact Hin.
Qed.

Lemma cache_delete_head k e (c : list (string * CacheEntry)) :
  (forall e', (k, e') ∉ c) -> cache_delete k ((k, e) :: c) = c.
Proof.
  intros H. unfold cache_delete. rewrite filter_cons_False.
  2:{ simpl. rewrite String.eqb_refl. simpl. discriminate. }
  induction c as [|[k' e'] c IH]; [reflexivity |].
  rewrite filter_cons_True.
  - f_equal. apply IH. intros e'' Hin. apply (H e''). right. exact Hin.
  - simpl. destruct (String.eqb_spec k' k) as [->|_]; [| reflexivity].
    exfalso. apply (H e'). left.
Qed.

Lemma cache_set_new k e (c : list (string * CacheEntry)) :
  (forall e', (k, e') ∉ c) -> cache_set k e c = c ++ [(k, e)].
Proof.
  induction c as [|[k' e'] c IH]; intros H; simpl; [reflexivity |].
  destruct (String.eqb_spec k' k) as [->|_].
  - exfalso. apply (H e'). left.
  - f_equal. apply IH. intros e'' Hin. apply (H e''). right. exact Hin.
Qed.

(** The cache after a miss whose loader returned [data] in state [s1]. *)
Lemma getOrFetch_miss_cache key fetch s data s1 :
  fetch s = (Ok data, s1) ->
  queryCache (getOrFetch_miss key fetch s).2
  = cache_set key {| ce_data := data; ce_timestamp := clock s1 (ticks s1) |}
      (if (maxSize s1 <=? length (queryCache s1))%nat
       then removeOldest (queryCache s1) else queryCache s1).
Proof.
  intros Hf. unfold getOrFetch_miss, bind. rewrite Hf. simpl.
  destruct (maxSize s1 <=? length (queryCache s1))%nat; reflexivity.
Qed.

(** The cache that holds the last [n] entries put into it. *)
Definition push (n : nat) (c : list (string * CacheEntry)) (ke : string * CacheEntry)
  : list (string * CacheEntry) :=
  (if (n <=? length c)%nat then tail c else c) ++ [ke].

Lemma fold_push_last (n : nat) (l : list (string * CacheEntry)) : forall c,
  (0 < n)%nat -> (length c <= n)%nat ->
  fold_left (push n) l c = drop (length (c ++ l) - n) (c ++ l).
Proof.
  induction l as [|ke l IH]; intros c Hn Hc; simpl.
  - rewrite app_nil_r. replace (length c - n)%nat with 0%nat by lia. reflexivity.
  - rewrite IH; [| exact Hn |].
    + unfold push. destruct (Nat.leb_spec n (length c)) as [Hle|Hlt].
      * destruct c as [|x c]; simpl in *; [lia |].
        rewrite <- app_assoc. simpl.
        rewrite !length_app. simpl.
        replace (S (length c + S (length l)) - n)%nat
          with (S (length c + S (length l) - n))%nat by lia.
        reflexivity.
      * rewrite <- app_assoc. reflexivity.
    + unfold push. destruct (Nat.leb_spec n (length c)) as [Hle|Hlt];
        rewrite length_app; simpl.
      * destruct c; simpl in *; lia.
      * lia.
Qed.

(** The requests of the scenario: each key with the value its loader returns,
    and the entries they leave, stamped with successive clock readings. *)
Definition fetch_each (reqs : list (string * Val Rec)) (ttl : Z) : M unit :=
  for_each reqs (fun kv => getOrFetch kv.1 (ret kv.2) ttl >> ret tt).

Fixpoint stamped (clk : nat -> Z) (t : nat) (reqs : list (string * Val Rec))
  : list (string * CacheEntry) :=
  match reqs with
  | [] => []
  | kv :: reqs' =>
      (kv.1, {| ce_data := kv.2; ce_timestamp := clk t |}) :: stamped clk (S t) reqs'
  end.

Definition clock_monotone (clk : nat -> Z) : Prop :=
  forall i j, (i <= j)%nat -> clk i <= clk j.

(** A cache filled in clock order: distinct non-empty keys, timestamps in
    non-decreasing order and none later than the next clock reading. *)
Record cache_in_order (s : State) : Prop := {
  cio_nodup : NoDup (queryCache s).*1;
  cio_nonempty : forall k, k ∈ (queryCache s).*1 -> k <> "";
  cio_sorted : StronglySorted (fun a b => ce_timestamp a.2 <= ce_timestamp b.2)
                 (queryCache s);
  cio_past : forall k e, (k, e) ∈ queryCache s -> ce_timestamp e <= clock s (ticks s)
}.

Lemma removeOldest_in_order s :
  cache_in_order s -> removeOldest (queryCache s) = tail (queryCache s).
Proof.
  intros [Hnd Hne Hs _]. destruct (queryCache s) as [|[k0 e0] c]; [reflexivity |].
  unfold removeOldest, oldest_scan. simpl fold_left.
  unfold oldest_step at 2. simpl.
  rewrite oldest_fold_first.
  - simpl. destruct (String.eqb_spec k0 "") as [E|_].
    + exfalso. apply (Hne k0); [left | exact E].
    + simpl. apply cache_delete_head. intros e' Hin.
      apply NoDup_cons in Hnd as [Hnotin _]. apply Hnotin.
      apply list_elem_of_fmap. exists (k0, e'). split; [reflexivity | exact Hin].
  - intros k e Hin. apply StronglySorted_inv in Hs as [_ Hall].
    rewrite Forall_forall in Hall. apply (Hall (k, e) Hin).
Qed.

Lemma StronglySorted_snoc {A} (R : A -> A -> Prop) (l : list A) (x : A) :
  StronglySorted R l -> Forall (fun y => R y x) l -> StronglySorted R (l ++ [x]).
Proof.
  induction 1 as [|y l Hs IH Hy]; intros Hall; simpl.
  - repeat constructor.
  - apply Forall_cons in Hall as [Hyx Hall]. constructor.
    + apply IH, Hall.
    + apply Forall_app. split; [exact Hy | repeat constructor; exact Hyx].
Qed.

Lemma cache_get_absent k (c : list (string * CacheEntry)) :
  k ∉ c.*1 -> cache_get k c = None.
Proof.
  intros H. apply cache_get_None. intros k' e Hin ->. apply H.
  apply list_elem_of_fmap. exists (k, e). split; [reflexivity | exact Hin].
Qed.

(** One request of the scenario for a key that is not cached. *)
Lemma getOrFetch_push s k v ttl :
  cache_in_order s -> clock_monotone (clock s) ->
  k ∉ (queryCache s).*1 -> k <> "" ->
  (getOrFetch k (ret v) ttl s).1 = Ok v
  /\ queryCache (getOrFetch k (ret v) ttl s).2
     = push (maxSize s) (queryCache s)
         (k, {| ce_data := v; ce_timestamp := clock s (ticks s) |})
  /\ ticks (getOrFetch k (ret v) ttl s).2 = S (ticks s)
  /\ clock (getOrFetch k (ret v) ttl s).2 = clock s
  /\ maxSize (getOrFetch k (ret v) ttl s).2 = maxSize s
  /\ cache_in_order (getOrFetch k (ret v) ttl s).2.
Proof.
  intros Hord Hmono Hk Hne.
  rewrite getOrFetch_uncached by (apply cache_get_absent, Hk).
  assert (Hcache : queryCache (getOrFetch_miss k (ret v) s).2
     = push (maxSize s) (queryCache s)
         (k, {| ce_data := v; ce_timestamp := clock s (ticks s) |})).
  { rewrite (getOrFetch_miss_cache k (ret v) s v s eq_refl). unfold push.
    assert (Hk' : forall c : list (string * CacheEntry),
                    (forall x, x ∈ c -> x ∈ queryCache s) ->
                       forall e', (k, e') ∉ c).
    { intros c Hsub e' Hin. apply Hk. apply list_elem_of_fmap.
      exists (k, e'). split; [reflexivity | apply Hsub, Hin]. }
    destruct (maxSize s <=? length (queryCache s))%nat.
    - rewrite removeOldest_in_order by exact Hord. apply cache_set_new.
      apply Hk'. intros x Hx. destruct (queryCache s); [exact Hx | right; exact Hx].
    - apply cache_set_new. apply Hk'. auto. }
  assert (Hticks : ticks (getOrFetch_miss k (ret v) s).2 = S (ticks s)).
  { unfold getOrFetch_miss, bind, ret, modify, Date_now. simpl.
    destruct (maxSize s <=? length (queryCache s))%nat; reflexivity. }
  assert (Hclock : clock (getOrFetch_miss k (ret v) s).2 = clock s).
  { unfold getOrFetch_miss, bind, ret, modify, Date_now. simpl.
    destruct (maxSize s <=? length (queryCache s))%nat; reflexivity. }
  assert (Hmax : maxSize (getOrFetch_miss k (ret v) s).2 = maxSize s).
  { unfold getOrFetch_miss, bind, ret, modify, Date_now. simpl.
    destruct (maxSize s <=? length (queryCache s))%nat; reflexivity. }
  split; [rewrite getOrFetch_miss_result; reflexivity |].
  split; [exact Hcache |]. split; [exact Hticks |]. split; [exact Hclock |].
  split; [exact Hmax |].
  destruct Hord as [Hnd Hnonempty Hsorted Hpast].
  set (c' := if (maxSize s <=? length (queryCache s))%nat
             then tail (queryCache s) else queryCache s).
  assert (Hsub : forall x, x ∈ c' -> x ∈ queryCache s).
  { intros x Hx. subst c'. destruct (maxSize s <=? length (queryCache s))%nat;
      [| exact Hx]. destruct (queryCache s); [exact Hx | right; exact Hx]. }
  assert (Hnd' : NoDup c'.*1).
  { subst c'. destruct (maxSize s <=? length (queryCache s))%nat; [| exact Hnd].
    destruct (queryCache s); [exact Hnd |]. apply NoDup_cons in Hnd as [_ H]. exact H. }
  assert (Hsorted' : StronglySorted
            (fun a b => ce_timestamp a.2 <= ce_timestamp b.2) c').
  { subst c'. destruct (maxSize s <=? length (queryCache s))%nat; [| exact Hsorted].
    destruct (queryCache s); [exact Hsorted |].
    apply StronglySorted_inv in Hsorted as [H _]. exact H. }
  split; rewrite ?Hcache, ?Hticks, ?Hclock; unfold push; fold c'.
  - rewrite fmap_app. simpl. apply NoDup_app. split; [exact Hnd' |].
    split; [| apply NoDup_singleton].
    intros x Hx Hx'. apply list_elem_of_singleton in Hx'. subst x. apply Hk.
    apply list_elem_of_fmap in Hx as [[k0 e0] [-> Hin]].
    apply list_elem_of_fmap. exists (k0, e0). split; [reflexivity | apply Hsub, Hin].
  - intros k0 Hin. rewrite fmap_app in Hin. apply elem_of_app in Hin as [Hin|Hin].
    + apply Hnonempty. apply list_elem_of_fmap in Hin as [[k1 e1] [-> Hin]].
      apply list_elem_of_fmap. exists (k1, e1). split; [reflexivity | apply Hsub, Hin].
    + simpl in Hin. apply list_elem_of_singleton in Hin. subst k0. exact Hne.
  - apply StronglySorted_snoc; [exact Hsorted' |].
    apply Forall_forall. intros [k0 e0] Hin. simpl. apply (Hpast k0 e0), Hsub, Hin.
  - intros k0 e0 Hin. apply elem_of_app in Hin as [Hin|Hin].
    + transitivity (clock s (ticks s)); [apply (Hpast k0 e0), Hsub, Hin |].
      apply Hmono. lia.
    + apply list_elem_of_singleton in Hin. injection Hin as -> ->. simpl.
      apply Hmono. lia.
Qed.

(** The requests of the scenario, one after the other. *)
Lemma fetch_each_cache ttl (reqs : list (string * Val Rec)) : forall s,
  cache_in_order s -> clock_monotone (clock s) ->
  NoDup ((queryCache s).*1 ++ reqs.*1) ->
  (forall k, k ∈ reqs.*1 -> k <> "") ->
  (fetch_each reqs ttl s).1 = Ok tt
  /\ queryCache (fetch_each reqs ttl s).2
     = fold_left (push (maxSize s)) (stamped (clock s) (ticks s) reqs) (queryCache s).
Proof.
  induction reqs as [|[k v] reqs IH]; intros s Hord Hmono Hnd Hne.
  - split; reflexivity.
  - assert (Hk : k ∉ (queryCache s).*1).
    { apply NoDup_app in Hnd as (_ & Hdisj & _). intros Hin.
      apply (Hdisj k Hin). left. }
    assert (Hkne : k <> "") by (apply Hne; left).
    destruct (getOrFetch_push s k v ttl Hord Hmono Hk Hkne)
      as (Hres & Hcache & Hticks & Hclock & Hmax & Hord').
    destruct (getOrFetch k (ret v) ttl s) as [r s1] eqn:E. simpl in *. subst r.
    unfold fetch_each.
    rewrite (for_each_cons_ok (k, v) reqs _ s s1)
      by (simpl; rewrite (bind_ok _ _ _ _ _ E); reflexivity).
    fold (fetch_each reqs ttl).
    specialize (IH s1 Hord').
    rewrite Hclock, Hmax, Hticks, Hcache in IH. apply IH.
    + exact Hmono.
    + unfold push. rewrite fmap_app. simpl.
      apply NoDup_app in Hnd as (Hnd1 & Hdisj & Hnd2).
      apply NoDup_cons in Hnd2 as [Hk2 Hnd2].
      assert (Hsub : forall x,
                x ∈ (if (maxSize s <=? length (queryCache s))%nat
                     then tail (queryCache s) else queryCache s).*1 ->
                x ∈ (queryCache s).*1).
      { intros x. destruct (maxSize s <=? length (queryCache s))%nat; [| auto].
        destruct (queryCache s); simpl; [auto | intros; right; assumption]. }
      apply NoDup_app. split.
      * apply NoDup_app. split.
        -- destruct (maxSize s <=? length (queryCache s))%nat; [| exact Hnd1].
           destruct (queryCache s); [exact Hnd1 |].
           apply NoDup_cons in Hnd1 as [_ H]. exact H.
        -- split; [| apply NoDup_singleton].
           intros x Hx Hx'. apply list_elem_of_singleton in Hx'. subst x.
           apply Hk, Hsub, Hx.
      * split; [| exact Hnd2].
        intros x Hx Hx'. apply elem_of_app in Hx as [Hx|Hx].
        -- apply (Hdisj x (Hsub x Hx)). right. exact Hx'.
        -- apply list_elem_of_singleton in Hx. subst x. apply Hk2, Hx'.
    + intros k' Hk'. apply Hne. right. exact Hk'.
Qed.

Lemma stamped_length clk t reqs : length (stamped clk t reqs) = length reqs.
Proof. revert t. induction reqs as [|kv reqs IH]; intros t; simpl; [| rewrite IH]; reflexivity. Qed.

(** C3. (1) When [getOrFetch] misses and the cache already holds [maxSize]
    entries or more, so that storing the new entry would exceed the bound,
    an entry with the smallest stored timestamp is deleted before the new
    entry, stamped with the current clock reading, is stored.  (2) Starting
    from an empty cache of capacity [maxSize] (100 by default), after
    requests for distinct keys with a clock that never runs backwards the
    cache holds exactly the [maxSize] most recently stored entries; after
    [maxSize + 1] requests exactly the first stored entry is gone.
    Cache keys are non-empty strings, as all keys made by [get] and
    [getAll] are ([cacheKey_get_nonempty], [cacheKey_getAll_nonempty]). *)
Theorem eviction_order (s : State) (ttl : Z) :
  (forall key fetch data s1,
     cache_get key (queryCache s) = None ->
     fetch s = (Ok data, s1) ->
     queryCache s1 <> [] ->
     (maxSize s1 <= length (queryCache s1))%nat ->
     (forall k e, (k, e) ∈ queryCache s1 -> k <> "") ->
     exists ko eo,
       (ko, eo) ∈ queryCache s1
       /\ (forall k e, (k, e) ∈ queryCache s1 -> ce_timestamp eo <= ce_timestamp e)
       /\ queryCache (getOrFetch key fetch ttl s).2
          = cache_set key {| ce_data := data; ce_timestamp := clock s1 (ticks s1) |}
              (cache_delete ko (queryCache s1)))
  /\ (forall reqs : list (string * Val Rec),
        queryCache s = [] -> (0 < maxSize s)%nat -> clock_monotone (clock s) ->
        NoDup reqs.*1 -> (forall k, k ∈ reqs.*1 -> k <> "") ->
        (fetch_each reqs ttl s).1 = Ok tt
        /\ queryCache (fetch_each reqs ttl s).2
           = drop (length reqs - maxSize s) (stamped (clock s) (ticks s) reqs)
        /\ (length reqs = S (maxSize s) ->
            queryCache (fetch_each reqs ttl s).2
            = tail (stamped (clock s) (ticks s) reqs))).
Proof.
  split.
  - intros key fetch data s1 Hmiss Hfetch Hne Hfull Hkeys.
    destruct (oldest_scan_min (queryCache s1) Hne) as (ko & eo & Hscan & Hin & Hmin).
    exists ko, eo. split; [exact Hin |]. split; [exact Hmin |].
    rewrite getOrFetch_uncached by exact Hmiss.
    rewrite (getOrFetch_miss_cache key fetch s data s1 Hfetch).
    apply Nat.leb_le in Hfull. rewrite Hfull.
    unfold removeOldest. rewrite Hscan.
    destruct (String.eqb_spec ko "") as [E|_]; [| reflexivity].
    exfalso. apply (Hkeys ko eo Hin E).
  - intros reqs Hempty Hmax Hmono Hnd Hne.
    assert (Hord : cache_in_order s).
    { split; rewrite Hempty; simpl.
      - constructor.
      - intros k Hk. inversion Hk.
      - constructor.
      - intros k e Hk. inversion Hk. }
    destruct (fetch_each_cache ttl reqs s Hord Hmono) as [Hres Hcache].
    { rewrite Hempty. exact Hnd. }
    { exact Hne. }
    rewrite Hempty in Hcache.
    rewrite fold_push_last in Hcache by (simpl; lia).
    simpl in Hcache. rewrite stamped_length in Hcache.
    split; [exact Hres |]. split; [exact Hcache |].
    intros Hlen. rewrite Hcache, Hlen.
    replace (S (maxSize s) - maxSize s)%nat with 1%nat by lia.
    destruct (stamped (clock s) (ticks s) reqs); reflexivity.
Qed.

(** The default cache: 101 distinct keys requested into [maxSize = 100]. *)
Definition hundred_and_one : list (string * Val Rec) :=
  map (fun i : nat => ("products_" +:+ pretty i, @VUndef Rec)) (seq 0 101).

Lemma eviction_order_witness :
  (fetch_each hundred_and_one 300000 (initial_state true 0)).1 = Ok tt
  /\ queryCache (fetch_each hundred_and_one 300000 (initial_state true 0)).2
     = tail (stamped (clock (initial_state true 0)) 0 hundred_and_one)
  /\ length (queryCache (fetch_each hundred_and_one 300000 (initial_state true 0)).2)
     = 100%nat
  /\ cache_get "products_0"
       (queryCache (fetch_each hundred_and_one 300000 (initial_state true 0)).2) = None.
Proof.
  assert (Hnd : NoDup hundred_and_one.*1).
  { apply (bool_decide_unpack _). vm_compute. exact I. }
  assert (Hne : forall k, k ∈ hundred_and_one.*1 -> k <> "").
  { intros k Hk. apply list_elem_of_fmap in Hk as [[k' v] [-> Hk]].
    unfold hundred_and_one in Hk. apply list_elem_of_fmap in Hk as [i [[= -> _] _]].
    discriminate. }
  assert (Hmono : clock_monotone (clock (initial_state true 0))).
  { intros i j Hij. simpl. lia. }
  destruct (proj2 (eviction_order (initial_state true 0) 300000) hundred_and_one
              eq_refl ltac:(simpl; lia) Hmono Hnd Hne) as (Hres & _ & Hlast).
  specialize (Hlast eq_refl).
  split; [exact Hres |]. split; [exact Hlast |].
  rewrite Hlast. split; vm_compute; reflexivity.
Defined.

(** The scan does not stop at an empty-string key, but [removeOldest] then
    deletes nothing: [if (oldestKey)] is false for it. *)
Example removeOldest_empty_key :
  removeOldest [("", {| ce_data := VUndef; ce_timestamp := 1 |});
                ("a", {| ce_data := VUndef; ce_timestamp := 2 |})]
  = [("", {| ce_data := VUndef; ce_timestamp := 1 |});
     ("a", {| ce_data := VUndef; ce_timestamp := 2 |})].
Proof. reflexivity. Qed.

(** ** The engine: what a store holds *)

(** Every record sits under the key that its key path yields. *)
Definition store_wf (st : Store) : Prop :=
  forall k r, records st !! k = Some r -> prop_path (keyPath st) r = Some k.

Definition sorted_entries (st : Store) : list (Key * Rec) :=
  merge_sort entry_le (map_to_list (records st)).

Lemma sorted_entries_perm st : sorted_entries st ≡ₚ map_to_list (records st).
Proof. apply merge_sort_Permutation. Qed.

Lemma sorted_entries_elem st k r :
  (k, r) ∈ sorted_entries st <-> records st !! k = Some r.
Proof. rewrite sorted_entries_perm. apply elem_of_map_to_list. Qed.

Lemma sorted_entries_nodup st : NoDup (sorted_entries st).*1.
Proof.
  rewrite sorted_entries_perm. apply NoDup_fst_map_to_list.
Qed.

Lemma store_getAll_elem st r :
  r ∈ store_getAll st <-> exists k, records st !! k = Some r.
Proof.
  unfold store_getAll. fold (sorted_entries st). rewrite list_elem_of_fmap. split.
  - intros [[k r'] [-> H]]. exists k. apply sorted_entries_elem, H.
  - intros [k H]. exists (k, r). split; [reflexivity | apply sorted_entries_elem, H].
Qed.

Lemma store_getAll_length st : length (store_getAll st) = store_count st.
Proof.
  unfold store_getAll, store_count. fold (sorted_entries st).
  rewrite length_fmap, sorted_entries_perm. apply length_map_to_list.
Qed.

(** The keys of the records of a well-formed store, read off the records. *)
Lemma store_getAll_keys st :
  store_wf st ->
  map (prop_path (keyPath st)) (store_getAll st) = Some <$> (sorted_entries st).*1.
Proof.
  intros Hwf. unfold store_getAll. fold (sorted_entries st).
  assert (H : forall kr, kr ∈ sorted_entries st ->
                         prop_path (keyPath st) kr.2 = Some kr.1).
  { intros [k r] Hin. apply Hwf, sorted_entries_elem, Hin. }
  induction (sorted_entries st) as [|kr l IH]; [reflexivity |].
  simpl. rewrite (H kr) by left. f_equal. apply IH.
  intros kr' Hin. apply H. right. exact Hin.
Qed.

Lemma store_getAll_keys_nodup st :
  store_wf st -> NoDup (map (prop_path (keyPath st)) (store_getAll st)).
Proof.
  intros Hwf. rewrite store_getAll_keys by exact Hwf.
  apply NoDup_fmap; [intros x y [= ->]; reflexivity | apply sorted_entries_nodup].
Qed.

Lemma range_getAll_all st : range_getAll None st = store_getAll st.
Proof.
  unfold range_getAll, store_getAll. do 2 f_equal.
  induction (map_to_list (records st)) as [|x l IH]; [reflexivity |].
  rewrite filter_cons_True by reflexivity. f_equal. exact IH.
Qed.

(** ** The state: one store among the others *)

Lemma store_at_set_store_eq n st s :
  db s <> None -> store_at n (set_store n st s) = Some st.
Proof.
  unfold store_at, set_store. destruct (db s) as [d|] eqn:E; [| congruence].
  intros _. simpl. apply lookup_insert_eq.
Qed.

Lemma store_at_set_store_ne n m st s :
  m <> n -> store_at m (set_store n st s) = store_at m s.
Proof.
  intros Hne. unfold store_at, set_store.
  destruct (db s) as [d|] eqn:E; simpl; [| rewrite E; reflexivity].
  apply lookup_insert_ne. congruence.
Qed.

Lemma store_at_db n s st : store_at n s = Some st -> db s <> None.
Proof. unfold store_at. destruct (db s); [discriminate | discriminate]. Qed.

Lemma store_at_volatile n : Volatile (store_at n).
Proof. split; reflexivity. Qed.

Lemma store_at_ignores_pending n : ignores_pending (store_at n).
Proof. intros p s. reflexivity. Qed.

Lemma store_at_ignores_store n m : m <> n -> ignores_store (store_at m) n.
Proof. intros H st s. apply store_at_set_store_ne, H. Qed.

Lemma store_at_ignores_localStorage n : ignores_localStorage (store_at n).
Proof. intros l s. reflexivity. Qed.

Lemma db_volatile : Volatile db.
Proof. split; reflexivity. Qed.

Lemma db_ignores_pending : ignores_pending db.
Proof. intros p s. reflexivity. Qed.

Lemma pending_volatile : Volatile pending.
Proof. split; reflexivity. Qed.

Lemma objectStore_run n s st : store_at n s = Some st -> objectStore n s = (Ok st, s).
Proof.
  unfold store_at, objectStore, get_db, bind, ret. destruct (db s) as [d|]; [| discriminate].
  intros ->. reflexivity.
Qed.

(** ** The cache: bindings after each change *)

Lemma cache_get_set k key e (c : list (string * CacheEntry)) :
  cache_get k (cache_set key e c) = if String.eqb key k then Some e else cache_get k c.
Proof.
  induction c as [|[k' e'] c IH]; simpl.
  - destruct (String.eqb key k); reflexivity.
  - destruct (String.eqb_spec k' key) as [->|Hne]; simpl.
    + destruct (String.eqb key k); reflexivity.
    + rewrite IH. destruct (String.eqb_spec key k) as [->|_]; [| reflexivity].
      destruct (String.eqb_spec k' k) as [->|_]; [contradiction | reflexivity].
Qed.

Lemma cache_get_filter (P : string -> bool) k (c : list (string * CacheEntry)) :
  cache_get k (filter (fun ke => P ke.1 = true) c) = if P k then cache_get k c else None.
Proof.
  induction c as [|[k' e'] c IH]; simpl.
  - destruct (P k); reflexivity.
  - destruct (P k') eqn:E.
    + rewrite filter_cons_True by exact E. simpl. rewrite IH.
      destruct (String.eqb_spec k' k) as [->|_]; [rewrite E |]; reflexivity.
    + rewrite filter_cons_False by (simpl; congruence). rewrite IH.
      destruct (String.eqb_spec k' k) as [->|_]; [rewrite E |]; reflexivity.
Qed.

Lemma cache_get_invalidate pattern k e (c : list (string * CacheEntry)) :
  cache_get k (filter (fun ke => includes pattern ke.1 = false) c) = Some e ->
  cache_get k c = Some e.
Proof.
  assert (E : filter (fun ke : string * CacheEntry => includes pattern ke.1 = false) c
              = filter (fun ke => negb (includes pattern ke.1) = true) c).
  { apply list_filter_iff. intros x. destruct (includes pattern x.1); simpl; split; congruence. }
  rewrite E, (cache_get_filter (fun k => negb (includes pattern k))).
  destruct (negb (includes pattern k)); [auto | discriminate].
Qed.

Lemma cache_get_delete ko k e (c : list (string * CacheEntry)) :
  cache_get k (cache_delete ko c) = Some e -> cache_get k c = Some e.
Proof.
  unfold cache_delete.
  rewrite (cache_get_filter (fun k => negb (String.eqb k ko))).
  destruct (negb (String.eqb k ko)); [auto | discriminate].
Qed.

Lemma cache_get_removeOldest k e (c : list (string * CacheEntry)) :
  cache_get k (removeOldest c) = Some e -> cache_get k c = Some e.
Proof.
  unfold removeOldest. destruct (oldest_scan c).1 as [ko|]; [| auto].
  destruct (String.eqb ko ""); [auto | apply cache_get_delete].
Qed.

Lemma string_length_app a b :
  String.length (a +:+ b) = (String.length a + String.length b)%nat.
Proof. induction a as [|c a IH]; simpl; [| rewrite IH]; reflexivity. Qed.

Lemma append_inj_r a b x : a +:+ x = b +:+ x -> a = b.
Proof.
  revert b. induction a as [|c a IH]; intros [|c' b] H; simpl in *.
  - reflexivity.
  - exfalso. apply (f_equal String.length) in H. simpl in H.
    rewrite !string_length_app in H. simpl in H. lia.
  - exfalso. apply (f_equal String.length) in H. simpl in H.
    rewrite !string_length_app in H. simpl in H. lia.
  - injection H as -> H. f_equal. apply IH, H.
Qed.

(** ** Reading a store through the cache *)

(** The entry that [getAll] keeps for the store [name], when there is one,
    holds the records the store has now. *)
Definition cache_coherent (name : string) (s : State) : Prop :=
  forall e, cache_get (cacheKey_getAll name None None) (queryCache s) = Some e ->
            exists st, store_at name s = Some st /\ ce_data e = VArr (store_getAll st).

Lemma cache_coherent_empty name s : queryCache s = [] -> cache_coherent name s.
Proof. intros H e. rewrite H. discriminate. Qed.

(** The loader of [getAll] without index or range. *)
Definition read_all (storeName : string) : M (Val Rec) :=
  st <- objectStore storeName ;; ret (VArr (range_getAll None st)).

Lemma getAll_unfold storeName s :
  getAll storeName None None s
  = getOrFetch (cacheKey_getAll storeName None None) (read_all storeName) (defaultTTL s) s.
Proof. reflexivity. Qed.

Lemma read_all_run n s st :
  store_at n s = Some st -> read_all n s = (Ok (VArr (store_getAll st)), s).
Proof.
  intros H. unfold read_all, bind. rewrite (objectStore_run n s st H).
  rewrite range_getAll_all. reflexivity.
Qed.

Lemma read_all_state n s : (read_all n s).2 = s.
Proof.
  unfold read_all, objectStore, get_db, bind, ret, throw.
  destruct (db s) as [d|]; [| reflexivity].
  destruct (objectStores d !! n); reflexivity.
Qed.

(** With a coherent entry, or none, [getAll] returns the records of the store. *)
Lemma getAll_read n s st :
  store_at n s = Some st -> cache_coherent n s ->
  (getAll n None None s).1 = Ok (VArr (store_getAll st)).
Proof.
  intros Hst Hco. rewrite getAll_unfold. unfold getOrFetch, bind, gets.
  destruct (cache_get (cacheKey_getAll n None None) (queryCache s)) as [c|] eqn:Ec.
  - destruct (Hco c Ec) as (st' & Hst' & Hdata).
    rewrite Hst in Hst'. injection Hst' as <-.
    unfold Date_now. destruct (_ <? _).
    + simpl. rewrite Hdata. reflexivity.
    + rewrite getOrFetch_miss_result. rewrite (read_all_run n _ st); [reflexivity |].
      exact Hst.
  - rewrite getOrFetch_miss_result. rewrite (read_all_run n _ st Hst). reflexivity.
Qed.

(** Every binding of the cache after [getAll] was there before, or is the one
    just stored, holding the records of the store. *)
Lemma getAll_binding n s k e :
  cache_get k (queryCache (getAll n None None s).2) = Some e ->
  cache_get k (queryCache s) = Some e
  \/ (k = cacheKey_getAll n None None
      /\ exists st, store_at n s = Some st /\ ce_data e = VArr (store_getAll st)).
Proof.
  rewrite getAll_unfold.
  assert (Hmiss : forall s1, queryCache s1 = queryCache s -> db s1 = db s ->
    cache_get k (queryCache (getOrFetch_miss (cacheKey_getAll n None None)
                               (read_all n) s1).2) = Some e ->
    cache_get k (queryCache s) = Some e
    \/ (k = cacheKey_getAll n None None
        /\ exists st, store_at n s = Some st /\ ce_data e = VArr (store_getAll st))).
  { intros s1 Hc Hdb. destruct (store_at n s1) as [st|] eqn:Hst.
    - rewrite (getOrFetch_miss_cache _ _ s1 _ s1 (read_all_run n s1 st Hst)).
      rewrite cache_get_set.
      destruct (String.eqb_spec (cacheKey_getAll n None None) k) as [<-|_].
      + intros [= <-]. right. split; [reflexivity |]. exists st. split; [| reflexivity].
        unfold store_at in *. rewrite <- Hdb. exact Hst.
      + intros H. left. rewrite <- Hc.
        destruct (_ <=? _)%nat; [apply cache_get_removeOldest |]; exact H.
    - assert (E : exists e0, read_all n s1 = (Err e0, s1)).
      { unfold read_all, objectStore, get_db, bind, ret, throw. unfold store_at in Hst.
        destruct (db s1) as [d|]; [| eexists; reflexivity].
        rewrite Hst. eexists; reflexivity. }
      destruct E as [e0 E]. unfold getOrFetch_miss, bind. rewrite E. simpl.
      rewrite Hc. auto. }
  unfold getOrFetch, bind, gets.
  destruct (cache_get (cacheKey_getAll n None None) (queryCache s)) as [c|] eqn:Ec.
  - unfold Date_now. destruct (_ <? _).
    + simpl. auto.
    + apply Hmiss; reflexivity.
  - apply Hmiss; reflexivity.
Qed.

Lemma getAll_db n ix rg s : db (getAll n ix rg s).2 = db s.
Proof. apply (getAll_preserves db db_volatile). Qed.

Lemma getAll_pending n ix rg s : pending (getAll n ix rg s).2 = pending s.
Proof. apply (getAll_preserves pending pending_volatile). Qed.

Lemma getAll_store_at n ix rg m s : store_at m (getAll n ix rg s).2 = store_at m s.
Proof. apply (getAll_preserves (store_at m) (store_at_volatile m)). Qed.

Lemma getAll_coherent n m s :
  cache_coherent m s -> cache_coherent n s -> cache_coherent m (getAll n None None s).2.
Proof.
  intros Hm Hn e He. rewrite getAll_store_at.
  apply getAll_binding in He as [He | [Hk (st & Hst & Hdata)]].
  - apply Hm, He.
  - destruct (decide (m = n)) as [->|Hne].
    + exists st. auto.
    + (* another store under the same key: the entry was built from [n] *)
      exfalso. apply Hne.
      unfold cacheKey_getAll in Hk. simpl in Hk.
      apply (append_inj_r m n _ Hk).
Qed.

(** ** Writing a store *)

(** The state in which a write resolves: the store replaced, the cache
    invalidated for it, the audit append issued. *)
Definition committed (storeName : string) (st' : Store) (action : string)
    (details : Details) (s : State) : State :=
  (spawn_logAudit action details (invalidatePattern storeName (set_store storeName st' s)).2).2.

Lemma spawn_logAudit_run a d s : spawn_logAudit a d s = (Ok tt, (spawn_logAudit a d s).2).
Proof.
  pose proof (spawn_logAudit_ok a d s) as H.
  destruct (spawn_logAudit a d s) as [r s']. simpl in *. subst r. reflexivity.
Qed.

Lemma add_run n r s st k st' :
  store_at n s = Some st -> store_add r st = inr (k, st') ->
  add n r s = (Ok k, committed n st' "add" (DStoreId n (id_or_key r)) s).
Proof.
  intros Hst Hadd. unfold add, bind. rewrite (objectStore_run n s st Hst), Hadd.
  unfold put_store, invalidatePattern, modify, committed. simpl.
  rewrite spawn_logAudit_run. reflexivity.
Qed.

Lemma update_run n r s st k st' :
  store_at n s = Some st -> store_put r st = inr (k, st') ->
  update n r s = (Ok k, committed n st' "update" (DStoreId n (id_or_key r)) s).
Proof.
  intros Hst Hput. unfold update, bind. rewrite (objectStore_run n s st Hst), Hput.
  unfold put_store, invalidatePattern, modify, committed. simpl.
  rewrite spawn_logAudit_run. reflexivity.
Qed.

Lemma delete_run n k s st :
  store_at n s = Some st ->
  delete n (Some k) s
  = (Ok true, committed n (store_delete k st) "delete" (DStoreId n (Some k)) s).
Proof.
  intros Hst. unfold delete, bind. rewrite (objectStore_run n s st Hst).
  unfold put_store, invalidatePattern, modify, committed. simpl.
  rewrite spawn_logAudit_run. reflexivity.
Qed.

Lemma committed_store_eq n st' a d s :
  db s <> None -> store_at n (committed n st' a d s) = Some st'.
Proof.
  intros H. unfold committed.
  rewrite (spawn_logAudit_preserves _ (store_at_volatile n) (store_at_ignores_pending n)).
  simpl. apply (store_at_set_store_eq n st' s H).
Qed.

Lemma committed_store_ne n m st' a d s :
  m <> n -> store_at m (committed n st' a d s) = store_at m s.
Proof.
  intros H. unfold committed.
  rewrite (spawn_logAudit_preserves _ (store_at_volatile m) (store_at_ignores_pending m)).
  simpl. apply (store_at_set_store_ne n m st' s H).
Qed.

Lemma committed_queryCache n st' a d s :
  queryCache (committed n st' a d s)
  = filter (fun ke => includes n ke.1 = false) (queryCache s).
Proof.
  unfold committed. rewrite spawn_logAudit_queryCache. simpl.
  rewrite queryCache_set_store. reflexivity.
Qed.

Lemma committed_binding n st' a d s k e :
  cache_get k (queryCache (committed n st' a d s)) = Some e ->
  cache_get k (queryCache s) = Some e /\ includes n k = false.
Proof.
  rewrite committed_queryCache. intros H. split.
  - eapply cache_get_invalidate, H.
  - apply cache_get_Some in H. apply list_elem_of_filter in H as [H _]. exact H.
Qed.

(** A write to [n] leaves the cache coherent for every store. *)
Lemma committed_coherent n m st' a d s :
  db s <> None -> cache_coherent m s -> cache_coherent m (committed n st' a d s).
Proof.
  intros Hdb Hm e He. apply committed_binding in He as [He Hinc].
  destruct (decide (m = n)) as [->|Hne].
  - rewrite cacheKey_getAll_includes in Hinc. discriminate.
  - rewrite committed_store_ne by exact Hne. apply Hm, He.
Qed.

Lemma db_set_store n st s : db s <> None -> db (set_store n st s) <> None.
Proof. unfold set_store. destruct (db s) eqn:E; [simpl; discriminate | congruence]. Qed.

Lemma committed_db n st' a d s : db s <> None -> db (committed n st' a d s) <> None.
Proof.
  intros H. unfold committed.
  rewrite (spawn_logAudit_preserves _ db_volatile db_ignores_pending).
  simpl. apply db_set_store, H.
Qed.

(** ** C6: the integrity check *)

(** What one run does to a product record. *)
Definition repair (r : Rec) : Rec := if negative_stock r then clamp_stock r else r.

Lemma prop_path_clamp path r : prop_path path (clamp_stock r) = prop_path path r.
Proof. destruct r; reflexivity. Qed.

Lemma negative_stock_clamp r : negative_stock (clamp_stock r) = false.
Proof.
  destruct r as [p| | | |]; try reflexivity.
  unfold negative_stock. simpl. apply Z.ltb_ge. lia.
Qed.

Lemma negative_stock_repair r : negative_stock (repair r) = false.
Proof.
  unfold repair. destruct (negative_stock r) eqn:E; [apply negative_stock_clamp | exact E].
Qed.

Lemma records_bump_keyGen k st : records (bump_keyGen k st) = records st.
Proof. unfold bump_keyGen. destruct k; try reflexivity. destruct (_ && _); reflexivity. Qed.

Lemma keyPath_bump_keyGen k st : keyPath (bump_keyGen k st) = keyPath st.
Proof. unfold bump_keyGen. destruct k; try reflexivity. destruct (_ && _); reflexivity. Qed.

Lemma store_put_keyed r st k :
  prop_path (keyPath st) r = Some k ->
  exists st', store_put r st = inr (k, st')
              /\ records st' = <[k := r]> (records st)
              /\ keyPath st' = keyPath st.
Proof.
  intros H. unfold store_put, assign_key. rewrite H. eexists. split; [reflexivity |].
  simpl. rewrite records_bump_keyGen, keyPath_bump_keyGen. split; reflexivity.
Qed.

(** The repairs of the loop, as a change of the records. *)
Definition put_all (kp : string) (g : Rec -> Rec) (l : list Rec) (m : gmap Key Rec)
  : gmap Key Rec :=
  fold_left (fun m r => match prop_path kp r with
                        | Some k => <[k := g r]> m
                        | None => m
                        end) l m.

Lemma update_each n (g : Rec -> Rec) (l : list Rec) : forall s st,
  store_at n s = Some st ->
  (forall r, prop_path (keyPath st) (g r) = prop_path (keyPath st) r) ->
  (forall r, r ∈ l -> is_Some (prop_path (keyPath st) r)) ->
  exists s' st',
    for_each l (fun r => update n (g r) >> ret tt) s = (Ok tt, s')
    /\ store_at n s' = Some st'
    /\ keyPath st' = keyPath st
    /\ records st' = put_all (keyPath st) g l (records st)
    /\ (forall m, m <> n -> store_at m s' = store_at m s)
    /\ (forall m, cache_coherent m s -> cache_coherent m s')
    /\ (l = [] -> s' = s).
Proof.
  induction l as [|r l IH]; intros s st Hst Hg Hkeys.
  - exists s, st. simpl. repeat split; auto.
  - destruct (Hkeys r (list_elem_of_here _ _)) as [k Hk].
    destruct (store_put_keyed (g r) st k) as (st1 & Hput & Hrec & Hkp).
    { rewrite Hg. exact Hk. }
    pose proof (update_run n (g r) s st k st1 Hst Hput) as Hrun.
    set (s1 := committed n st1 "update" (DStoreId n (id_or_key (g r))) s) in *.
    assert (Hdb : db s <> None) by (eapply store_at_db, Hst).
    assert (Hst1 : store_at n s1 = Some st1) by (apply committed_store_eq, Hdb).
    destruct (IH s1 st1 Hst1) as (s' & st' & Hloop & Hst' & Hkp' & Hrec' & Hother & Hco & _).
    { intros r0. rewrite Hkp. apply Hg. }
    { intros r0 Hin. rewrite Hkp. apply Hkeys. right. exact Hin. }
    exists s', st'. split.
    { rewrite (for_each_cons_ok r l _ s s1); [exact Hloop |].
      unfold bind. rewrite Hrun. reflexivity. }
    split; [exact Hst' |]. split; [congruence |]. split.
    { rewrite Hrec', Hkp, Hrec. unfold put_all. simpl. rewrite Hk. reflexivity. }
    split.
    { intros m Hm. rewrite (Hother m Hm). apply committed_store_ne, Hm. }
    split; [| discriminate].
    intros m Hm. apply Hco. apply committed_coherent; assumption.
Qed.

(** The loop of repairs, record by record. *)
Lemma put_all_cons kp g r l (m : gmap Key Rec) :
  put_all kp g (r :: l) m
  = put_all kp g l (match prop_path kp r with Some k => <[k := g r]> m | None => m end).
Proof. reflexivity. Qed.

Lemma put_all_notin kp g l : forall (m : gmap Key Rec) k,
  (forall r, r ∈ l -> prop_path kp r <> Some k) ->
  put_all kp g l m !! k = m !! k.
Proof.
  induction l as [|r l IH]; intros m k H; [reflexivity |].
  rewrite put_all_cons.
  rewrite IH by (intros r' Hin; apply H; right; exact Hin).
  destruct (prop_path kp r) as [k'|] eqn:E; [| reflexivity].
  apply lookup_insert_ne. intros ->. apply (H r); [left | exact E].
Qed.

Lemma put_all_in kp g l : forall (m : gmap Key Rec) r k,
  NoDup (map (prop_path kp) l) -> r ∈ l -> prop_path kp r = Some k ->
  put_all kp g l m !! k = Some (g r).
Proof.
  induction l as [|r0 l IH]; intros m r k Hnd Hin Hk; [inversion Hin |].
  simpl in Hnd. apply NoDup_cons in Hnd as [Hnotin Hnd].
  rewrite put_all_cons.
  apply elem_of_cons in Hin as [->|Hin].
  - rewrite Hk. rewrite put_all_notin.
    + apply lookup_insert_eq.
    + intros r' Hin' E. apply Hnotin. rewrite Hk, <- E.
      apply list_elem_of_fmap. exists r'. split; [reflexivity | exact Hin'].
  - apply IH; assumption.
Qed.

Lemma NoDup_map_filter {A B} (f : A -> B) (P : A -> Prop) `{forall x, Decision (P x)}
    (l : list A) :
  NoDup (map f l) -> NoDup (map f (filter P l)).
Proof.
  intros Hnd. eapply (sublist_NoDup _ (map f l)); [exact Hnd |].
  apply (fmap_sublist f), sublist_filter.
Qed.

Lemma put_all_repair st :
  store_wf st ->
  put_all (keyPath st) clamp_stock
    (filter (fun p => negative_stock p = true) (store_getAll st)) (records st)
  = repair <$> records st.
Proof.
  intros Hwf. apply map_eq. intros k. rewrite lookup_fmap.
  destruct (records st !! k) as [r|] eqn:E; simpl.
  - unfold repair. destruct (negative_stock r) eqn:En.
    + apply put_all_in.
      * apply NoDup_map_filter, store_getAll_keys_nodup, Hwf.
      * apply list_elem_of_filter. split; [exact En |].
        apply store_getAll_elem. exists k. exact E.
      * apply Hwf, E.
    + rewrite put_all_notin; [exact E |].
      intros r' Hin Hk. apply list_elem_of_filter in Hin as [Hneg Hin].
      apply store_getAll_elem in Hin as [k' E'].
      pose proof (Hwf _ _ E') as Hk'. rewrite Hk in Hk'. injection Hk' as ->.
      rewrite E in E'. injection E' as ->. congruence.
  - rewrite put_all_notin; [exact E |].
    intros r' Hin Hk. apply list_elem_of_filter in Hin as [_ Hin].
    apply store_getAll_elem in Hin as [k' E'].
    pose proof (Hwf _ _ E') as Hk'. rewrite Hk in Hk'. injection Hk' as ->.
    congruence.
Qed.

Lemma both_ok {A B} (m1 : M A) (m2 : M B) s a s1 b s2 :
  m1 s = (Ok a, s1) -> m2 s1 = (Ok b, s2) -> both m1 m2 s = (Ok (a, b), s2).
Proof. intros H1 H2. unfold both. rewrite H1, H2. reflexivity. Qed.

Lemma logAudit_run a d s : logAudit a d s = (Ok tt, (logAudit a d s).2).
Proof.
  pose proof (logAudit_ok a d s) as H.
  destruct (logAudit a d s) as [r s']. simpl in *. subst r. reflexivity.
Qed.

Definition with_stock (z : Z) (p : Product) : Product :=
  {| p_id := p_id p; p_name := p_name p; p_category := p_category p; p_stock := z;
     p_sellingPrice := p_sellingPrice p; p_createdAt := p_createdAt p |}.

Definition sales_without_items (st : Store) : list Rec :=
  filter (fun r => without_items r = true) (store_getAll st).

Lemma push_issue_nil {A} (l : list A) text issues :
  push_issue l text issues = [] -> l = [] /\ issues = [].
Proof.
  destruct l; simpl; [auto |]. intros H. apply app_eq_nil in H as [_ H]. discriminate.
Qed.

Lemma push_issue_reports {A} (l : list A) text issues :
  l <> [] -> pretty (length l) +:+ text ∈ push_issue l text issues.
Proof.
  destruct l; [congruence |]. intros _. simpl. apply elem_of_app. right. left.
Qed.

Lemma push_issue_keeps {A} (l : list A) text issues x :
  x ∈ issues -> x ∈ push_issue l text issues.
Proof. destruct l; simpl; [auto |]. intros H. apply elem_of_app. left. exact H. Qed.


(** A product with stock -3 and a sale with an empty item list. *)
Definition integrity_example : State :=
  set_store SALES
    {| keyPath := "id"; autoIncrement := false; keyGen := 1;
       indexNames := ["date"; "attendant"; "total"; "paymentMethod"];
       records := {[ KNum 1 := RSale (mkSale 1 1000 "ana" "pix" 0 (Some [])) ]} |}
    (set_store PRODUCTS
       {| keyPath := "id"; autoIncrement := false; keyGen := 1;
          indexNames := ["category"; "stock"; "createdAt"];
          records := {[ KNum 7 := RProduct (mkProduct 7 "batom" "maquiagem" (-3) 20 0) ]} |}
       (initial_state true 0)).


(** ** C5: restoring a backup *)

Definition records_at (name : string) (s : State) : list Rec :=
  match store_at name s with
  | Some st => store_getAll st
  | None => []
  end.

(** The payload of the backup stored under the instant [t]. *)
Definition backup_data (t : Z) (s : State) : option SystemData :=
  match store_at BACKUPS s with
  | Some st => match store_get (KDate t) st with
               | Some r => prop_data r
               | None => None
               end
  | None => None
  end.

Definition lipstick : Rec := RProduct (mkProduct 7 "batom" "maquiagem" 3 20 0).

(** A backup is made of the empty database at instant 1000; a product is
    added; the backup is restored. *)
Definition restore_scenario (abort : bool) : Res bool * State :=
  let s0 := initial_state abort 1000 in
  let s1 := (createBackup "manual" None s0).2 in
  let s2 := (add PRODUCTS lipstick s1).2 in
  restoreBackup (KDate 1000) s2.

(** C5. At this input [restoreBackup] returns [true] and has made its
    [pre_restore] backup, which holds the product; but the restored payload
    has an empty product list, [saveSystemData] skips a collection whose
    list is empty, and the product store still holds the product: the store
    is not equal to the payload.  The same on both kinds of engine. *)
Theorem restore_is_not_full_replace (abort : bool) :
  let s' := (restore_scenario abort).2 in
  (restore_scenario abort).1 = Ok true
  /\ backup_data 1000 s'
     = Some {| sd_products := VArr []; sd_sales := VArr []; sd_settings := Some [] |}
  /\ records_at PRODUCTS s' = [lipstick]
  /\ map prop_type (records_at BACKUPS s') = [Some "manual"; Some "pre_restore"; Some "auto"]
  /\ (exists t v i, RBackup t "pre_restore"
                      {| sd_products := VArr [lipstick]; sd_sales := VArr [];
                         sd_settings := Some [] |} v i ∈ records_at BACKUPS s').
Proof.
  destruct abort.
  - vm_compute. repeat split. do 3 eexists. right. left.
  - vm_compute. repeat split. do 3 eexists. right. left.
Qed.

(** ** C7: archival *)

Definition old_sale : Rec :=
  RSale (mkSale 1 1000 "ana" "pix" 50 (Some [mkSaleItem 7 "batom" 1 50])).

(** Two years as 730 days, for the examples. *)
Definition minus_730_days (t : Z) : Z := t - 730 * 24 * 60 * 60 * 1000.

(** A database with one sale dated 1970.  [lastSave] and [lastSync] are the
    markers that [hasChangesSinceLastSync] compares; [backups] are the
    backups already stored. *)
Definition archive_scenario (abort : bool) (clk : nat -> Z)
    (lastSave lastSync_ : option Z) (backups : gmap Key Rec) : State :=
  let s0 := initial_state abort 0 in
  let s1 :=
    {| db := db s0; queryCache := []; maxSize := maxSize s0; defaultTTL := defaultTTL s0;
       lastSync := lastSync_; syncInProgress := false;
       localStorage :=
         {| ls_system_data := None; ls_migrated_date := None; ls_backup_data := None;
            ls_backup_latest := None; ls_last_save := lastSave |};
       externalLoginSystem := None; clock := clk; ticks := 0; pending := [] |} in
  let s2 :=
    set_store BACKUPS
      {| keyPath := "timestamp"; autoIncrement := false; keyGen := 1;
         indexNames := ["type"]; records := backups |} s1 in
  (add SALES old_sale s2).2.

Definition empty_backup (t : Z) : Rec :=
  RBackup t "manual"
    {| sd_products := VArr []; sd_sales := VArr []; sd_settings := Some [] |}
    dbVersion None.

(** C7. (1) The clock gives the same millisecond at every reading of one
    sync: the [archive] backup gets the timestamp of the [auto_sync] backup
    made just before, its [add] is rejected, [createBackup] returns [null],
    and [cleanupOldData] goes on to delete the sale; afterwards the sale is
    gone and there is no backup of type [archive].  (2) The same rejection
    when nothing changed since the last sync and an older backup already has
    the timestamp that the clock gives: afterwards the sale is in no backup
    at all.  (3) With a clock that ticks, the archive is made first. *)
Theorem archive_deletes_without_backup (abort : bool) :
  (let s := archive_scenario abort (fun _ => 1700000000000) None None ∅ in
   let s' := (sync minus_730_days s).2 in
   records_at SALES s = [old_sale]
   /\ records_at SALES s' = []
   /\ map prop_type (records_at BACKUPS s') = [Some "auto_sync"])
  /\ (let s := archive_scenario abort (fun _ => 1700000000000)
                 (Some 1600000000000) (Some 1650000000000)
                 {[ KDate 1700000000000 := empty_backup 1700000000000 ]} in
      let s' := (sync minus_730_days s).2 in
      records_at SALES s = [old_sale]
      /\ records_at SALES s' = []
      /\ records_at BACKUPS s' = [empty_backup 1700000000000])
  /\ (let s := archive_scenario abort (fun n => 1700000000000 + Z.of_nat n) None None ∅ in
      map prop_type (records_at BACKUPS (sync minus_730_days s).2)
      = [Some "auto_sync"; Some "archive"]).
Proof. destruct abort; vm_compute; repeat split. Qed.


(** ** C1: the migration merge *)

Lemma prop_path_id r : prop_path "id" r = prop_id r.
Proof. reflexivity. Qed.

Lemma bulk_issue_all st (items : list Rec) :
  (forall r, r ∈ items -> is_Some (prop_path (keyPath st) r)) ->
  bulk_issue st items = (items, true).
Proof.
  induction items as [|r items IH]; intros H; simpl; [reflexivity |].
  destruct (H r (list_elem_of_here _ _)) as [k Hk].
  unfold assign_key. rewrite Hk.
  rewrite IH by (intros r' Hin; apply H; right; exact Hin). reflexivity.
Qed.

Lemma store_add_fresh r st k :
  prop_path (keyPath st) r = Some k -> records st !! k = None ->
  exists st', store_add r st = inr (k, st')
              /\ records st' = <[k := r]> (records st)
              /\ keyPath st' = keyPath st.
Proof.
  intros Hk Hfresh. unfold store_add, assign_key. rewrite Hk, Hfresh.
  eexists. split; [reflexivity |]. simpl.
  rewrite records_bump_keyGen, keyPath_bump_keyGen. split; reflexivity.
Qed.

(** Records with distinct keys that the store does not have are all added. *)
Lemma bulk_run_fresh abort (items : list Rec) : forall st completed errors,
  (forall r, r ∈ items ->
     exists k, prop_path (keyPath st) r = Some k /\ records st !! k = None) ->
  NoDup (map (prop_path (keyPath st)) items) ->
  exists st',
    bulk_run abort items st completed errors
    = Some (st', (completed + length items)%nat, errors)
    /\ records st' = put_all (keyPath st) (fun r => r) items (records st)
    /\ keyPath st' = keyPath st.
Proof.
  induction items as [|r items IH]; intros st completed errors Hfresh Hnd.
  - exists st. simpl. rewrite Nat.add_0_r. auto.
  - destruct (Hfresh r (list_elem_of_here _ _)) as (k & Hk & Hnone).
    destruct (store_add_fresh r st k Hk Hnone) as (st1 & Hadd & Hrec & Hkp).
    simpl in Hnd. apply NoDup_cons in Hnd as [Hnotin Hnd].
    destruct (IH st1 (S completed) errors) as (st' & Hrun & Hrec' & Hkp').
    { intros r' Hin. destruct (Hfresh r' (list_elem_of_further _ _ _ Hin))
        as (k' & Hk' & Hnone').
      exists k'. rewrite Hkp. split; [exact Hk' |]. rewrite Hrec.
      rewrite lookup_insert_ne; [exact Hnone' |].
      intros <-. apply Hnotin. rewrite Hk, <- Hk'.
      apply list_elem_of_fmap. exists r'. split; [reflexivity | exact Hin]. }
    { rewrite Hkp. exact Hnd. }
    exists st'. simpl bulk_run. rewrite Hadd, Hrun. split.
    { replace (completed + length (r :: items))%nat
        with (S completed + length items)%nat by (simpl; lia). reflexivity. }
    split; [| congruence].
    rewrite Hrec', Hkp, Hrec, put_all_cons, Hk. reflexivity.
Qed.

(** The state in which [bulkAdd] resolves after its transaction completed. *)
Definition bulk_committed (storeName : string) (st' : Store) (s : State) : State :=
  (invalidatePattern storeName (set_store storeName st' s)).2.

Lemma bulkAdd_fresh n (items : list Rec) s st :
  store_at n s = Some st -> items <> [] ->
  (forall r, r ∈ items ->
     exists k, prop_path (keyPath st) r = Some k /\ records st !! k = None) ->
  NoDup (map (prop_path (keyPath st)) items) ->
  exists st',
    bulkAdd n (Some items) s = (Ok (length items), bulk_committed n st' s)
    /\ records st' = put_all (keyPath st) (fun r => r) items (records st)
    /\ keyPath st' = keyPath st.
Proof.
  intros Hst Hne Hfresh Hnd.
  destruct (bulk_run_fresh (match db s with Some d => abortOnError d | None => true end)
              items st 0 0 Hfresh Hnd) as (st' & Hrun & Hrec & Hkp).
  exists st'. split; [| split; assumption].
  unfold bulkAdd, bind, gets. pose proof Hst as Hst0.
  unfold store_at in Hst0. destruct (db s) as [d|] eqn:Ed; [| discriminate].
  destruct items as [|r0 items0]; [congruence |].
  rewrite (objectStore_run n s st Hst).
  rewrite bulk_issue_all.
  2:{ intros r Hin. destruct (Hfresh r Hin) as (k & Hk & _). eauto. }
  rewrite Hrun. reflexivity.
Qed.

Lemma bulk_committed_store_eq n st' s :
  db s <> None -> store_at n (bulk_committed n st' s) = Some st'.
Proof. intros H. unfold bulk_committed. simpl. apply (store_at_set_store_eq n st' s H). Qed.

Lemma bulk_committed_store_ne n m st' s :
  m <> n -> store_at m (bulk_committed n st' s) = store_at m s.
Proof. intros H. unfold bulk_committed. simpl. apply (store_at_set_store_ne n m st' s H). Qed.

Lemma bulk_committed_coherent n m st' s :
  cache_coherent m s -> cache_coherent m (bulk_committed n st' s).
Proof.
  intros Hm e He. unfold bulk_committed in He. simpl in He.
  rewrite queryCache_set_store in He.
  pose proof (cache_get_Some _ _ _ He) as Hin.
  apply list_elem_of_filter in Hin as [Hinc _]. simpl in Hinc.
  apply cache_get_invalidate in He.
  destruct (decide (m = n)) as [->|Hne].
  - rewrite cacheKey_getAll_includes in Hinc. discriminate.
  - rewrite (bulk_committed_store_ne n m st' s Hne). apply Hm, He.
Qed.

(** The legacy records as a map from their ids; of two records with one id
    the first counts. *)
Definition by_id (l : list Rec) : gmap Key Rec :=
  list_to_map (omap (fun r => match prop_id r with
                              | Some k => Some (k, r)
                              | None => None
                              end) l).

Lemma by_id_cons_Some r l k : prop_id r = Some k -> by_id (r :: l) = <[k := r]> (by_id l).
Proof. intros H. unfold by_id. simpl. rewrite H. reflexivity. Qed.

Lemma by_id_lookup_None l k :
  (forall r, r ∈ l -> prop_id r <> Some k) -> by_id l !! k = None.
Proof.
  induction l as [|r l IH]; intros H; [reflexivity |].
  destruct (prop_id r) as [k'|] eqn:E.
  - rewrite (by_id_cons_Some r l k' E). rewrite lookup_insert_ne.
    + apply IH. intros r' Hin. apply H. right. exact Hin.
    + intros ->. apply (H r); [left | exact E].
  - unfold by_id. simpl. rewrite E. apply IH. intros r' Hin. apply H. right. exact Hin.
Qed.

Lemma by_id_lookup_Some l r k :
  NoDup (map prop_id l) -> r ∈ l -> prop_id r = Some k -> by_id l !! k = Some r.
Proof.
  induction l as [|r0 l IH]; intros Hnd Hin Hk; [inversion Hin |].
  simpl in Hnd. apply NoDup_cons in Hnd as [Hnotin Hnd].
  apply elem_of_cons in Hin as [->|Hin].
  - rewrite (by_id_cons_Some _ _ _ Hk). apply lookup_insert_eq.
  - destruct (prop_id r0) as [k0|] eqn:E.
    + rewrite (by_id_cons_Some _ _ _ E). rewrite lookup_insert_ne; [apply IH; assumption |].
      intros ->. apply Hnotin. rewrite <- Hk.
      apply list_elem_of_fmap. exists r. split; [reflexivity | exact Hin].
    + unfold by_id. simpl. rewrite E. apply IH; assumption.
Qed.

(** The records that the merge selects, added to the store, give the union
    in which the store's own records win. *)
Lemma put_all_union st (legacy : list Rec) :
  store_wf st -> keyPath st = "id" ->
  (forall r, r ∈ legacy -> is_Some (prop_id r)) ->
  NoDup (map prop_id legacy) ->
  put_all "id" (fun r => r)
    (filter (fun p => prop_id p ∉ map prop_id (store_getAll st)) legacy) (records st)
  = records st ∪ by_id legacy.
Proof.
  intros Hwf Hkp Hids Hnd. apply map_eq. intros k.
  assert (Hex : forall r k', prop_id r = Some k' ->
            (prop_id r ∈ map prop_id (store_getAll st) <-> is_Some (records st !! k'))).
  { intros r k' Hr. rewrite Hr. split.
    - intros Hin. apply list_elem_of_fmap in Hin as [r' [Hr' Hin]].
      apply store_getAll_elem in Hin as [k'' Hk''].
      pose proof (Hwf _ _ Hk'') as Hp. rewrite Hkp, prop_path_id, <- Hr' in Hp.
      injection Hp as ->. eauto.
    - intros [r' Hr']. apply list_elem_of_fmap. exists r'. split.
      + pose proof (Hwf _ _ Hr') as Hp. rewrite Hkp, prop_path_id in Hp. congruence.
      + apply store_getAll_elem. eauto. }
  rewrite lookup_union.
  destruct (records st !! k) as [x|] eqn:E.
  - rewrite put_all_notin.
    + destruct (by_id legacy !! k); exact E.
    + intros r Hin Hk. apply list_elem_of_filter in Hin as [Hnot _].
      rewrite prop_path_id in Hk. apply Hnot. apply (Hex r k Hk). rewrite E. eauto.
  - destruct (by_id legacy !! k) as [r|] eqn:El.
    + assert (Hr : r ∈ legacy /\ prop_id r = Some k).
      { unfold by_id in El. apply elem_of_list_to_map_2 in El.
        apply list_elem_of_omap in El as [r' [Hin Hr']].
        destruct (prop_id r') as [k'|] eqn:E'; [| discriminate].
        injection Hr' as -> ->. auto. }
      destruct Hr as [Hin Hk].
      rewrite (put_all_in "id" (fun r => r) _ (records st) r k).
      * reflexivity.
      * apply NoDup_map_filter. exact Hnd.
      * apply list_elem_of_filter. split; [| exact Hin].
        intros Hc. apply (Hex r k Hk) in Hc. rewrite E in Hc. destruct Hc; discriminate.
      * rewrite prop_path_id. exact Hk.
    + rewrite put_all_notin; [exact E |].
      intros r Hin Hk. apply list_elem_of_filter in Hin as [_ Hin].
      rewrite prop_path_id in Hk.
      rewrite (by_id_lookup_Some legacy r k Hnd Hin Hk) in El. discriminate.
Qed.

Lemma by_id_keyed l k r : by_id l !! k = Some r -> r ∈ l /\ prop_id r = Some k.
Proof.
  intros El. unfold by_id in El. apply elem_of_list_to_map_2 in El.
  apply list_elem_of_omap in El as [r' [Hin Hr']].
  destruct (prop_id r') as [k'|] eqn:E'; [| discriminate].
  injection Hr' as -> ->. auto.
Qed.

Lemma getAll_coherent_ne n m s :
  m <> n -> cache_coherent m s -> cache_coherent m (getAll n None None s).2.
Proof.
  intros Hne Hm e He. rewrite getAll_store_at.
  apply getAll_binding in He as [He | [Hk _]].
  - apply Hm, He.
  - exfalso. apply Hne. unfold cacheKey_getAll in Hk. simpl in Hk.
    apply (append_inj_r m n _ Hk).
Qed.

(** One collection of the merge, for legacy records with distinct ids. *)
Lemma merge_collection_run n (legacy : list Rec) s st :
  store_at n s = Some st -> store_wf st -> keyPath st = "id" ->
  cache_coherent n s ->
  (forall r, r ∈ legacy -> is_Some (prop_id r)) ->
  NoDup (map prop_id legacy) ->
  exists s' st',
    merge_collection n (VArr legacy) s = (Ok tt, s')
    /\ store_at n s' = Some st'
    /\ records st' = records st ∪ by_id legacy
    /\ keyPath st' = "id"
    /\ store_wf st'
    /\ (forall m, m <> n -> store_at m s' = store_at m s)
    /\ (forall m, cache_coherent m s -> cache_coherent m s')
    /\ ((forall r, r ∈ legacy -> prop_id r ∈ map prop_id (store_getAll st)) -> db s' = db s).
Proof.
  intros Hst Hwf Hkp Hco Hids Hnd.
  assert (Hunion : put_all "id" (fun r => r)
            (filter (fun p => prop_id p ∉ map prop_id (store_getAll st)) legacy) (records st)
          = records st ∪ by_id legacy) by (apply put_all_union; assumption).
  destruct legacy as [|r0 legacy0].
  { exists s, st. simpl. split; [reflexivity |]. split; [exact Hst |].
    split; [symmetry; apply (right_id ∅ (∪)) |]. auto. }
  set (legacy := r0 :: legacy0) in *.
  destruct (getAll n None None s) as [r1 s1] eqn:E1.
  pose proof (getAll_read n s st Hst Hco) as R1. rewrite E1 in R1. simpl in R1. subst r1.
  assert (Hst1 : forall m, store_at m s1 = store_at m s).
  { intros m. pose proof (getAll_store_at n None None m s) as H. rewrite E1 in H. exact H. }
  assert (Hdb1 : db s1 = db s).
  { pose proof (getAll_db n None None s) as H. rewrite E1 in H. exact H. }
  assert (Hco1 : forall m, cache_coherent m s -> cache_coherent m s1).
  { intros m Hm. destruct (decide (m = n)) as [->|Hne].
    - pose proof (getAll_coherent n n s Hm Hm) as H. rewrite E1 in H. exact H.
    - pose proof (getAll_coherent_ne n m s Hne Hm) as H. rewrite E1 in H. exact H. }
  remember (filter (fun p => prop_id p ∉ map prop_id (store_getAll st)) legacy)
    as new eqn:Hnew.
  assert (Hrun : merge_collection n (VArr legacy) s
                 = match new with
                   | [] => (Ok tt, s1)
                   | _ => (bulkAdd n (Some new) >> ret tt) s1
                   end).
  { unfold merge_collection. unfold legacy at 1.
    change (nonempty_array (VArr (r0 :: legacy0))) with (Some (r0 :: legacy0)).
    cbv iota beta.
    rewrite (bind_ok _ _ s (VArr (store_getAll st)) s1 E1).
    unfold as_array. rewrite (bind_ok _ _ s1 (store_getAll st) s1 eq_refl).
    fold legacy. rewrite <- Hnew. destruct new; reflexivity. }
  destruct new as [|x new0].
  - exists s1, st. split; [exact Hrun |]. split; [rewrite Hst1; exact Hst |].
    split; [rewrite <- Hunion; reflexivity |]. split; [exact Hkp |]. split; [exact Hwf |].
    split; [intros m _; apply Hst1 |]. split; [exact Hco1 |]. intros _. exact Hdb1.
  - destruct (bulkAdd_fresh n (x :: new0) s1 st) as (st' & Hbulk & Hrec & Hkp').
    { rewrite Hst1. exact Hst. }
    { discriminate. }
    { intros r Hin. rewrite Hnew in Hin.
      apply list_elem_of_filter in Hin as [Hnot Hin].
      destruct (Hids r Hin) as [k Hk]. exists k. rewrite Hkp, prop_path_id.
      split; [exact Hk |].
      destruct (records st !! k) as [x'|] eqn:E; [| reflexivity].
      exfalso. apply Hnot. rewrite Hk. apply list_elem_of_fmap. exists x'. split.
      - pose proof (Hwf _ _ E) as Hp. rewrite Hkp, prop_path_id in Hp. congruence.
      - apply store_getAll_elem. eauto. }
    { rewrite Hkp, Hnew. apply (NoDup_map_filter (prop_path "id")). exact Hnd. }
    assert (Hdbs1 : db s1 <> None).
    { rewrite Hdb1. eapply store_at_db, Hst. }
    exists (bulk_committed n st' s1), st'. split.
    { rewrite Hrun. unfold bind. rewrite Hbulk. reflexivity. }
    split; [apply bulk_committed_store_eq, Hdbs1 |].
    split; [rewrite Hrec, Hkp; exact Hunion |]. split; [congruence |].
    split.
    { intros k r Hk. rewrite Hrec, Hkp, Hunion in Hk. rewrite Hkp', Hkp, prop_path_id.
      apply lookup_union_Some_raw in Hk as [Hk | [_ Hk]].
      - pose proof (Hwf _ _ Hk) as Hp. rewrite Hkp, prop_path_id in Hp. exact Hp.
      - apply by_id_keyed in Hk as [_ Hk]. exact Hk. }
    split.
    { intros m Hm. rewrite bulk_committed_store_ne by exact Hm. apply Hst1. }
    split.
    { intros m Hm. apply bulk_committed_coherent, Hco1, Hm. }
    intros Hall. exfalso.
    assert (Hx : x ∈ filter (fun p => prop_id p ∉ map prop_id (store_getAll st)) legacy).
    { rewrite <- Hnew. left. }
    apply list_elem_of_filter in Hx as [Hnot Hin]. apply Hnot, Hall, Hin.
Qed.

(** The two collections, one after the other. *)
Lemma mergeData_run (data : SystemData) (legacyP legacyS : list Rec) s stP stS :
  store_at PRODUCTS s = Some stP -> store_at SALES s = Some stS ->
  store_wf stP -> store_wf stS -> keyPath stP = "id" -> keyPath stS = "id" ->
  cache_coherent PRODUCTS s -> cache_coherent SALES s ->
  sd_products data = VArr legacyP -> sd_sales data = VArr legacyS ->
  (forall r, r ∈ legacyP ++ legacyS -> is_Some (prop_id r)) ->
  NoDup (map prop_id legacyP) -> NoDup (map prop_id legacyS) ->
  exists s' stP' stS',
    mergeData data s = (Ok tt, s')
    /\ store_at PRODUCTS s' = Some stP' /\ store_at SALES s' = Some stS'
    /\ records stP' = records stP ∪ by_id legacyP
    /\ records stS' = records stS ∪ by_id legacyS
    /\ store_wf stP' /\ store_wf stS' /\ keyPath stP' = "id" /\ keyPath stS' = "id"
    /\ cache_coherent PRODUCTS s' /\ cache_coherent SALES s'
    /\ ((forall r, r ∈ legacyP -> prop_id r ∈ map prop_id (store_getAll stP)) ->
        (forall r, r ∈ legacyS -> prop_id r ∈ map prop_id (store_getAll stS)) ->
        db s' = db s).
Proof.
  intros HP HS HwfP HwfS HkpP HkpS HcoP HcoS HdP HdS Hids HndP HndS.
  destruct (merge_collection_run PRODUCTS legacyP s stP HP HwfP HkpP HcoP)
    as (s1 & stP' & Hrun1 & HP1 & HrecP & HkpP' & HwfP' & Hother1 & Hco1 & Hsame1).
  { intros r Hin. apply Hids, elem_of_app. left. exact Hin. }
  { exact HndP. }
  assert (HS1 : store_at SALES s1 = Some stS) by (rewrite Hother1; [exact HS | discriminate]).
  destruct (merge_collection_run SALES legacyS s1 stS HS1 HwfS HkpS (Hco1 _ HcoS))
    as (s2 & stS' & Hrun2 & HS2 & HrecS & HkpS' & HwfS' & Hother2 & Hco2 & Hsame2).
  { intros r Hin. apply Hids, elem_of_app. right. exact Hin. }
  { exact HndS. }
  exists s2, stP', stS'. split.
  { unfold mergeData, try_catch. rewrite HdP, HdS.
    rewrite (bind_ok _ _ s tt s1 Hrun1), Hrun2. reflexivity. }
  split; [rewrite Hother2; [exact HP1 | discriminate] |].
  split; [exact HS2 |]. split; [exact HrecP |]. split; [exact HrecS |].
  split; [exact HwfP' |]. split; [exact HwfS' |]. split; [exact HkpP' |].
  split; [exact HkpS' |]. split; [apply Hco2, Hco1, HcoP |].
  split; [apply Hco2, Hco1, HcoS |].
  intros HallP HallS. rewrite (Hsame2 HallS). apply Hsame1, HallP.
Qed.

(** After the merge every legacy id is an id of the store. *)
Lemma merged_ids_present st st' (legacy : list Rec) :
  store_wf st' -> keyPath st' = "id" ->
  records st' = records st ∪ by_id legacy ->
  (forall r, r ∈ legacy -> is_Some (prop_id r)) ->
  forall r, r ∈ legacy -> prop_id r ∈ map prop_id (store_getAll st').
Proof.
  intros Hwf Hkp Hrec Hids r Hin. destruct (Hids r Hin) as [k Hk].
  assert (Hsome : is_Some (records st' !! k)).
  { rewrite Hrec, lookup_union. destruct (records st !! k) as [x|] eqn:E.
    - destruct (by_id legacy !! k); eauto.
    - destruct (by_id legacy !! k) as [y|] eqn:E'; [eauto |].
      exfalso. revert E'. clear -Hin Hk. induction legacy as [|r0 l IH]; [inversion Hin |].
      apply elem_of_cons in Hin as [->|Hin].
      + rewrite (by_id_cons_Some _ _ _ Hk), lookup_insert_eq. discriminate.
      + destruct (prop_id r0) as [k0|] eqn:E0.
        * rewrite (by_id_cons_Some _ _ _ E0).
          destruct (decide (k0 = k)) as [->|Hne];
            [rewrite lookup_insert_eq; discriminate | rewrite lookup_insert_ne by exact Hne].
          apply IH, Hin.
        * unfold by_id. simpl. rewrite E0. apply IH, Hin. }
  destruct Hsome as [x Hx]. rewrite Hk. apply list_elem_of_fmap. exists x. split.
  - pose proof (Hwf _ _ Hx) as Hp. rewrite Hkp, prop_path_id in Hp. congruence.
  - apply store_getAll_elem. eauto.
Qed.

(** ** What keeps the cache coherent *)

Definition keeps {A} (I : State -> Prop) (m : M A) : Prop :=
  forall s, I s -> I (m s).2.

Section Keeps.
Context (I : State -> Prop).

Lemma keeps_ret {A} (a : A) : keeps I (ret a).
Proof. intros s H. exact H. Qed.

Lemma keeps_throw {A} e : keeps I (@throw A e).
Proof. intros s H. exact H. Qed.

Lemma keeps_gets {A} (g : State -> A) : keeps I (gets g).
Proof. intros s H. exact H. Qed.

Lemma keeps_bind {A B} (m : M A) (k : A -> M B) :
  keeps I m -> (forall a, keeps I (k a)) -> keeps I (bind m k).
Proof.
  intros Hm Hk s H. unfold bind. specialize (Hm s H).
  destruct (m s) as [[a|e] s']; simpl in *; [apply Hk, Hm | exact Hm].
Qed.

Lemma keeps_try_catch {A} (m : M A) h :
  keeps I m -> (forall e, keeps I (h e)) -> keeps I (try_catch m h).
Proof.
  intros Hm Hh s H. unfold try_catch. specialize (Hm s H).
  destruct (m s) as [[a|e] s']; simpl in *; [exact Hm | apply Hh, Hm].
Qed.

Lemma keeps_both {A B} (m1 : M A) (m2 : M B) :
  keeps I m1 -> keeps I m2 -> keeps I (both m1 m2).
Proof.
  intros H1 H2 s H. unfold both. specialize (H1 s H).
  destruct (m1 s) as [r1 s1]. specialize (H2 s1 H1).
  destruct (m2 s1) as [r2 s2]. simpl in *. destruct r1, r2; exact H2.
Qed.

Lemma keeps_for_each {A} (l : list A) (g : A -> M unit) :
  (forall x, keeps I (g x)) -> keeps I (for_each l g).
Proof.
  intros Hg. induction l as [|x l IH]; simpl.
  - apply keeps_ret.
  - apply keeps_bind; [apply Hg | intros _; exact IH].
Qed.

Lemma keeps_modify g : (forall s, I s -> I (g s)) -> keeps I (modify g).
Proof. intros H s Hs. apply H, Hs. Qed.

End Keeps.

Create HintDb keeps.

Ltac keeps_step :=
  first
    [ assumption
    | solve [eauto 3 with keeps]
    | apply keeps_ret
    | apply keeps_throw
    | apply keeps_gets
    | apply keeps_bind; [| intros ?]
    | apply keeps_try_catch; [| intros ?]
    | apply keeps_both
    | apply keeps_for_each; intros ?
    | progress case_match ].

Ltac solve_keeps := repeat keeps_step.

Section Coherence.
Variable m : string.

Lemma Date_now_coherent : keeps (cache_coherent m) Date_now.
Proof. intros s H. exact H. Qed.

Lemma objectStore_coherent n : keeps (cache_coherent m) (objectStore n).
Proof.
  intros s H. unfold objectStore, get_db, bind, ret, throw.
  destruct (db s) as [d|]; [| exact H]. destruct (objectStores d !! n); exact H.
Qed.

Hint Resolve Date_now_coherent objectStore_coherent : keeps.

Lemma getStoreCount_coherent n : keeps (cache_coherent m) (getStoreCount n).
Proof. unfold getStoreCount. solve_keeps. Qed.

Lemma logAudit_entry_coherent a d : keeps (cache_coherent m) (logAudit_entry a d).
Proof. unfold logAudit_entry. solve_keeps. Qed.

Hint Resolve getStoreCount_coherent logAudit_entry_coherent : keeps.

Lemma spawn_logAudit_coherent a d : keeps (cache_coherent m) (spawn_logAudit a d).
Proof.
  unfold spawn_logAudit. solve_keeps.
Qed.

Lemma add_coherent n r : keeps (cache_coherent m) (add n r).
Proof.
  intros s H. unfold add, objectStore, get_db, bind, throw, ret.
  destruct (db s) as [d|] eqn:Ed; [| exact H].
  destruct (objectStores d !! n) as [st|] eqn:En; [| exact H].
  destruct (store_add r st) as [e|[k st']] eqn:Ea; [exact H |].
  assert (Hst : store_at n s = Some st) by (unfold store_at; rewrite Ed; exact En).
  pose proof (add_run n r s st k st' Hst Ea) as Hrun.
  unfold add, objectStore, get_db, bind, throw, ret in Hrun.
  rewrite Ed, En, Ea in Hrun. rewrite Hrun. simpl.
  apply committed_coherent; [congruence | exact H].
Qed.

Lemma delete_coherent n k : keeps (cache_coherent m) (delete n k).
Proof.
  intros s H. unfold delete, objectStore, get_db, bind, throw, ret.
  destruct (db s) as [d|] eqn:Ed; [| exact H].
  destruct (objectStores d !! n) as [st|] eqn:En; [| exact H].
  destruct k as [k|]; [| exact H].
  assert (Hst : store_at n s = Some st) by (unfold store_at; rewrite Ed; exact En).
  pose proof (delete_run n k s st Hst) as Hrun.
  unfold delete, objectStore, get_db, bind, throw, ret in Hrun.
  rewrite Ed, En in Hrun. rewrite Hrun. simpl.
  apply committed_coherent; [congruence | exact H].
Qed.

Hint Resolve add_coherent delete_coherent spawn_logAudit_coherent : keeps.

Lemma logAudit_coherent a d : keeps (cache_coherent m) (logAudit a d).
Proof. unfold logAudit. solve_keeps. Qed.

Hypothesis not_backups : m <> BACKUPS.

Lemma getAll_backups_coherent : keeps (cache_coherent m) (getAll BACKUPS None None).
Proof. intros s H. apply getAll_coherent_ne; assumption. Qed.

Hint Resolve getAll_backups_coherent logAudit_coherent : keeps.

Lemma as_array_coherent v : keeps (cache_coherent m) (as_array v).
Proof. unfold as_array. solve_keeps. Qed.

Hint Resolve as_array_coherent : keeps.

Lemma getBackups_coherent ty : keeps (cache_coherent m) (getBackups ty).
Proof. unfold getBackups. solve_keeps. Qed.

Hint Resolve getBackups_coherent : keeps.

Lemma getLastBackupDate_coherent : keeps (cache_coherent m) getLastBackupDate.
Proof. unfold getLastBackupDate. solve_keeps. Qed.

Hint Resolve getLastBackupDate_coherent : keeps.

Lemma getDatabaseInfo_coherent : keeps (cache_coherent m) getDatabaseInfo.
Proof. unfold getDatabaseInfo. solve_keeps. Qed.

Lemma cleanupOldBackups_coherent n : keeps (cache_coherent m) (cleanupOldBackups n).
Proof. unfold cleanupOldBackups. solve_keeps. Qed.

Hint Resolve getDatabaseInfo_coherent cleanupOldBackups_coherent : keeps.

(** A backup of data that the caller supplies. *)
Lemma createBackup_coherent ty data :
  keeps (cache_coherent m) (createBackup ty (Some data)).
Proof. unfold createBackup. solve_keeps. Qed.

End Coherence.

Lemma createBackup_run ty data s :
  exists timestamp, createBackup ty data s = (Ok timestamp, (createBackup ty data s).2).
Proof.
  unfold createBackup, try_catch.
  match goal with |- context [bind ?a ?b s] => destruct (bind a b s) as [[o|e] s'] end;
    eexists; reflexivity.
Qed.

Lemma getStoreCount_run n s st :
  store_at n s = Some st -> getStoreCount n s = (Ok (size (records st)), s).
Proof.
  intros H. unfold getStoreCount, bind. rewrite (objectStore_run n s st H). reflexivity.
Qed.

Lemma localStorage_volatile : Volatile localStorage.
Proof. split; reflexivity. Qed.

Lemma localStorage_ignores_pending : ignores_pending localStorage.
Proof. intros p s. reflexivity. Qed.

Lemma localStorage_ignores_store n : ignores_store localStorage n.
Proof. intros st s. unfold set_store. destruct (db s); reflexivity. Qed.

(** The migration on the merge path, for legacy records with distinct ids. *)
Lemma migrate_merge_run (data : SystemData) (legacyP legacyS : list Rec) s stP stS :
  ls_system_data (localStorage s) = Some (Some data) ->
  store_at PRODUCTS s = Some stP -> store_at SALES s = Some stS ->
  (0 < size (records stP))%nat \/ (0 < size (records stS))%nat ->
  store_wf stP -> store_wf stS -> keyPath stP = "id" -> keyPath stS = "id" ->
  cache_coherent PRODUCTS s -> cache_coherent SALES s ->
  sd_products data = VArr legacyP -> sd_sales data = VArr legacyS ->
  (forall r, r ∈ legacyP ++ legacyS -> is_Some (prop_id r)) ->
  NoDup (map prop_id legacyP) -> NoDup (map prop_id legacyS) ->
  exists s' stP' stS',
    migrateFromLocalStorage s = (Ok tt, s')
    /\ ls_system_data (localStorage s') = Some (Some data)
    /\ store_at PRODUCTS s' = Some stP' /\ store_at SALES s' = Some stS'
    /\ records stP' = records stP ∪ by_id legacyP
    /\ records stS' = records stS ∪ by_id legacyS
    /\ store_wf stP' /\ store_wf stS' /\ keyPath stP' = "id" /\ keyPath stS' = "id"
    /\ cache_coherent PRODUCTS s' /\ cache_coherent SALES s'
    /\ ((forall r, r ∈ legacyP -> prop_id r ∈ map prop_id (store_getAll stP)) ->
        (forall r, r ∈ legacyS -> prop_id r ∈ map prop_id (store_getAll stS)) ->
        stP' = stP /\ stS' = stS).
Proof.
  intros Hls HP HS Hsize HwfP HwfS HkpP HkpS HcoP HcoS HdP HdS Hids HndP HndS.
  set (start := DMigrationStart (length_or_0 (sd_products data))
                  (length_or_0 (sd_sales data))).
  set (sa := (logAudit "migration_start" start s).2).
  assert (Hfa : forall n, n <> AUDIT_LOG -> store_at n sa = store_at n s).
  { intros n Hn. apply (logAudit_preserves _ (store_at_volatile n)
                          (store_at_ignores_pending n)).
    apply store_at_ignores_store, Hn. }
  assert (HPa : store_at PRODUCTS sa = Some stP) by (rewrite Hfa; [exact HP | discriminate]).
  assert (HSa : store_at SALES sa = Some stS) by (rewrite Hfa; [exact HS | discriminate]).
  destruct (mergeData_run data legacyP legacyS sa stP stS HPa HSa HwfP HwfS HkpP HkpS)
    as (sb & stP' & stS' & Hmerge & HPb & HSb & HrecP & HrecS & HwfP' & HwfS'
        & HkpP' & HkpS' & HcoPb & HcoSb & Hsame); try assumption.
  { apply logAudit_coherent, HcoP. }
  { apply logAudit_coherent, HcoS. }
  destruct (createBackup_run "migration" (Some data) sb) as [ts Hbackup].
  set (sc := (createBackup "migration" (Some data) sb).2) in *.
  assert (Hfc : forall n, n <> BACKUPS -> store_at n sc = store_at n sb).
  { intros n Hn. apply (createBackup_preserves _ (store_at_volatile n)
                          (store_at_ignores_pending n)).
    apply store_at_ignores_store, Hn. }
  set (done := DMigrationComplete (length_or_0 (sd_products data))
                 (length_or_0 (sd_sales data))).
  set (ls' := fun s0 : State =>
         set_localStorage
           {| ls_system_data := ls_system_data (localStorage s0);
              ls_migrated_date := Some (clock sc (ticks sc));
              ls_backup_data := Some (Some data);
              ls_backup_latest := ls_backup_latest (localStorage s0);
              ls_last_save := ls_last_save (localStorage s0) |} s0).
  set (sd := (logAudit "migration_complete" done
                (ls' (set_ticks (S (ticks sc)) sc))).2).
  assert (Hfd : forall n, n <> AUDIT_LOG -> store_at n sd = store_at n sc).
  { intros n Hn. unfold sd.
    rewrite (logAudit_preserves _ (store_at_volatile n) (store_at_ignores_pending n));
      [reflexivity | apply store_at_ignores_store, Hn]. }
  assert (Hcount : (0 <? size (records stP))%nat || (0 <? size (records stS))%nat = true).
  { apply orb_true_iff. destruct Hsize as [H|H]; [left | right]; apply Nat.ltb_lt, H. }
  assert (Hlsa : localStorage sa = localStorage s).
  { apply (logAudit_preserves _ localStorage_volatile localStorage_ignores_pending).
    apply localStorage_ignores_store. }
  assert (Hlsb : localStorage sb = localStorage sa).
  { pose proof (mergeData_preserves _ localStorage_volatile data
                  (localStorage_ignores_store _) (localStorage_ignores_store _) sa) as H.
    rewrite Hmerge in H. exact H. }
  assert (Hlsc : localStorage sc = localStorage sb).
  { apply (createBackup_preserves _ localStorage_volatile localStorage_ignores_pending).
    apply localStorage_ignores_store. }
  exists sd, stP', stS'. split.
  { unfold migrateFromLocalStorage, try_catch.
    unfold bind at 1. unfold gets at 1. rewrite Hls.
    unfold bind at 1. unfold ret at 1.
    fold start. rewrite (bind_ok _ _ s tt sa (logAudit_run _ _ _)).
    rewrite (bind_ok _ _ sa _ sa (getStoreCount_run PRODUCTS sa stP HPa)).
    rewrite (bind_ok _ _ sa _ sa (getStoreCount_run SALES sa stS HSa)).
    rewrite Hcount.
    rewrite (bind_ok _ _ sa tt sb Hmerge).
    rewrite (bind_ok _ _ sb ts sc Hbackup).
    rewrite (bind_ok _ _ sc (clock sc (ticks sc)) (set_ticks (S (ticks sc)) sc) eq_refl).
    unfold bind at 1. unfold modify at 1. cbv beta iota.
    rewrite logAudit_run. reflexivity. }
  split.
  { unfold sd.
    rewrite (logAudit_preserves _ localStorage_volatile localStorage_ignores_pending);
      [| apply localStorage_ignores_store].
    unfold ls'. simpl. rewrite Hlsc, Hlsb, Hlsa. exact Hls. }
  split; [rewrite Hfd, Hfc by discriminate; exact HPb |].
  split; [rewrite Hfd, Hfc by discriminate; exact HSb |].
  split; [exact HrecP |]. split; [exact HrecS |]. split; [exact HwfP' |].
  split; [exact HwfS' |]. split; [exact HkpP' |]. split; [exact HkpS' |].
  split.
  { unfold sd. apply logAudit_coherent. unfold ls'.
    apply (createBackup_coherent PRODUCTS ltac:(discriminate) "migration" data sb HcoPb). }
  split.
  { unfold sd. apply logAudit_coherent. unfold ls'.
    apply (createBackup_coherent SALES ltac:(discriminate) "migration" data sb HcoSb). }
  intros HallP HallS. specialize (Hsame HallP HallS).
  assert (HPeq : store_at PRODUCTS sb = store_at PRODUCTS sa)
    by (unfold store_at; rewrite Hsame; reflexivity).
  assert (HSeq : store_at SALES sb = store_at SALES sa)
    by (unfold store_at; rewrite Hsame; reflexivity).
  split; congruence.
Qed.

(** [new] is [old] with exactly the legacy records whose id [old] lacks. *)
Definition merged (old : gmap Key Rec) (legacy : list Rec) (new : gmap Key Rec) : Prop :=
  (forall k x, old !! k = Some x -> new !! k = Some x)
  /\ (forall r k, r ∈ legacy -> prop_id r = Some k -> old !! k = None -> new !! k = Some r)
  /\ (forall k x, new !! k = Some x ->
        old !! k = Some x \/ (x ∈ legacy /\ prop_id x = Some k /\ old !! k = None)).

Lemma union_merged old legacy :
  NoDup (map prop_id legacy) -> merged old legacy (old ∪ by_id legacy).
Proof.
  intros Hnd. split; [| split].
  - intros k x H. apply lookup_union_Some_raw. left. exact H.
  - intros r k Hin Hk Hnone. apply lookup_union_Some_raw. right.
    split; [exact Hnone | apply by_id_lookup_Some; assumption].
  - intros k x H. apply lookup_union_Some_raw in H as [H | [Hnone H]]; [left; exact H |].
    right. apply by_id_keyed in H as [Hin Hk]. auto.
Qed.

Lemma union_nonempty (old add : gmap Key Rec) :
  (0 < size old)%nat -> (0 < size (old ∪ add))%nat.
Proof.
  intros H. eapply Nat.lt_le_trans; [exact H |].
  apply map_subseteq_size, map_union_subseteq_l.
Qed.

(** C1 (amended). On the merge path (the product or the sale store is not
    empty), for a legacy payload whose records carry ids that are pairwise
    distinct within each collection, and a coherent cache: the migration
    leaves in each store its own records unchanged plus exactly the legacy
    records whose id it did not have (the union in which the store's record
    wins over a legacy record with the same id); no two records of a store
    share an id; and a second migration of the same payload leaves both
    stores exactly as the first left them. *)
Theorem migration_merge_idempotent (s : State) (data : SystemData)
    (legacyP legacyS : list Rec) (stP stS : Store) :
  ls_system_data (localStorage s) = Some (Some data) ->
  sd_products data = VArr legacyP -> sd_sales data = VArr legacyS ->
  (forall r, r ∈ legacyP ++ legacyS -> is_Some (prop_id r)) ->
  NoDup (map prop_id legacyP) -> NoDup (map prop_id legacyS) ->
  store_at PRODUCTS s = Some stP -> store_at SALES s = Some stS ->
  (0 < size (records stP))%nat \/ (0 < size (records stS))%nat ->
  store_wf stP -> store_wf stS -> keyPath stP = "id" -> keyPath stS = "id" ->
  cache_coherent PRODUCTS s -> cache_coherent SALES s ->
  exists s1 stP1 stS1,
    migrateFromLocalStorage s = (Ok tt, s1)
    /\ store_at PRODUCTS s1 = Some stP1 /\ store_at SALES s1 = Some stS1
    /\ records stP1 = records stP ∪ by_id legacyP
    /\ records stS1 = records stS ∪ by_id legacyS
    /\ merged (records stP) legacyP (records stP1)
    /\ merged (records stS) legacyS (records stS1)
    /\ NoDup (map prop_id (store_getAll stP1))
    /\ NoDup (map prop_id (store_getAll stS1))
    /\ exists s2,
         migrateFromLocalStorage s1 = (Ok tt, s2)
         /\ store_at PRODUCTS s2 = Some stP1 /\ store_at SALES s2 = Some stS1.
Proof.
  intros Hls HdP HdS Hids HndP HndS HP HS Hsize HwfP HwfS HkpP HkpS HcoP HcoS.
  destruct (migrate_merge_run data legacyP legacyS s stP stS)
    as (s1 & stP1 & stS1 & Hrun & Hls1 & HP1 & HS1 & HrecP & HrecS & HwfP1 & HwfS1
        & HkpP1 & HkpS1 & HcoP1 & HcoS1 & _); try assumption.
  exists s1, stP1, stS1. split; [exact Hrun |]. split; [exact HP1 |].
  split; [exact HS1 |]. split; [exact HrecP |]. split; [exact HrecS |].
  split; [rewrite HrecP; apply union_merged, HndP |].
  split; [rewrite HrecS; apply union_merged, HndS |].
  split.
  { pose proof (store_getAll_keys_nodup stP1 HwfP1) as H. rewrite HkpP1 in H. exact H. }
  split.
  { pose proof (store_getAll_keys_nodup stS1 HwfS1) as H. rewrite HkpS1 in H. exact H. }
  destruct (migrate_merge_run data legacyP legacyS s1 stP1 stS1)
    as (s2 & stP2 & stS2 & Hrun2 & _ & HP2 & HS2 & _ & _ & _ & _ & _ & _ & _ & _ & Hsame);
    try assumption.
  { destruct Hsize as [H|H]; [left; rewrite HrecP | right; rewrite HrecS];
      apply union_nonempty, H. }
  destruct Hsame as [-> ->].
  - apply (merged_ids_present stP stP1 legacyP HwfP1 HkpP1 HrecP).
    intros r Hin. apply Hids, elem_of_app. left. exact Hin.
  - apply (merged_ids_present stS stS1 legacyS HwfS1 HkpS1 HrecS).
    intros r Hin. apply Hids, elem_of_app. right. exact Hin.
  - exists s2. auto.
Qed.

(** A store with product 2; the legacy blob has products 1 and 2 and sale 9. *)
Definition legacy_product (id stock : Z) (name : string) : Rec :=
  RProduct (mkProduct id name "maquiagem" stock 20 0).

Definition legacy_sale : Rec :=
  RSale (mkSale 9 5000 "ana" "pix" 50 (Some [mkSaleItem 1 "batom" 1 50])).

Definition stored_products : Store :=
  {| keyPath := "id"; autoIncrement := false; keyGen := 1;
     indexNames := ["category"; "stock"; "createdAt"];
     records := {[ KNum 2 := legacy_product 2 4 "rimel" ]} |}.

Definition stored_sales : Store :=
  {| keyPath := "id"; autoIncrement := false; keyGen := 1;
     indexNames := ["date"; "attendant"; "total"; "paymentMethod"];
     records := ∅ |}.

Definition merge_state (abort : bool) (legacy : SystemData) : State :=
  set_localStorage
    {| ls_system_data := Some (Some legacy); ls_migrated_date := None;
       ls_backup_data := None; ls_backup_latest := None; ls_last_save := None |}
    (set_store PRODUCTS stored_products (initial_state abort 0)).

Definition legacy_products : list Rec :=
  [legacy_product 1 5 "batom"; legacy_product 2 9 "rimel antigo"].

Definition legacy_blob : SystemData :=
  {| sd_products := VArr legacy_products; sd_sales := VArr [legacy_sale];
     sd_settings := None |}.

Lemma migration_merge_idempotent_witness :
  exists s1 stP1 stS1,
    migrateFromLocalStorage (merge_state true legacy_blob) = (Ok tt, s1)
    /\ store_at PRODUCTS s1 = Some stP1 /\ store_at SALES s1 = Some stS1
    /\ records stP1 = records stored_products ∪ by_id legacy_products
    /\ records stS1 = records stored_sales ∪ by_id [legacy_sale]
    /\ merged (records stored_products) legacy_products (records stP1)
    /\ merged (records stored_sales) [legacy_sale] (records stS1)
    /\ NoDup (map prop_id (store_getAll stP1))
    /\ NoDup (map prop_id (store_getAll stS1))
    /\ exists s2,
         migrateFromLocalStorage s1 = (Ok tt, s2)
         /\ store_at PRODUCTS s2 = Some stP1 /\ store_at SALES s2 = Some stS1.
Proof.
  apply (migration_merge_idempotent (merge_state true legacy_blob) legacy_blob
           legacy_products [legacy_sale] stored_products stored_sales).
  - reflexivity.
  - reflexivity.
  - reflexivity.
  - intros r Hr. repeat (apply elem_of_cons in Hr as [-> | Hr]; [simpl; eauto |]).
    inversion Hr.
  - apply (bool_decide_unpack _). vm_compute. exact I.
  - apply (bool_decide_unpack _). vm_compute. exact I.
  - reflexivity.
  - reflexivity.
  - left. simpl. rewrite map_size_singleton. lia.
  - intros k r H. simpl in H. apply lookup_singleton_Some in H as [<- <-]. reflexivity.
  - intros k r H. simpl in H. rewrite lookup_empty in H. discriminate.
  - reflexivity.
  - reflexivity.
  - apply cache_coherent_empty. reflexivity.
  - apply cache_coherent_empty. reflexivity.
Defined.

(** Two legacy products share the id 1. *)
Definition legacy_blob_dup : SystemData :=
  {| sd_products := VArr [legacy_product 1 5 "batom"; legacy_product 1 6 "batom rosa"];
     sd_sales := VArr [legacy_sale]; sd_settings := None |}.

(** The claim as stated fails for a payload with a repeated id: the second
    record with id 1 is refused by the store, [bulkAdd] rejects, [mergeData]
    rethrows before it reaches the sales, and the legacy sale, whose id no
    stored sale has, is not inserted, on either kind of engine.  On an
    engine that keeps the other requests of the transaction, the second
    migration then does insert that sale. *)
Lemma migration_merge_counterexample :
  (let s := merge_state true legacy_blob_dup in
   let s1 := (migrateFromLocalStorage s).2 in
   records_at PRODUCTS s = [legacy_product 2 4 "rimel"]
   /\ (prop_id legacy_sale ∉ map prop_id (records_at SALES s))
   /\ (legacy_sale ∉ records_at SALES s1)
   /\ records_at PRODUCTS s1 = [legacy_product 2 4 "rimel"])
  /\ (let s := merge_state false legacy_blob_dup in
      let s1 := (migrateFromLocalStorage s).2 in
      let s2 := (migrateFromLocalStorage s1).2 in
      (prop_id legacy_sale ∉ map prop_id (records_at SALES s))
      /\ (legacy_sale ∉ records_at SALES s1)
      /\ records_at SALES s1 = []
      /\ records_at SALES s2 = [legacy_sale]).
Proof.
  split.
  - vm_compute. repeat split; try (intros H; inversion H).
  - vm_compute. repeat split; try (intros H; inversion H).
Qed.

(** ** C4: backup retention *)

(** *** The sort *)

Lemma insert_by_perm le x l : insert_by le x l ≡ₚ x :: l.
Proof.
  induction l as [|y l IH]; simpl; [reflexivity |].
  destruct (le x y); [reflexivity |].
  rewrite IH. apply Permutation_swap.
Qed.

Lemma sort_by_perm le l : sort_by le l ≡ₚ l.
Proof.
  induction l as [|x l IH]; simpl; [reflexivity |].
  rewrite insert_by_perm, IH. reflexivity.
Qed.

Lemma sort_by_length le l : length (sort_by le l) = length l.
Proof. apply Permutation_length, sort_by_perm. Qed.

(** The instant of a backup; the order of [oldest_first] on records that
    have one. *)
Definition instant (r : Rec) : Z := default 0 (prop_timestamp r).

Definition dated (l : list Rec) : Prop := forall r, r ∈ l -> is_Some (prop_timestamp r).

Lemma oldest_first_dated a b :
  is_Some (prop_timestamp a) -> is_Some (prop_timestamp b) ->
  oldest_first a b = (instant a <=? instant b).
Proof. intros [ta Ha] [tb Hb]. unfold oldest_first, instant. rewrite Ha, Hb. reflexivity. Qed.

Definition by_instant (a b : Rec) : Prop := instant a <= instant b.

Lemma insert_by_sorted x l :
  dated (x :: l) -> StronglySorted by_instant l ->
  StronglySorted by_instant (insert_by oldest_first x l).
Proof.
  intros Hd Hs. induction Hs as [|y l Hs IH Hy]; simpl.
  - repeat constructor.
  - rewrite oldest_first_dated; [| apply Hd; left | apply Hd; right; left].
    destruct (Z.leb_spec (instant x) (instant y)) as [Hle|Hlt].
    + constructor; [constructor; assumption |].
      constructor; [exact Hle |].
      eapply Forall_impl; [exact Hy |]. intros z Hz. unfold by_instant in *. lia.
    + constructor.
      * apply IH. intros r Hr. apply Hd.
        apply elem_of_cons in Hr as [->|Hr]; [left | right; right; exact Hr].
      * rewrite insert_by_perm. constructor; [unfold by_instant; lia | exact Hy].
Qed.

Lemma sort_by_sorted l : dated l -> StronglySorted by_instant (sort_by oldest_first l).
Proof.
  induction l as [|x l IH]; intros Hd; simpl; [constructor |].
  apply insert_by_sorted.
  - intros r Hr. apply Hd. apply elem_of_cons in Hr as [->|Hr]; [left | right].
    rewrite sort_by_perm in Hr. exact Hr.
  - apply IH. intros r Hr. apply Hd. right. exact Hr.
Qed.

(** In a sorted list without repeated instants, what comes first is older. *)
Lemma sorted_take_drop (l : list Rec) (n : nat) a b :
  StronglySorted by_instant l -> NoDup (map instant l) ->
  a ∈ take n l -> b ∈ drop n l -> instant a < instant b.
Proof.
  revert n. induction l as [|x l IH]; intros n Hs Hnd Ha Hb.
  - rewrite take_nil in Ha. inversion Ha.
  - apply StronglySorted_inv in Hs as [Hs Hx]. simpl in Hnd.
    apply NoDup_cons in Hnd as [Hnotin Hnd].
    destruct n as [|n]; [inversion Ha |]. simpl in Ha, Hb.
    apply elem_of_cons in Ha as [->|Ha].
    + assert (Hin : b ∈ l) by (eapply subseteq_drop, Hb).
      rewrite Forall_forall in Hx. specialize (Hx b Hin). unfold by_instant in Hx.
      assert (instant x <> instant b).
      { intros E. apply Hnotin. rewrite E. apply list_elem_of_fmap. eauto. }
      lia.
    + apply (IH n); assumption.
Qed.

(** *** The store of backups *)

(** A store keyed by timestamp that holds every record under its own. *)
Definition backup_store (st : Store) : Prop := keyPath st = "timestamp" /\ store_wf st.

Lemma prop_path_timestamp r : prop_path "timestamp" r = KDate <$> prop_timestamp r.
Proof. reflexivity. Qed.

Lemma backup_store_key st k r :
  backup_store st -> records st !! k = Some r ->
  prop_timestamp r = Some (instant r) /\ k = KDate (instant r).
Proof.
  intros [Hk Hwf] H. apply Hwf in H. rewrite Hk, prop_path_timestamp in H.
  unfold instant. destruct (prop_timestamp r); [| discriminate].
  injection H as <-. auto.
Qed.

Lemma backup_store_dated st : backup_store st -> dated (store_getAll st).
Proof.
  intros Hb r Hr. apply store_getAll_elem in Hr as [k Hr].
  destruct (backup_store_key st k r Hb Hr) as [-> _]. eauto.
Qed.

Lemma backup_store_nodup st : backup_store st -> NoDup (instant <$> store_getAll st).
Proof.
  intros Hb. pose proof (store_getAll_keys_nodup st (proj2 Hb)) as H.
  destruct Hb as [Hk Hwf]. rewrite Hk in H.
  assert (E : map (prop_path "timestamp") (store_getAll st)
              = (fun t => Some (KDate t)) <$> (instant <$> store_getAll st)).
  { rewrite <- list_fmap_compose. apply Forall_fmap_ext_1.
    apply Forall_forall. intros r Hr. simpl.
    apply store_getAll_elem in Hr as [k Hr].
    destruct (backup_store_key st k r (conj Hk Hwf) Hr) as [E _].
    rewrite prop_path_timestamp, E. reflexivity. }
  rewrite E in H. apply NoDup_fmap_1 in H. exact H.
Qed.

(** The store without the backups of [l]. *)
Definition remove_all (l : list Rec) (st : Store) : Store :=
  foldl (fun st r => store_delete (KDate (instant r)) st) st l.

Lemma remove_all_keyPath l st : keyPath (remove_all l st) = keyPath st.
Proof. revert st. induction l as [|r l IH]; intros st; [reflexivity |]. simpl. rewrite IH. reflexivity. Qed.

Lemma remove_all_lookup l st k :
  records (remove_all l st) !! k
  = if decide (k ∈ (fun r => KDate (instant r)) <$> l) then None else records st !! k.
Proof.
  revert st. induction l as [|r l IH]; intros st.
  - simpl. destruct (decide (k ∈ [])) as [H|_]; [inversion H | reflexivity].
  - simpl. rewrite IH. simpl.
    destruct (decide (k ∈ _ <$> l)) as [Hin|Hnin].
    + rewrite decide_True by (right; exact Hin). reflexivity.
    + destruct (decide (KDate (instant r) = k)) as [<-|Hne].
      * rewrite decide_True by left. apply lookup_delete_eq.
      * rewrite decide_False.
        -- apply lookup_delete_ne, Hne.
        -- intros H. apply elem_of_cons in H as [H|H]; [congruence | contradiction].
Qed.

Lemma remove_all_count l st :
  NoDup (instant <$> l) ->
  (forall r, r ∈ l -> is_Some (records st !! KDate (instant r))) ->
  store_count (remove_all l st) = (store_count st - length l)%nat.
Proof.
  revert st. induction l as [|r l IH]; intros st Hnd Hin.
  - simpl. lia.
  - simpl. rewrite fmap_cons in Hnd. apply NoDup_cons in Hnd as [Hr Hnd]. rewrite IH.
    + unfold store_count, store_delete. simpl.
      rewrite map_size_delete_Some by (apply Hin; left). lia.
    + exact Hnd.
    + intros r' Hr'. unfold store_delete. simpl. rewrite lookup_delete_ne.
      * apply Hin. right. exact Hr'.
      * intros [= E]. apply Hr. rewrite E. apply list_elem_of_fmap. eauto.
Qed.

(** What the retention policy leaves of a store: at most [n] backups, all
    of them from the store, each older one gone before a newer one. *)
Record retained (n : nat) (st st' : Store) : Prop := {
  retained_keyPath : keyPath st' = keyPath st;
  retained_count : store_count st' = min n (store_count st);
  retained_all : (store_count st <= n)%nat -> records st' = records st;
  retained_sub : forall k r, records st' !! k = Some r -> records st !! k = Some r;
  retained_newest : forall k r k' r',
    records st !! k = Some r -> records st' !! k = None ->
    records st' !! k' = Some r' -> instant r < instant r'
}.

Lemma retained_backup_store n st st' : backup_store st -> retained n st st' -> backup_store st'.
Proof.
  intros [Hk Hwf] H. split.
  - rewrite (retained_keyPath _ _ _ H). exact Hk.
  - intros k r Hr. rewrite (retained_keyPath _ _ _ H). apply Hwf, (retained_sub _ _ _ H), Hr.
Qed.

Lemma retained_refl n st : (store_count st <= n)%nat -> retained n st st.
Proof.
  intros Hle. split; [reflexivity | lia | reflexivity | auto |].
  intros k r k' r' H1 H2. congruence.
Qed.

(** The oldest backups beyond [n], as [cleanupOldBackups] picks them. *)
Definition toRemove (n : nat) (st : Store) : list Rec :=
  take (length (store_getAll st) - n) (sort_by oldest_first (store_getAll st)).

Lemma toRemove_retained n st :
  backup_store st -> (n < store_count st)%nat -> retained n st (remove_all (toRemove n st) st).
Proof.
  intros Hb Hn. unfold toRemove.
  set (L := store_getAll st). set (sorted := sort_by oldest_first L).
  assert (Hlen : length L = store_count st) by apply store_getAll_length.
  assert (Hperm : sorted ≡ₚ L) by apply sort_by_perm.
  assert (Hsorted : StronglySorted by_instant sorted)
    by (apply sort_by_sorted, backup_store_dated, Hb).
  assert (Hnd : NoDup (instant <$> sorted)).
  { rewrite Hperm. apply backup_store_nodup, Hb. }
  assert (Hinst : forall r, r ∈ sorted -> records st !! KDate (instant r) = Some r).
  { intros r Hr. rewrite Hperm in Hr. apply store_getAll_elem in Hr as [k Hr].
    destruct (backup_store_key st k r Hb Hr) as [_ ->]. exact Hr. }
  split.
  - apply remove_all_keyPath.
  - rewrite remove_all_count.
    + rewrite length_take, (Permutation_length Hperm), Hlen. lia.
    + rewrite fmap_take. apply (sublist_NoDup _ _ Hnd), sublist_take.
    + intros r Hr. apply subseteq_take in Hr. rewrite (Hinst r Hr). eauto.
  - lia.
  - intros k r. rewrite remove_all_lookup. destruct (decide _); [discriminate | auto].
  - intros k r k' r' Hk Hgone Hk'. rewrite remove_all_lookup in Hgone, Hk'.
    destruct (decide (k' ∈ _)) as [|Hkept]; [discriminate |].
    destruct (decide (k ∈ _)) as [Hrem|]; [| congruence].
    apply list_elem_of_fmap in Hrem as (a & -> & Ha).
    assert (Hr : r = a).
    { pose proof (Hinst a (subseteq_take _ _ _ Ha)). congruence. }
    subst a. apply (sorted_take_drop sorted (length L - n)); try assumption.
    assert (Hr' : r' ∈ sorted).
    { rewrite Hperm. apply store_getAll_elem. eauto. }
    rewrite <- (take_drop (length L - n) sorted) in Hr'.
    apply elem_of_app in Hr' as [Hr'|Hr']; [| exact Hr'].
    exfalso. apply Hkept. apply list_elem_of_fmap. exists r'. split; [| exact Hr'].
    destruct (backup_store_key st k' r' Hb Hk') as [_ ->]. reflexivity.
Qed.

(** *** [cleanupOldBackups] and [createBackup] on a state *)

(** After a write to a store the cache holds nothing of it. *)
Lemma committed_coherent_same n st' a d s : cache_coherent n (committed n st' a d s).
Proof.
  intros e He. apply committed_binding in He as [_ Hinc].
  rewrite cacheKey_getAll_includes in Hinc. discriminate.
Qed.

Lemma delete_each_run l : forall s st,
  store_at BACKUPS s = Some st -> dated l ->
  exists s',
    for_each l (fun backup => delete BACKUPS (KDate <$> prop_timestamp backup) >> ret tt) s
    = (Ok tt, s')
    /\ store_at BACKUPS s' = Some (remove_all l st).
Proof.
  induction l as [|r l IH]; intros s st Hst Hd.
  - exists s. split; [reflexivity | exact Hst].
  - destruct (Hd r) as [t Ht]; [left |].
    set (s1 := committed BACKUPS (store_delete (KDate t) st) "delete"
                 (DStoreId BACKUPS (Some (KDate t))) s).
    assert (Hrun : (delete BACKUPS (KDate <$> prop_timestamp r) >> ret tt) s = (Ok tt, s1)).
    { rewrite Ht. simpl. erewrite bind_ok by (apply delete_run, Hst). reflexivity. }
    rewrite (for_each_cons_ok r l _ s s1 Hrun).
    destruct (IH s1 (store_delete (KDate t) st)) as (s' & Hs' & Hst').
    + apply committed_store_eq. eapply store_at_db, Hst.
    + intros r' Hr'. apply Hd. right. exact Hr'.
    + exists s'. split; [exact Hs' |]. rewrite Hst'. simpl.
      unfold instant at 1. rewrite Ht. reflexivity.
Qed.

Lemma cleanupOldBackups_run n s st :
  store_at BACKUPS s = Some st -> backup_store st -> cache_coherent BACKUPS s ->
  exists s' st', cleanupOldBackups n s = (Ok tt, s')
    /\ store_at BACKUPS s' = Some st' /\ retained n st st'.
Proof.
  intros Hst Hb Hco. unfold cleanupOldBackups, try_catch.
  pose proof (getAll_read BACKUPS s st Hst Hco) as Hread.
  pose proof (getAll_store_at BACKUPS None None BACKUPS s) as Hst1.
  destruct (getAll BACKUPS None None s) as [v s1] eqn:Eg. simpl in Hread, Hst1. subst v.
  rewrite Hst in Hst1. erewrite bind_ok by exact Eg. cbv beta iota.
  destruct (n <? length (store_getAll st))%nat eqn:En.
  - apply Nat.ltb_lt in En. rewrite store_getAll_length in En.
    destruct (delete_each_run (toRemove n st) s1 st Hst1) as (s' & Hs' & Hst').
    { intros r Hr. apply subseteq_take in Hr. rewrite sort_by_perm in Hr.
      apply (backup_store_dated st Hb), Hr. }
    unfold toRemove in Hs'. rewrite Hs'. exists s', (remove_all (toRemove n st) st).
    split; [reflexivity |]. split; [exact Hst' |]. apply toRemove_retained; assumption.
  - apply Nat.ltb_ge in En. rewrite store_getAll_length in En.
    exists s1, st. split; [reflexivity |]. split; [exact Hst1 |]. apply retained_refl, En.
Qed.

Lemma getSystemData_ok s : exists d, getSystemData s = (Ok d, (getSystemData s).2).
Proof.
  unfold getSystemData, try_catch.
  match goal with |- context [bind ?a ?b s] => destruct (bind a b s) as [[o|e] s'] end.
  - eexists; reflexivity.
  - unfold getFallbackData, bind, gets, ret.
    destruct (ls_system_data (localStorage s')) as [[d|]|]; eexists; reflexivity.
Qed.

Lemma getDatabaseInfo_ok s : exists i, getDatabaseInfo s = (Ok i, (getDatabaseInfo s).2).
Proof.
  unfold getDatabaseInfo, try_catch.
  match goal with |- context [bind ?a ?b s] => destruct (bind a b s) as [[o|e] s'] end;
    eexists; reflexivity.
Qed.

(** The store with one more backup. *)
Definition with_backup (r : Rec) (st : Store) : Store :=
  set_records (<[KDate (instant r) := r]> (records st)) st.

Lemma store_add_backup st t ty d v i :
  keyPath st = "timestamp" ->
  store_add (RBackup t ty d v i) st
  = match records st !! KDate t with
    | Some _ => inl ConstraintError
    | None => inr (KDate t, with_backup (RBackup t ty d v i) st)
    end.
Proof. intros Hk. unfold store_add, assign_key. rewrite Hk. reflexivity. Qed.

Lemma with_backup_store r st :
  is_Some (prop_timestamp r) -> backup_store st -> backup_store (with_backup r st).
Proof.
  intros [t Ht] [Hk Hwf]. split; [exact Hk |].
  intros k r'. unfold with_backup. simpl. rewrite Hk, prop_path_timestamp.
  intros H. apply lookup_insert_Some in H as [[<- <-]|[_ H]].
  - unfold instant. rewrite Ht. reflexivity.
  - apply Hwf in H. rewrite Hk in H. exact H.
Qed.

(** One creation, in full: with a backup of the same instant in the store
    the call resolves to [null] and the store is as it was; otherwise it
    resolves to the instant read, and the store holds what the retention
    policy leaves of the store with the new backup. *)
Lemma createBackup_step ty data s st :
  store_at BACKUPS s = Some st -> backup_store st ->
  let t := clock s (ticks s) in
  let out := createBackup ty data s in
  match records st !! KDate t with
  | Some _ => out.1 = Ok None /\ store_at BACKUPS out.2 = Some st
  | None =>
      out.1 = Ok (Some t) /\
      exists d i st', store_at BACKUPS out.2 = Some st'
        /\ retained 30 (with_backup (RBackup t ty d dbVersion i) st) st'
  end.
Proof.
  intros Hst Hb t out.
  assert (Hout : out = createBackup ty data s) by reflexivity. clearbody out.
  unfold createBackup, try_catch in Hout.
  unfold bind at 1 in Hout. unfold Date_now at 1 in Hout. fold t in Hout.
  set (s1 := set_ticks (S (ticks s)) s) in Hout.
  assert (Hst1 : store_at BACKUPS s1 = Some st) by exact Hst.
  set (getData := match data with Some data0 => ret data0 | None => getSystemData end) in Hout.
  assert (Hdata : exists d s2, getData s1 = (Ok d, s2) /\ store_at BACKUPS s2 = Some st).
  { subst getData. destruct data as [d|].
    - exists d, s1. split; [reflexivity | exact Hst1].
    - destruct (getSystemData_ok s1) as [d Hd]. exists d, (getSystemData s1).2.
      split; [exact Hd |].
      rewrite (getSystemData_preserves _ (store_at_volatile BACKUPS)). exact Hst1. }
  destruct Hdata as (d & s2 & Hd & Hst2). erewrite bind_ok in Hout by exact Hd.
  destruct (getDatabaseInfo_ok s2) as [i Hi].
  assert (Hst3 : store_at BACKUPS (getDatabaseInfo s2).2 = Some st).
  { rewrite (getDatabaseInfo_preserves _ (store_at_volatile BACKUPS)). exact Hst2. }
  erewrite bind_ok in Hout by exact Hi. set (s3 := (getDatabaseInfo s2).2) in *.
  pose proof (store_add_backup st t ty d dbVersion i (proj1 Hb)) as Hadd.
  destruct (records st !! KDate t) as [r|] eqn:Ek.
  - assert (E : add BACKUPS (RBackup t ty d dbVersion i) s3 = (Err ConstraintError, s3)).
    { unfold add, bind. rewrite (objectStore_run BACKUPS s3 st Hst3), Hadd. reflexivity. }
    erewrite bind_err in Hout by exact E. subst out. simpl. auto.
  - erewrite bind_ok in Hout by (eapply add_run; [exact Hst3 | exact Hadd]).
    set (s4 := committed _ _ _ _ s3) in Hout.
    destruct (cleanupOldBackups_run 30 s4 (with_backup (RBackup t ty d dbVersion i) st))
      as (s5 & st' & Hc & Hst5 & Hret).
    + apply committed_store_eq. eapply store_at_db, Hst3.
    + apply with_backup_store; [simpl; eauto | exact Hb].
    + apply committed_coherent_same.
    + erewrite bind_ok in Hout by exact Hc. subst out. simpl. split; [reflexivity |].
      exists d, i, st'. auto.
Qed.

(** *** A run of creations *)

(** The calls of a client that creates backups one after the other, with
    what each call resolves to. *)
Fixpoint create_all (args : list (string * option SystemData)) : M (list (option Z)) :=
  match args with
  | [] => ret []
  | a :: args' =>
      t <- createBackup a.1 a.2 ;;
      ts <- create_all args' ;;
      ret (t :: ts)
  end.

(** The store holds a backup of the instant [t]. *)
Definition has (st : Store) (t : Z) : Prop := is_Some (records st !! KDate t).

(** What a run that created backups at the instants [ts] leaves of the
    store [st0]: at most [n] backups, each from [st0] or created in the run,
    and every backup that is gone is older than every backup that is there. *)
Record kept_newest (n : nat) (st0 : Store) (ts : list Z) (st : Store) : Prop := {
  kept_count : store_count st = min n (store_count st0 + length ts);
  kept_sub : forall k r, records st !! k = Some r ->
    records st0 !! k = Some r
    \/ exists t, t ∈ ts /\ k = KDate t /\ prop_timestamp r = Some t;
  kept_all : (store_count st0 + length ts <= n)%nat ->
    forall t, has st0 t \/ t ∈ ts -> has st t;
  kept_newer : forall t t', has st0 t \/ t ∈ ts -> ~ has st t -> has st t' -> t < t'
}.

(** Of two maps of the same size, if one has a key that the other has not,
    then the other has a key that the first has not. *)
Lemma evicted (m1 m2 : gmap Key Rec) y :
  (size m2 <= size m1)%nat -> is_Some (m2 !! y) -> m1 !! y = None ->
  exists c, is_Some (m1 !! c) /\ m2 !! c = None.
Proof.
  intros Hsize Hy Hny.
  destruct (set_choose_or_empty (dom m1 ∖ dom m2)) as [[c Hc]|Hempty].
  - apply elem_of_difference in Hc as [Hc1 Hc2]. exists c. split.
    + apply elem_of_dom, Hc1.
    + apply not_elem_of_dom, Hc2.
  - exfalso.
    assert (Hsub : dom m1 ∪ {[y]} ⊆ dom m2).
    { intros x Hx. apply elem_of_union in Hx as [Hx|Hx].
      - destruct (decide (x ∈ dom m2)) as [|Hn]; [assumption |].
        exfalso. apply (not_elem_of_empty (C:=gset Key) x). rewrite <- Hempty.
        apply elem_of_difference. auto.
      - apply elem_of_singleton in Hx as ->. apply elem_of_dom, Hy. }
    apply subseteq_size in Hsub.
    rewrite size_union, size_singleton, !size_dom in Hsub; [lia |].
    intros x Hx1 Hx2. apply elem_of_singleton in Hx2 as ->.
    apply not_elem_of_dom in Hny. contradiction.
Qed.

Lemma with_backup_count r st :
  records st !! KDate (instant r) = None ->
  store_count (with_backup r st) = S (store_count st).
Proof. intros H. unfold store_count, with_backup. simpl. apply map_size_insert_None, H. Qed.

Lemma backup_store_has st k r :
  backup_store st -> records st !! k = Some r -> k = KDate (instant r) /\ has st (instant r).
Proof.
  intros Hb H. destruct (backup_store_key st k r Hb H) as [_ ->].
  split; [reflexivity |]. unfold has. rewrite H. eauto.
Qed.

(** One creation and then a run make a run. *)
Lemma kept_newest_cons n st0 r t st1 ts st :
  backup_store st0 -> prop_timestamp r = Some t -> records st0 !! KDate t = None ->
  retained n (with_backup r st0) st1 -> backup_store st ->
  kept_newest n st1 ts st -> kept_newest n st0 (t :: ts) st.
Proof.
  intros Hb0 Hr Hfresh Hret Hb HK.
  assert (Hi : instant r = t) by (unfold instant; rewrite Hr; reflexivity).
  assert (HbA : backup_store (with_backup r st0)) by (apply with_backup_store; eauto).
  assert (Hb1 : backup_store st1) by (eapply retained_backup_store; eassumption).
  assert (HcA : store_count (with_backup r st0) = S (store_count st0)).
  { apply with_backup_count. rewrite Hi. exact Hfresh. }
  pose proof (retained_count _ _ _ Hret) as Hc1. rewrite HcA in Hc1.
  pose proof (kept_count _ _ _ _ HK) as Hc.
  split.
  - simpl length. lia.
  - intros k r' Hk. apply (kept_sub _ _ _ _ HK) in Hk as [Hk|(t' & Ht' & -> & Hr')].
    + apply (retained_sub _ _ _ Hret) in Hk. unfold with_backup in Hk. simpl in Hk.
      rewrite Hi in Hk. apply lookup_insert_Some in Hk as [[<- <-]|[_ Hk]].
      * right. exists t. split; [left | auto].
      * left. exact Hk.
    + right. exists t'. split; [right; exact Ht' | auto].
  - simpl length. intros Hle x Hx.
    assert (Hall : records st1 = records (with_backup r st0))
      by (apply (retained_all _ _ _ Hret); lia).
    apply (kept_all _ _ _ _ HK); [lia |].
    destruct (decide (x ∈ ts)) as [Hin|Hnin]; [right; exact Hin | left].
    unfold has. rewrite Hall. unfold with_backup. simpl. rewrite Hi.
    destruct (decide (x = t)) as [->|Hne]; [rewrite lookup_insert_eq; eauto |].
    rewrite lookup_insert_ne by congruence.
    destruct Hx as [Hx|Hx]; [exact Hx |].
    apply elem_of_cons in Hx as [Hx|Hx]; contradiction.
  - intros x y Hx Hnx Hy.
    destruct (records st1 !! KDate x) as [rx1|] eqn:Ex1.
    { apply (kept_newer _ _ _ _ HK x y); [left; unfold has; rewrite Ex1; eauto | assumption ..]. }
    destruct (decide (x ∈ ts)) as [Hin|Hnin].
    { apply (kept_newer _ _ _ _ HK x y); [right | ..]; assumption. }
    (* [x] went at the first creation *)
    assert (HxA : exists rx, records (with_backup r st0) !! KDate x = Some rx /\ instant rx = x).
    { unfold with_backup. simpl. rewrite Hi.
      destruct (decide (x = t)) as [->|Hne].
      - exists r. rewrite lookup_insert_eq. auto.
      - rewrite lookup_insert_ne by congruence.
        destruct Hx as [[rx Hx]|Hx].
        + exists rx. split; [exact Hx |].
          destruct (backup_store_key st0 _ rx Hb0 Hx) as [_ [= E]]. auto.
        + apply elem_of_cons in Hx as [Hx|Hx]; contradiction. }
    destruct HxA as (rx & HxA & <-).
    assert (Hfull : store_count st1 = n).
    { destruct (decide (S (store_count st0) <= n)%nat) as [Hle|Hgt]; [| lia].
      rewrite <- HcA in Hle. apply (retained_all _ _ _ Hret) in Hle.
      rewrite Hle in Ex1. congruence. }
    destruct Hy as [ry Hy].
    destruct (records st1 !! KDate y) as [ry1|] eqn:Ey1.
    + destruct (backup_store_key st1 _ ry1 Hb1 Ey1) as [_ [= E]]. rewrite E.
      apply (retained_newest _ _ _ Hret _ _ _ _ HxA Ex1 Ey1).
    + destruct (evicted (records st1) (records st) (KDate y)) as (c & [rc Hc1'] & Hc2).
      * unfold store_count in *. lia.
      * eauto.
      * exact Ey1.
      * destruct (backup_store_has st1 c rc Hb1 Hc1') as [-> Hhas].
        pose proof (retained_newest _ _ _ Hret _ _ _ _ HxA Ex1 Hc1') as H1.
        assert (H2 : instant rc < y).
        { apply (kept_newer _ _ _ _ HK); [left; exact Hhas | | unfold has; eauto].
          unfold has. rewrite Hc2. intros [? [=]]. }
        lia.
Qed.

Lemma create_all_cons a args s ts :
  (create_all (a :: args) s).1 = Ok (Some <$> ts) ->
  exists t ts', ts = t :: ts'
    /\ (createBackup a.1 a.2 s).1 = Ok (Some t)
    /\ (create_all args (createBackup a.1 a.2 s).2).1 = Ok (Some <$> ts')
    /\ (create_all (a :: args) s).2 = (create_all args (createBackup a.1 a.2 s).2).2.
Proof.
  simpl. unfold bind, ret.
  destruct (createBackup a.1 a.2 s) as [[o|e] s1]; [| discriminate]. simpl.
  destruct (create_all args s1) as [[l|e] s2]; [| discriminate]. simpl.
  intros [= H]. destruct ts as [|t ts']; [discriminate |].
  injection H as -> ->. exists t, ts'. auto.
Qed.

Lemma create_all_kept args : forall s st0 ts,
  store_at BACKUPS s = Some st0 -> backup_store st0 ->
  args <> [] \/ (store_count st0 <= 30)%nat ->
  (create_all args s).1 = Ok (Some <$> ts) ->
  exists st, store_at BACKUPS (create_all args s).2 = Some st
    /\ backup_store st /\ length ts = length args /\ kept_newest 30 st0 ts st.
Proof.
  induction args as [|a args IH]; intros s st0 ts Hst Hb Hne Hrun.
  - simpl in Hrun. injection Hrun as Hts. destruct ts; [| discriminate].
    destruct Hne as [Hne|Hle]; [congruence |].
    exists st0. split; [exact Hst |]. split; [exact Hb |]. split; [reflexivity |].
    split.
    + simpl length. lia.
    + auto.
    + intros _ t [H|H]; [exact H | inversion H].
    + intros t t' [H|H] Hn; [contradiction | inversion H].
  - apply create_all_cons in Hrun as (t & ts' & -> & H1 & Hrest & ->).
    pose proof (createBackup_step a.1 a.2 s st0 Hst Hb) as Hstep. simpl in Hstep.
    destruct (records st0 !! KDate (clock s (ticks s))) as [r0|] eqn:Efresh.
    { destruct Hstep as [Hnone _]. congruence. }
    destruct Hstep as (Hsome & d & i & st1 & Hst1 & Hret).
    rewrite Hsome in H1. injection H1 as <-.
    set (r := RBackup (clock s (ticks s)) a.1 d dbVersion i) in *.
    assert (Hb1 : backup_store st1).
    { eapply retained_backup_store; [| exact Hret].
      apply with_backup_store; [simpl; eauto | exact Hb]. }
    destruct (IH _ st1 ts' Hst1 Hb1) as (st & Hst' & Hb' & Hlen & HK).
    + right. rewrite (retained_count _ _ _ Hret). lia.
    + exact Hrest.
    + exists st. split; [exact Hst' |]. split; [exact Hb' |].
      split; [simpl; congruence |].
      eapply (kept_newest_cons 30 st0 r); try eassumption. reflexivity.
Qed.

(** C4. Backup retention. A run of calls of [createBackup] that all
    resolve to an instant, on a store of backups keyed by timestamp, leaves
    at most 30 backups: as many as there were plus one for each call, when
    that is no more than 30, and then none is gone; exactly 30 after [30 + 5]
    calls. Every backup left is one of the store before, as it was, or one
    created in the run; every backup that is gone, of the store before or
    created in the run, is older by timestamp than every backup left. *)
Theorem backup_retention (args : list (string * option SystemData)) (s : State)
    (st0 : Store) (ts : list Z) :
  store_at BACKUPS s = Some st0 -> backup_store st0 -> args <> [] ->
  (create_all args s).1 = Ok (Some <$> ts) ->
  exists st,
    store_at BACKUPS (create_all args s).2 = Some st
    /\ store_count st = min 30 (store_count st0 + length args)
    /\ (length args = (30 + 5)%nat -> store_count st = 30%nat)
    /\ ((store_count st0 + length args <= 30)%nat ->
        forall t, has st0 t \/ t ∈ ts -> has st t)
    /\ (forall k r, records st !! k = Some r ->
          records st0 !! k = Some r
          \/ exists t, t ∈ ts /\ k = KDate t /\ prop_timestamp r = Some t)
    /\ (forall t t', has st0 t \/ t ∈ ts -> ~ has st t -> has st t' -> t < t').
Proof.
  intros Hst Hb Hne Hrun.
  destruct (create_all_kept args s st0 ts Hst Hb (or_introl Hne) Hrun)
    as (st & Hst' & _ & Hlen & HK).
  exists st. split; [exact Hst' |].
  pose proof (kept_count _ _ _ _ HK) as Hc. rewrite Hlen in Hc.
  split; [exact Hc |]. split; [intros E; rewrite E in Hc; lia |].
  split; [rewrite <- Hlen; apply (kept_all _ _ _ _ HK) |].
  split; [apply (kept_sub _ _ _ _ HK) | apply (kept_newer _ _ _ _ HK)].
Qed.

(** A new database, and thirty-five manual backups of it in a row. *)
Definition no_backups : Store :=
  {| keyPath := "timestamp"; autoIncrement := false; keyGen := 1;
     indexNames := ["type"]; records := ∅ |}.

Definition thirty_five : list (string * option SystemData) :=
  replicate 35 ("manual", None).

Definition thirty_five_instants : list Z :=
  Eval vm_compute in
    match (create_all thirty_five (initial_state true 0)).1 with
    | Ok l => omap id l
    | Err _ => []
    end.

Lemma backup_retention_witness :
  exists st,
    store_at BACKUPS (create_all thirty_five (initial_state true 0)).2 = Some st
    /\ store_count st = min 30 (store_count no_backups + length thirty_five)
    /\ (length thirty_five = (30 + 5)%nat -> store_count st = 30%nat)
    /\ ((store_count no_backups + length thirty_five <= 30)%nat ->
        forall t, has no_backups t \/ t ∈ thirty_five_instants -> has st t)
    /\ (forall k r, records st !! k = Some r ->
          records no_backups !! k = Some r
          \/ exists t, t ∈ thirty_five_instants /\ k = KDate t /\ prop_timestamp r = Some t)
    /\ (forall t t', has no_backups t \/ t ∈ thirty_five_instants ->
          ~ has st t -> has st t' -> t < t').
Proof.
  apply (backup_retention thirty_five (initial_state true 0) no_backups thirty_five_instants).
  - reflexivity.
  - split; [reflexivity |]. intros k r H. simpl in H. rewrite lookup_empty in H. discriminate.
  - discriminate.
  - vm_compute. reflexivity.
Defined.

(** What is left are the last thirty of the thirty-five. *)
Example thirty_five_left :
  omap prop_timestamp
    match store_at BACKUPS (create_all thirty_five (initial_state true 0)).2 with
    | Some st => store_getAll st
    | None => []
    end
  = drop 5 thirty_five_instants.
Proof. vm_compute. reflexivity. Qed.

(** * More of [database.js] *)

(** ** Further queries of [DatabaseManager] *)

(** [log.action], [log.userId] *)
Definition prop_action (r : Rec) : option string :=
  match r with
  | RAudit a => Some (a_action a)
  | _ => None
  end.

Definition prop_userId (r : Rec) : option string :=
  match r with
  | RAudit a => Some (a_userId a)
  | _ => None
  end.

(** The [filters] argument of [getAuditLogs]: [None] for a missing property.
    A date is given as the ISO string of an instant. *)
Record AuditFilters := mkFilters {
  f_action : option string;
  f_userId : option string;
  f_startDate : option Z;
  f_endDate : option Z
}.

(** [if (filters.p) logs = logs.filter(log => log.p === filters.p)]: the empty
    string counts as no filter. *)
Definition filter_eq (prop : Rec -> option string) (wanted : option string)
    (logs : list Rec) : list Rec :=
  match wanted with
  | Some w => if String.eqb w "" then logs
              else filter (fun log => prop log = Some w) logs
  | None => logs
  end.

(** [new Date(log.timestamp) >= new Date(d)]; a missing timestamp gives an
    invalid date, for which the comparison is false. *)
Definition not_before (d : Z) (r : Rec) : bool :=
  match prop_timestamp r with
  | Some t => d <=? t
  | None => false
  end.

Definition not_after (d : Z) (r : Rec) : bool :=
  match prop_timestamp r with
  | Some t => t <=? d
  | None => false
  end.

Definition filter_date (test : Z -> Rec -> bool) (bound : option Z)
    (logs : list Rec) : list Rec :=
  match bound with
  | Some d => filter (fun log => test d log = true) logs
  | None => logs
  end.

Definition apply_filters (filters : AuditFilters) (logs : list Rec) : list Rec :=
  filter_date not_after (f_endDate filters)
    (filter_date not_before (f_startDate filters)
       (filter_eq prop_userId (f_userId filters)
          (filter_eq prop_action (f_action filters) logs))).

Definition getAuditLogs (limit : nat) (filters : AuditFilters) : M (list Rec) :=
  try_catch
    (v <- getAll AUDIT_LOG None None ;;
     logs <- as_array v ;;
     ret (take limit (sort_by newest_first (apply_filters filters logs))))
    (fun _ => ret []).

(** [p.stock < threshold]; false when the record has no stock. *)
Definition stock_below (threshold : Z) (r : Rec) : bool :=
  match prop_stock r with
  | Some z => z <? threshold
  | None => false
  end.

Definition getLowStockProducts (threshold : Z) : M (list Rec) :=
  try_catch
    (v <- getAll PRODUCTS None None ;;
     products <- as_array v ;;
     ret (filter (fun p => stock_below threshold p = true) products))
    (fun _ => ret []).

(** *** [getTopSellingProducts] *)

(** One value of the object [productSales]. *)
Record ProductSales := mkProductSales {
  ps_productId : Z;
  ps_name : string;
  ps_quantity : Z;
  ps_revenue : Z
}.

(** The body of the inner [forEach]: the entry of the product is made when
    the object has none, then its totals are raised.  The object is kept as
    the list of its properties in the order of their creation. *)
Fixpoint count_item (item : SaleItem) (productSales : list (Z * ProductSales))
  : list (Z * ProductSales) :=
  match productSales with
  | [] =>
      [(i_productId item,
        {| ps_productId := i_productId item; ps_name := i_name item;
           ps_quantity := 0 + i_quantity item;
           ps_revenue := 0 + i_quantity item * i_price item |})]
  | (k, e) :: rest =>
      if k =? i_productId item
      then (k, {| ps_productId := ps_productId e; ps_name := ps_name e;
                  ps_quantity := ps_quantity e + i_quantity item;
                  ps_revenue := ps_revenue e + i_quantity item * i_price item |}) :: rest
      else (k, e) :: count_item item rest
  end.

(** [sale.items]: [None] when the record has no such property. *)
Definition prop_items (r : Rec) : option (list SaleItem) :=
  match r with
  | RSale s => s_items s
  | _ => None
  end.

(** The outer [forEach]; [sale.items.forEach] throws on a sale without
    [items], which ends the loop. *)
Fixpoint count_sales (sales : list Rec) (productSales : list (Z * ProductSales))
  : option (list (Z * ProductSales)) :=
  match sales with
  | [] => Some productSales
  | sale :: sales' =>
      match prop_items sale with
      | None => None
      | Some items => count_sales sales' (fold_left (fun o item => count_item item o) items productSales)
      end
  end.

(** Stable insertion sort, for [Array.prototype.sort] on other arrays. *)
Fixpoint insert_with {A} (le : A -> A -> bool) (x : A) (l : list A) : list A :=
  match l with
  | [] => [x]
  | y :: l' => if le x y then x :: y :: l' else y :: insert_with le x l'
  end.

Definition sort_with {A} (le : A -> A -> bool) (l : list A) : list A :=
  foldr (insert_with le) [] l.

(** [Object.values]: the properties whose name is an array index (an integer
    from 0 to 2^32 - 2) come first, by ascending index, then the others in
    the order of their creation. *)
Definition is_index (k : Z) : bool := (0 <=? k) && (k <? 4294967295).

Definition Object_values {A} (o : list (Z * A)) : list A :=
  (sort_with (fun a b => a.1 <=? b.1) (filter (fun ke => is_index ke.1 = true) o)
   ++ filter (fun ke => is_index ke.1 = false) o).*2.

Section TopSelling.

(** [new Date(y, m, d)], [new Date(y, m, d - 7)] and [new Date(y, m - 1, d)]
    for the local date [y, m, d] of an instant: the host's calendar. *)
Variables startOfDay weekBefore monthBefore : Z -> Z.

Definition period_start (period : string) (now : Z) : Z :=
  if String.eqb period "today" then startOfDay now
  else if String.eqb period "week" then weekBefore now
  else if String.eqb period "month" then monthBefore now
  else 0.

(** [new Date(sale.date) >= startDate] *)
Definition dated_from (startDate : Z) (r : Rec) : bool :=
  match prop_date r with
  | Some d => startDate <=? d
  | None => false
  end.

Definition getTopSellingProducts (limit : nat) (period : string) : M (list ProductSales) :=
  try_catch
    (v <- getAll SALES None None ;;
     filteredSales <-
       (if String.eqb period "all" then ret v
        else
          now <- Date_now ;;
          sales <- as_array v ;;
          ret (VArr (filter (fun sale => dated_from (period_start period now) sale = true)
                       sales))) ;;
     filteredSales <- as_array filteredSales ;;
     match count_sales filteredSales [] with
     | None => throw TypeError
     | Some productSales =>
         ret (take limit
                (sort_with (fun a b => ps_quantity b <=? ps_quantity a)
                   (Object_values productSales)))
     end)
    (fun _ => ret []).

End TopSelling.

(** ** The periodic cleanup of [BackgroundSync] *)

Section Cleanup.

(** [d.setDate(d.getDate() - 90)]: the host's calendar, in local time. *)
Variable ninetyDaysBefore : Z -> Z.

Definition cleanup : M unit :=
  try_catch
    (clear >>
     now <- Date_now ;;
     oldLogs <- getAuditLogs 1000
                  {| f_action := None; f_userId := None; f_startDate := None;
                     f_endDate := Some (ninetyDaysBefore now) |} ;;
     for_each oldLogs (fun log => delete AUDIT_LOG (prop_id log) >> ret tt) >>
     checkDataIntegrity >>
     ret tt)
    (fun _ => ret tt).

End Cleanup.

(** * Further properties *)

(** ** Reading what was written *)

(** The record as the store keeps it: with the generated key written in,
    when the record brought none. *)
Definition as_stored (st : Store) (r : Rec) : Rec :=
  match prop_path (keyPath st) r with
  | Some _ => r
  | None => inject_key (keyGen st) r
  end.

Lemma assign_key_stored r st k r' st' :
  assign_key r st = Some (k, r', st') -> r' = as_stored st r /\ records st' = records st.
Proof.
  unfold assign_key, as_stored. destruct (prop_path (keyPath st) r) as [k0|].
  - intros [= <- <- <-]. split; [reflexivity | apply records_bump_keyGen].
  - destruct (autoIncrement st); [| discriminate]. intros [= <- <- <-]. auto.
Qed.

Lemma store_add_stored r st k st' :
  store_add r st = inr (k, st') ->
  records st !! k = None /\ records st' = <[k := as_stored st r]> (records st).
Proof.
  unfold store_add. destruct (assign_key r st) as [[[k0 r0] st0]|] eqn:E; [| discriminate].
  destruct (assign_key_stored _ _ _ _ _ E) as [-> Hrec].
  destruct (records st !! k0) eqn:Ek; [discriminate |].
  intros [= <- <-]. simpl. rewrite Hrec. auto.
Qed.

Lemma store_put_stored r st k st' :
  store_put r st = inr (k, st') -> records st' = <[k := as_stored st r]> (records st).
Proof.
  unfold store_put. destruct (assign_key r st) as [[[k0 r0] st0]|] eqn:E; [| discriminate].
  destruct (assign_key_stored _ _ _ _ _ E) as [-> Hrec].
  intros [= <- <-]. simpl. rewrite Hrec. reflexivity.
Qed.

(** [store.get] as a value. *)
Definition found (o : option Rec) : Val Rec :=
  match o with Some r => VObj r | None => VUndef end.

(** After a write to a store, [get] on that store reads the store. *)
Lemma get_committed n k st' a d s :
  db s <> None ->
  (get n k (committed n st' a d s)).1 = Ok (found (records st' !! k)).
Proof.
  intros Hdb. set (s' := committed n st' a d s).
  assert (Hc : cache_get (cacheKey_get n k) (queryCache s') = None).
  { apply (invalidated_get n); [| apply cacheKey_get_includes].
    intros k0 e0 Hin. subst s'. rewrite committed_queryCache in Hin.
    apply list_elem_of_filter in Hin as [H _]. exact H. }
  unfold get, bind, gets. rewrite (getOrFetch_uncached _ _ _ _ Hc), getOrFetch_miss_result.
  unfold bind. rewrite (objectStore_run n s' st'); [reflexivity |].
  apply committed_store_eq, Hdb.
Qed.

Lemma add_inv n r s k s' st :
  store_at n s = Some st -> add n r s = (Ok k, s') ->
  exists st', store_add r st = inr (k, st')
              /\ s' = committed n st' "add" (DStoreId n (id_or_key r)) s.
Proof.
  intros Hst H. destruct (store_add r st) as [e|[k1 st1]] eqn:E.
  - unfold add, bind in H. rewrite (objectStore_run n s st Hst), E in H. discriminate.
  - rewrite (add_run n r s st k1 st1 Hst E) in H. injection H as <- <-. eauto.
Qed.

Lemma update_inv n r s k s' st :
  store_at n s = Some st -> update n r s = (Ok k, s') ->
  exists st', store_put r st = inr (k, st')
              /\ s' = committed n st' "update" (DStoreId n (id_or_key r)) s.
Proof.
  intros Hst H. destruct (store_put r st) as [e|[k1 st1]] eqn:E.
  - unfold update, bind in H. rewrite (objectStore_run n s st Hst), E in H. discriminate.
  - rewrite (update_run n r s st k1 st1 Hst E) in H. injection H as <- <-. eauto.
Qed.


(** A new database: a product is added, read back, replaced, and deleted. *)
Definition no_products : Store :=
  {| keyPath := "id"; autoIncrement := false; keyGen := 1;
     indexNames := ["category"; "stock"; "createdAt"]; records := ∅ |}.


(** ** Writes that are refused *)

(** X2. A call of [add], [update], [delete], [clearStore] or [getStoreCount]
    that rejects leaves the state as it was: no store is changed, no cache
    entry is removed and no audit append is issued. *)
Theorem rejected_write_changes_nothing (n : string) (s : State) :
  (forall r e, (add n r s).1 = Err e -> (add n r s).2 = s)
  /\ (forall r e, (update n r s).1 = Err e -> (update n r s).2 = s)
  /\ (forall k e, (delete n k s).1 = Err e -> (delete n k s).2 = s)
  /\ (forall e, (clearStore n s).1 = Err e -> (clearStore n s).2 = s)
  /\ (forall e, (getStoreCount n s).1 = Err e -> (getStoreCount n s).2 = s).
Proof.
  repeat split.
  - intros r e. unfold add, objectStore, get_db, bind, throw, ret.
    destruct (db s) as [d|] eqn:Ed; [| reflexivity].
    destruct (objectStores d !! n) as [st|] eqn:En; [| reflexivity].
    destruct (store_add r st) as [e0|[k st']] eqn:Ea; [reflexivity |].
    simpl. rewrite spawn_logAudit_run. discriminate.
  - intros r e. unfold update, objectStore, get_db, bind, throw, ret.
    destruct (db s) as [d|] eqn:Ed; [| reflexivity].
    destruct (objectStores d !! n) as [st|] eqn:En; [| reflexivity].
    destruct (store_put r st) as [e0|[k st']] eqn:Ea; [reflexivity |].
    simpl. rewrite spawn_logAudit_run. discriminate.
  - intros k e. unfold delete, objectStore, get_db, bind, throw, ret.
    destruct (db s) as [d|] eqn:Ed; [| reflexivity].
    destruct (objectStores d !! n) as [st|] eqn:En; [| reflexivity].
    destruct k as [k|]; [| reflexivity].
    simpl. rewrite spawn_logAudit_run. discriminate.
  - intros e. unfold clearStore, objectStore, get_db, bind, throw, ret.
    destruct (db s) as [d|] eqn:Ed; [| reflexivity].
    destruct (objectStores d !! n) as [st|] eqn:En; [| reflexivity].
    discriminate.
  - intros e. unfold getStoreCount, objectStore, get_db, bind, throw, ret.
    destruct (db s) as [d|] eqn:Ed; [| reflexivity].
    destruct (objectStores d !! n) as [st|] eqn:En; [| reflexivity].
    discriminate.
Qed.

(** ** Without a database *)

Lemma objectStore_closed n s : db s = None -> objectStore n s = (Err NotInitialized, s).
Proof. intros H. unfold objectStore, get_db, bind. rewrite H. reflexivity. Qed.

Lemma getOrFetch_miss_err key fetch s e s1 :
  fetch s = (Err e, s1) -> getOrFetch_miss key fetch s = (Err e, s1).
Proof. intros H. unfold getOrFetch_miss. apply bind_err, H. Qed.

Lemma get_closed n k s :
  db s = None -> cache_get (cacheKey_get n k) (queryCache s) = None ->
  get n k s = (Err NotInitialized, s).
Proof.
  intros Hdb Hc. unfold get. unfold bind at 1, gets.
  rewrite (getOrFetch_uncached _ _ _ _ Hc). apply getOrFetch_miss_err.
  apply bind_err, objectStore_closed, Hdb.
Qed.

Lemma getAll_closed n ix rg s :
  db s = None -> cache_get (cacheKey_getAll n ix rg) (queryCache s) = None ->
  getAll n ix rg s = (Err NotInitialized, s).
Proof.
  intros Hdb Hc. unfold getAll. unfold bind at 1, gets.
  rewrite (getOrFetch_uncached _ _ _ _ Hc). apply getOrFetch_miss_err.
  apply bind_err, objectStore_closed, Hdb.
Qed.

Lemma getSystemData_closed s :
  db s = None -> queryCache s = [] -> getSystemData s = getFallbackData s.
Proof.
  intros Hdb Hc. unfold getSystemData, try_catch.
  assert (Hg : forall n, getAll n None None s = (Err NotInitialized, s)).
  { intros n. apply getAll_closed; [exact Hdb | rewrite Hc; reflexivity]. }
  unfold bind at 1. unfold both. rewrite !Hg. reflexivity.
Qed.

(** X3. While no database is open (before [init] has connected, or after
    [destroy]) and the cache is empty: the reads and writes of a store reject
    with 'Database não inicializada' and change nothing; [logAudit] and
    [bulkAdd] do nothing; [getDatabaseInfo] resolves to [null], [getBackups]
    to the empty list, [restoreBackup] to [false], [createBackup] to [null],
    and [checkDataIntegrity] to the one issue 'Erro na verificação'. *)
Theorem closed_database (s : State) :
  db s = None -> queryCache s = [] ->
  (forall n k, get n k s = (Err NotInitialized, s))
  /\ (forall n ix rg, getAll n ix rg s = (Err NotInitialized, s))
  /\ (forall n r, add n r s = (Err NotInitialized, s))
  /\ (forall n r, update n r s = (Err NotInitialized, s))
  /\ (forall n k, delete n k s = (Err NotInitialized, s))
  /\ (forall n, clearStore n s = (Err NotInitialized, s))
  /\ (forall n, getStoreCount n s = (Err NotInitialized, s))
  /\ error_message NotInitialized = "Database não inicializada"
  /\ (forall a d, logAudit a d s = (Ok tt, s))
  /\ (forall n items, bulkAdd n items s = (Ok 0%nat, s))
  /\ getDatabaseInfo s = (Ok None, s)
  /\ (forall ty, getBackups ty s = (Ok [], s))
  /\ (forall k, restoreBackup k s = (Ok false, s))
  /\ (forall ty data, (createBackup ty data s).1 = Ok None)
  /\ checkDataIntegrity s = (Ok ["Erro na verificação"], s).
Proof.
  intros Hdb Hc.
  assert (Hget : forall n k, get n k s = (Err NotInitialized, s)).
  { intros n k. apply get_closed; [exact Hdb | rewrite Hc; reflexivity]. }
  assert (Hall : forall n ix rg, getAll n ix rg s = (Err NotInitialized, s)).
  { intros n ix rg. apply getAll_closed; [exact Hdb | rewrite Hc; reflexivity]. }
  assert (Hos : forall n, objectStore n s = (Err NotInitialized, s))
    by (intros n; apply objectStore_closed, Hdb).
  split; [exact Hget |]. split; [exact Hall |].
  split; [intros n r; apply bind_err, Hos |].
  split; [intros n r; apply bind_err, Hos |].
  split; [intros n k; apply bind_err, Hos |].
  split; [intros n; apply bind_err, Hos |].
  split; [intros n; apply bind_err, Hos |].
  split; [reflexivity |].
  split.
  { intros a d. apply logAudit_unavailable. unfold store_at. rewrite Hdb. reflexivity. }
  split.
  { intros n items. unfold bulkAdd, bind, gets. rewrite Hdb. reflexivity. }
  split.
  { unfold getDatabaseInfo, try_catch, bind, gets. rewrite Hdb. reflexivity. }
  split.
  { intros ty. unfold getBackups, try_catch. rewrite (bind_err _ _ _ _ _ (Hall _ _ _)).
    reflexivity. }
  split.
  { intros k. unfold restoreBackup, try_catch. rewrite (bind_err _ _ _ _ _ (Hget _ _)).
    reflexivity. }
  split.
  { intros ty data. unfold createBackup, try_catch.
    match goal with |- context [bind ?a ?b s] => destruct (bind a b s) as [[o|e] s'] eqn:E end;
      [| reflexivity].
    exfalso. revert E. unfold bind at 1. unfold Date_now at 1.
    set (s1 := set_ticks _ s).
    assert (Hdb1 : db s1 = None) by exact Hdb.
    destruct data as [d|].
    - unfold bind at 1, ret at 1.
      destruct (getDatabaseInfo_ok s1) as [i Hi]. rewrite (bind_ok _ _ _ _ _ Hi).
      assert (Hdb2 : db (getDatabaseInfo s1).2 = None).
      { rewrite (getDatabaseInfo_preserves db db_volatile). exact Hdb1. }
      rewrite (bind_err _ _ _ NotInitialized (getDatabaseInfo s1).2); [discriminate |].
      apply bind_err, objectStore_closed, Hdb2.
    - destruct (getSystemData_ok s1) as [d Hd]. rewrite (bind_ok _ _ _ _ _ Hd).
      set (s2 := (getSystemData s1).2).
      assert (Hdb2 : db s2 = None).
      { subst s2. rewrite (getSystemData_preserves db db_volatile). exact Hdb1. }
      destruct (getDatabaseInfo_ok s2) as [i Hi]. rewrite (bind_ok _ _ _ _ _ Hi).
      assert (Hdb3 : db (getDatabaseInfo s2).2 = None).
      { rewrite (getDatabaseInfo_preserves db db_volatile). exact Hdb2. }
      rewrite (bind_err _ _ _ NotInitialized (getDatabaseInfo s2).2); [discriminate |].
      apply bind_err, objectStore_closed, Hdb3. }
  unfold checkDataIntegrity, try_catch. unfold bind at 1. unfold both.
  rewrite !Hall. reflexivity.
Qed.

Lemma closed_database_witness :
  get PRODUCTS (KNum 7) (set_db None (initial_state true 0))
  = (Err NotInitialized, set_db None (initial_state true 0)).
Proof.
  apply (proj1 (closed_database (set_db None (initial_state true 0)) eq_refl eq_refl)).
Defined.

(** What [saveToLocalStorageFallback] leaves of the local storage. *)
Definition with_system_data (data : option SystemData) (s : State) : State :=
  set_localStorage
    {| ls_system_data := Some data;
       ls_migrated_date := ls_migrated_date (localStorage s);
       ls_backup_data := ls_backup_data (localStorage s);
       ls_backup_latest := ls_backup_latest (localStorage s);
       ls_last_save := ls_last_save (localStorage s) |} s.

(** X4. While no database is open and the cache is empty, [saveSystemData]
    resolves to [true] having written the data under 'camarim-system-data'
    and nothing else, and [getSystemData] then resolves to that data; with
    nothing stored under that key, or a text that does not parse, it resolves
    to empty collections and the default settings. *)
Theorem fallback_round_trip (s : State) (data : SystemData) :
  db s = None -> queryCache s = [] ->
  saveSystemData (Some data) s = (Ok true, with_system_data (Some data) s)
  /\ getSystemData (with_system_data (Some data) s)
     = (Ok data, with_system_data (Some data) s)
  /\ (ls_system_data (localStorage s) = None
      \/ ls_system_data (localStorage s) = Some None ->
      getSystemData s
      = (Ok {| sd_products := VArr []; sd_sales := VArr [];
               sd_settings := Some getDefaultSettings |}, s)).
Proof.
  intros Hdb Hc. split; [| split].
  - unfold saveSystemData, try_catch. unfold bind at 1. unfold executeTransaction.
    unfold bind at 1. unfold get_db. rewrite Hdb. reflexivity.
  - rewrite getSystemData_closed by assumption. reflexivity.
  - intros H. rewrite getSystemData_closed by assumption.
    unfold getFallbackData, bind, gets. destruct H as [-> | ->]; reflexivity.
Qed.

Lemma fallback_round_trip_witness :
  let s := set_db None (initial_state true 0) in
  let data := {| sd_products := VArr [lipstick]; sd_sales := VArr [];
                 sd_settings := Some [("defaultTax", "6")] |} in
  saveSystemData (Some data) s = (Ok true, with_system_data (Some data) s)
  /\ getSystemData (with_system_data (Some data) s)
     = (Ok data, with_system_data (Some data) s)
  /\ (ls_system_data (localStorage s) = None
      \/ ls_system_data (localStorage s) = Some None ->
      getSystemData s
      = (Ok {| sd_products := VArr []; sd_sales := VArr [];
               sd_settings := Some getDefaultSettings |}, s)).
Proof.
  apply (fallback_round_trip (set_db None (initial_state true 0))); reflexivity.
Defined.

(** ** Backups *)

(** X5. Two backups cannot bear the same instant: when the store of backups
    already holds a backup of the instant that the clock reads, [createBackup]
    resolves to [null] and every store is as it was. *)
Theorem createBackup_same_instant (ty : string) (data : option SystemData)
    (s : State) (st : Store) :
  store_at BACKUPS s = Some st -> backup_store st ->
  is_Some (records st !! KDate (clock s (ticks s))) ->
  (createBackup ty data s).1 = Ok None
  /\ forall m, store_at m (createBackup ty data s).2 = store_at m s.
Proof.
  intros Hst Hb [r Hr].
  pose proof (createBackup_step ty data s st Hst Hb) as Hstep. simpl in Hstep.
  rewrite Hr in Hstep. destruct Hstep as [Hnone Hsame]. split; [exact Hnone |].
  intros m. destruct (decide (m = BACKUPS)) as [->|Hne].
  - rewrite Hsame, Hst. reflexivity.
  - apply (createBackup_preserves (store_at m) (store_at_volatile m)
             (store_at_ignores_pending m)).
    apply store_at_ignores_store. exact Hne.
Qed.

(** The clock stands still while a backup is made and another is asked for. *)
Definition one_backup : Store :=
  {| keyPath := "timestamp"; autoIncrement := false; keyGen := 1;
     indexNames := ["type"];
     records := {[ KDate 1700000000000 := empty_backup 1700000000000 ]} |}.

Definition still_clock : State :=
  archive_scenario true (fun _ => 1700000000000) None None (records one_backup).

Lemma one_backup_store : backup_store one_backup.
Proof.
  split; [reflexivity |]. intros k r H. simpl in H.
  apply lookup_singleton_Some in H as [<- <-]. reflexivity.
Qed.

Lemma createBackup_same_instant_witness :
  (createBackup "quick_sync" None still_clock).1 = Ok None
  /\ forall m, store_at m (createBackup "quick_sync" None still_clock).2
               = store_at m still_clock.
Proof.
  apply (createBackup_same_instant "quick_sync" None still_clock one_backup).
  - vm_compute. reflexivity.
  - exact one_backup_store.
  - vm_compute. eauto.
Defined.

(** X6. [restoreBackup] for an instant of which the store holds no backup,
    and the cache no reading, resolves to [false]; no [pre_restore] backup is
    made, and the stores, the local storage and the audit appends are as
    they were. *)
Theorem restoreBackup_not_found (k : Key) (s : State) (st : Store) :
  store_at BACKUPS s = Some st -> records st !! k = None ->
  cache_get (cacheKey_get BACKUPS k) (queryCache s) = None ->
  (restoreBackup k s).1 = Ok false
  /\ db (restoreBackup k s).2 = db s
  /\ localStorage (restoreBackup k s).2 = localStorage s
  /\ pending (restoreBackup k s).2 = pending s.
Proof.
  intros Hst Hk Hc.
  assert (Hget : (get BACKUPS k s).1 = Ok VUndef).
  { unfold get, bind, gets. rewrite (getOrFetch_uncached _ _ _ _ Hc), getOrFetch_miss_result.
    unfold bind. rewrite (objectStore_run BACKUPS s st Hst). unfold store_get.
    rewrite Hk. reflexivity. }
  assert (Hrun : restoreBackup k s = (Ok false, (get BACKUPS k s).2)).
  { unfold restoreBackup, try_catch. unfold bind at 1.
    destruct (get BACKUPS k s) as [r s1]. simpl in Hget. subst r. reflexivity. }
  rewrite Hrun. simpl. split; [reflexivity |]. split; [| split].
  - apply (get_preserves db db_volatile).
  - apply (get_preserves localStorage localStorage_volatile).
  - apply (get_preserves pending pending_volatile).
Qed.

Lemma restoreBackup_not_found_witness :
  (restoreBackup (KDate 5) (initial_state true 0)).1 = Ok false
  /\ db (restoreBackup (KDate 5) (initial_state true 0)).2 = db (initial_state true 0)
  /\ localStorage (restoreBackup (KDate 5) (initial_state true 0)).2
     = localStorage (initial_state true 0)
  /\ pending (restoreBackup (KDate 5) (initial_state true 0)).2
     = pending (initial_state true 0).
Proof.
  apply (restoreBackup_not_found (KDate 5) (initial_state true 0) no_backups);
    reflexivity.
Defined.

(** *** The list of backups *)

Definition newer_first (a b : Rec) : Prop := instant b <= instant a.

Lemma newest_first_dated a b :
  is_Some (prop_timestamp a) -> is_Some (prop_timestamp b) ->
  newest_first a b = (instant b <=? instant a).
Proof. intros [ta Ha] [tb Hb]. unfold newest_first, instant. rewrite Ha, Hb. reflexivity. Qed.

Lemma insert_by_newest x l :
  dated (x :: l) -> StronglySorted newer_first l ->
  StronglySorted newer_first (insert_by newest_first x l).
Proof.
  intros Hd Hs. induction Hs as [|y l Hs IH Hy]; simpl.
  - repeat constructor.
  - rewrite newest_first_dated; [| apply Hd; left | apply Hd; right; left].
    destruct (Z.leb_spec (instant y) (instant x)) as [Hle|Hlt].
    + constructor; [constructor; assumption |].
      constructor; [exact Hle |].
      eapply Forall_impl; [exact Hy |]. intros z Hz. unfold newer_first in *. lia.
    + constructor.
      * apply IH. intros r Hr. apply Hd.
        apply elem_of_cons in Hr as [->|Hr]; [left | right; right; exact Hr].
      * rewrite insert_by_perm. constructor; [unfold newer_first; lia | exact Hy].
Qed.

Lemma sort_by_newest l : dated l -> StronglySorted newer_first (sort_by newest_first l).
Proof.
  induction l as [|x l IH]; intros Hd; simpl; [constructor |].
  apply insert_by_newest.
  - intros r Hr. apply Hd. apply elem_of_cons in Hr as [->|Hr]; [left | right].
    rewrite sort_by_perm in Hr. exact Hr.
  - apply IH. intros r Hr. apply Hd. right. exact Hr.
Qed.

(** [if (type) backups = backups.filter(b => b.type === type)] as a test. *)
Definition of_type (type : option string) (r : Rec) : Prop :=
  match type with
  | Some ty => if String.eqb ty "" then True else prop_type r = Some ty
  | None => True
  end.

(** The backups that pass the test, as [getBackups] keeps them. *)
Definition typed (type : option string) (l : list Rec) : list Rec :=
  match type with
  | Some ty => if String.eqb ty "" then l else filter (fun b => prop_type b = Some ty) l
  | None => l
  end.

Lemma typed_elem ty l r : r ∈ typed ty l <-> r ∈ l /\ of_type ty r.
Proof.
  unfold typed, of_type. destruct ty as [ty|]; [| tauto].
  destruct (String.eqb ty ""); [tauto |]. rewrite list_elem_of_filter. tauto.
Qed.

Lemma typed_NoDup ty l : NoDup l -> NoDup (typed ty l).
Proof.
  intros H. unfold typed. destruct ty as [ty|]; [| exact H].
  destruct (String.eqb ty ""); [exact H | apply NoDup_filter, H].
Qed.

Lemma getBackups_run ty s st :
  store_at BACKUPS s = Some st -> cache_coherent BACKUPS s ->
  (getBackups ty s).1 = Ok (sort_by newest_first (typed ty (store_getAll st))).
Proof.
  intros Hst Hco. pose proof (getAll_read BACKUPS s st Hst Hco) as Hread.
  unfold getBackups, try_catch. unfold bind at 1.
  destruct (getAll BACKUPS None None s) as [v s1]. simpl in Hread. subst v.
  reflexivity.
Qed.

Lemma sorted_strict (l : list Rec) :
  StronglySorted newer_first l -> NoDup (instant <$> l) ->
  StronglySorted (fun a b => instant b < instant a) l.
Proof.
  induction 1 as [|x l Hs IH Hx]; intros Hnd; constructor.
  - apply IH. rewrite fmap_cons in Hnd. apply NoDup_cons in Hnd as [_ H]. exact H.
  - rewrite fmap_cons in Hnd. apply NoDup_cons in Hnd as [Hnotin _].
    rewrite Forall_forall in Hx |- *. intros y Hy.
    specialize (Hx y Hy). unfold newer_first in Hx.
    assert (instant y <> instant x).
    { intros E. apply Hnotin. rewrite <- E. apply list_elem_of_fmap. eauto. }
    lia.
Qed.

Lemma typed_instants ty st :
  backup_store st -> NoDup (instant <$> typed ty (store_getAll st)).
Proof.
  intros Hb. pose proof (backup_store_nodup st Hb) as H.
  unfold typed. destruct ty as [ty|]; [| exact H].
  destruct (String.eqb ty ""); [exact H |].
  apply (NoDup_map_filter instant _ _ H).
Qed.

(** X7. With the store of backups open and no stale reading of it in the
    cache, [getBackups] resolves to the stored backups, those of the given
    type when one is given, each once, from the newest to the oldest;
    [getLastBackupDate] resolves to [null] when the store is empty and
    otherwise to the greatest instant of a stored backup. *)
Theorem backups_newest_first (ty : option string) (s : State) (st : Store) :
  store_at BACKUPS s = Some st -> backup_store st -> cache_coherent BACKUPS s ->
  (exists l,
     (getBackups ty s).1 = Ok l
     /\ (forall r, r ∈ l <-> (exists k, records st !! k = Some r) /\ of_type ty r)
     /\ NoDup l
     /\ StronglySorted (fun a b => instant b < instant a) l)
  /\ (exists o,
        (getLastBackupDate s).1 = Ok o
        /\ (o = None <-> records st = ∅)
        /\ forall t, o = Some t -> has st t /\ forall t', has st t' -> t' <= t).
Proof.
  intros Hst Hb Hco.
  assert (Hlist : forall ty',
     (forall r, r ∈ sort_by newest_first (typed ty' (store_getAll st))
                <-> (exists k, records st !! k = Some r) /\ of_type ty' r)
     /\ NoDup (sort_by newest_first (typed ty' (store_getAll st)))
     /\ StronglySorted (fun a b => instant b < instant a)
          (sort_by newest_first (typed ty' (store_getAll st)))).
  { intros ty'. split; [| split].
    - intros r. rewrite sort_by_perm, typed_elem, store_getAll_elem. reflexivity.
    - rewrite sort_by_perm. apply typed_NoDup.
      eapply NoDup_fmap_1, backup_store_nodup, Hb.
    - apply sorted_strict.
      + apply sort_by_newest. intros r Hr. apply typed_elem in Hr as [Hr _].
        apply (backup_store_dated st Hb), Hr.
      + rewrite sort_by_perm. apply typed_instants, Hb. }
  split.
  - eexists. split; [apply (getBackups_run ty s st Hst Hco) | apply Hlist].
  - pose proof (getBackups_run None s st Hst Hco) as Hrun.
    destruct (Hlist None) as (Hin & _ & Hs).
    unfold getLastBackupDate, try_catch. unfold bind at 1.
    destruct (getBackups None s) as [r s1]. simpl in Hrun. subst r.
    unfold typed in Hin, Hs. unfold bind, ret. simpl.
    destruct (sort_by newest_first (store_getAll st)) as [|b l] eqn:El.
    + exists None. split; [reflexivity |]. split.
      * split; [intros _ | reflexivity]. apply map_empty. intros k.
        destruct (records st !! k) as [r|] eqn:Ek; [| reflexivity].
        exfalso. assert (H : r ∈ []) by (apply Hin; split; [eauto | exact I]).
        inversion H.
      * discriminate.
    + assert (Hb_in : b ∈ b :: l) by left.
      apply Hin in Hb_in as [[k Hk] _].
      destruct (backup_store_key st k b Hb Hk) as [Ets ->].
      exists (Some (instant b)). split; [simpl; rewrite Ets; reflexivity |]. split.
      * split; [discriminate |]. intros E. rewrite E in Hk. rewrite lookup_empty in Hk.
        discriminate.
      * intros t [= <-]. split; [unfold has; rewrite Hk; eauto |].
        intros t' [r' Hr'].
        assert (Hr_in : r' ∈ b :: l) by (apply Hin; split; [eauto | exact I]).
        destruct (backup_store_key st _ r' Hb Hr') as [_ [= E]].
        apply StronglySorted_inv in Hs as [_ Hall]. rewrite Forall_forall in Hall.
        apply elem_of_cons in Hr_in as [->|Hr_in]; [lia |].
        specialize (Hall r' Hr_in). lia.
Qed.

Lemma backups_newest_first_witness :
  (exists l,
     (getBackups (Some "manual") still_clock).1 = Ok l
     /\ (forall r, r ∈ l <->
           (exists k, records one_backup !! k = Some r) /\ of_type (Some "manual") r)
     /\ NoDup l
     /\ StronglySorted (fun a b => instant b < instant a) l)
  /\ (exists o,
        (getLastBackupDate still_clock).1 = Ok o
        /\ (o = None <-> records one_backup = ∅)
        /\ forall t, o = Some t ->
             has one_backup t /\ forall t', has one_backup t' -> t' <= t).
Proof.
  apply (backups_newest_first (Some "manual") still_clock one_backup).
  - vm_compute. reflexivity.
  - exact one_backup_store.
  - intros e He. vm_compute in He. discriminate.
Defined.

(** ** Queries *)

#[global] Instance entry_le_total : Total entry_le.
Proof.
  intros [a ra] [b rb]. unfold entry_le. simpl.
  destruct a as [x|x|x], b as [y|y|y]; simpl; auto;
    try (destruct (Z.leb_spec x y), (Z.leb_spec y x); auto; lia).
  apply String.leb_total.
Qed.

Lemma Sorted_weaken {A} (R R' : A -> A -> Prop) (l : list A) :
  (forall x y, x ∈ l -> y ∈ l -> R x y -> R' x y) -> Sorted R l -> Sorted R' l.
Proof.
  intros H Hs. induction Hs as [|x l Hs IH Hx]; constructor.
  - apply IH. intros a b Ha Hb. apply H; right; assumption.
  - destruct Hx as [|y l Hxy]; constructor. apply H; [left | right; left | exact Hxy].
Qed.

(** [sale.date] of a record that has one. *)
Definition date_of (r : Rec) : Z := default 0 (prop_date r).

Lemma prop_path_date r : prop_path "date" r = KDate <$> prop_date r.
Proof. reflexivity. Qed.

(** The reading of the index [date] between two instants. *)
Lemma index_date_elem a b st r :
  r ∈ index_getAll "date" (Some {| lower := KDate a; upper := KDate b |}) st
  <-> (exists k, records st !! k = Some r) /\ exists d, prop_date r = Some d /\ a <= d <= b.
Proof.
  unfold index_getAll. rewrite list_elem_of_fmap. split.
  - intros [[k r'] [-> Hin]]. rewrite merge_sort_Permutation in Hin.
    apply list_elem_of_omap in Hin as (r0 & Hr0 & Hf). simpl.
    rewrite prop_path_date in Hf. destruct (prop_date r0) as [d|] eqn:Ed; [| discriminate].
    simpl in Hf. destruct (_ && _) eqn:Er; [| discriminate]. injection Hf as <- <-.
    apply andb_true_iff in Er as [E1 E2]. apply Z.leb_le in E1, E2.
    split; [apply store_getAll_elem, Hr0 |]. exists d. auto.
  - intros [Hr (d & Ed & Ha & Hb)]. exists (KDate d, r). split; [reflexivity |].
    rewrite merge_sort_Permutation. apply list_elem_of_omap. exists r.
    split; [apply store_getAll_elem, Hr |].
    rewrite prop_path_date, Ed. simpl.
    assert (E : (a <=? d) && (d <=? b) = true).
    { apply andb_true_iff. split; apply Z.leb_le; assumption. }
    rewrite E. reflexivity.
Qed.

Lemma index_date_sorted rg st :
  StronglySorted (fun x y => date_of x <= date_of y) (index_getAll "date" rg st).
Proof.
  unfold index_getAll.
  set (L := omap _ (store_getAll st)).
  assert (HL : forall kr, kr ∈ merge_sort entry_le L -> kr.1 = KDate (date_of kr.2)).
  { intros [k r] Hin. rewrite merge_sort_Permutation in Hin. subst L.
    apply list_elem_of_omap in Hin as (r0 & _ & Hf).
    rewrite prop_path_date in Hf. unfold date_of.
    destruct (prop_date r0) as [d|] eqn:Ed; [| discriminate]. simpl in Hf.
    destruct (in_range rg (KDate d)); [| discriminate]. injection Hf as <- <-.
    simpl. rewrite Ed. reflexivity. }
  pose proof (Sorted_merge_sort entry_le L) as Hs.
  apply (Sorted_weaken _ (fun x y => date_of x.2 <= date_of y.2)) in Hs.
  - apply Sorted_StronglySorted in Hs; [| intros x y z; lia].
    apply (StronglySorted_fmap snd _ (fun x y => date_of x <= date_of y)) in Hs; auto.
  - intros x y Hx Hy Hle. unfold entry_le in Hle.
    rewrite (HL x Hx), (HL y Hy) in Hle. simpl in Hle. apply Z.leb_le, Hle.
Qed.


(** The store of sales of [integrity_example]. *)
Definition one_sale : Store :=
  {| keyPath := "id"; autoIncrement := false; keyGen := 1;
     indexNames := ["date"; "attendant"; "total"; "paymentMethod"];
     records := {[ KNum 1 := RSale (mkSale 1 1000 "ana" "pix" 0 (Some [])) ]} |}.


(** ** The size of the cache *)

(** The cache as a [Map] of at most [maxSize] entries: no key twice, no
    empty key, and room for one entry at least. *)
Record cache_bounded (max : nat) (s : State) : Prop := {
  bounded_max : maxSize s = max;
  bounded_room : (1 <= max)%nat;
  bounded_size : (length (queryCache s) <= max)%nat;
  bounded_keys : NoDup (queryCache s).*1;
  bounded_named : forall k, k ∈ (queryCache s).*1 -> k <> ""
}.

Lemma cache_bounded_same max s s' :
  queryCache s' = queryCache s -> maxSize s' = maxSize s ->
  cache_bounded max s -> cache_bounded max s'.
Proof. intros Hc Hm [H0 H1 H2 H3 H4]. split; rewrite ?Hc, ?Hm; assumption. Qed.

Lemma cache_bounded_sub max s c :
  c.*1 `sublist_of` (queryCache s).*1 ->
  cache_bounded max s -> cache_bounded max (set_queryCache c s).
Proof.
  intros Hsub [H0 H1 H2 H3 H4]. split; simpl.
  - exact H0.
  - exact H1.
  - apply sublist_length in Hsub. rewrite !length_fmap in Hsub. lia.
  - apply (sublist_NoDup _ _ H3 Hsub).
  - intros k Hk. apply H4. eapply elem_of_sublist; eassumption.
Qed.

Lemma cache_set_keys key e (c : list (string * CacheEntry)) :
  (cache_set key e c).*1 = if decide (key ∈ c.*1) then c.*1 else c.*1 ++ [key].
Proof.
  induction c as [|[k e'] c IH].
  - destruct (decide (key ∈ [])) as [H|_]; [inversion H | reflexivity].
  - simpl cache_set. destruct (String.eqb_spec k key) as [->|Hne];
      rewrite !fmap_cons; simpl fst.
    + rewrite decide_True by left. reflexivity.
    + rewrite IH. destruct (decide (key ∈ c.*1)) as [Hin|Hnin].
      * rewrite decide_True by (right; exact Hin). reflexivity.
      * rewrite decide_False; [reflexivity |].
        intros H. apply elem_of_cons in H as [H|H]; [congruence | contradiction].
Qed.

Lemma cache_delete_cons_ne k e ko (c : list (string * CacheEntry)) :
  k <> ko -> cache_delete ko ((k, e) :: c) = (k, e) :: cache_delete ko c.
Proof.
  intros H. unfold cache_delete. apply filter_cons_True. simpl.
  apply negb_true_iff, String.eqb_neq, H.
Qed.

Lemma cache_delete_cons_eq ko e (c : list (string * CacheEntry)) :
  cache_delete ko ((ko, e) :: c) = cache_delete ko c.
Proof.
  unfold cache_delete. apply filter_cons_False. simpl.
  rewrite String.eqb_refl. discriminate.
Qed.

Lemma cache_delete_absent ko (c : list (string * CacheEntry)) :
  ko ∉ c.*1 -> cache_delete ko c = c.
Proof.
  induction c as [|[k e] c IH]; intros H; [reflexivity |].
  rewrite fmap_cons in H. apply not_elem_of_cons in H as [Hne Hnin].
  rewrite cache_delete_cons_ne by (simpl in Hne; congruence). f_equal. apply IH, Hnin.
Qed.

Lemma cache_delete_length ko eo (c : list (string * CacheEntry)) :
  NoDup c.*1 -> (ko, eo) ∈ c -> S (length (cache_delete ko c)) = length c.
Proof.
  induction c as [|[k e] c IH]; intros Hnd Hin; [inversion Hin |].
  rewrite fmap_cons in Hnd. apply NoDup_cons in Hnd as [Hnotin Hnd]. simpl in Hnotin.
  destruct (decide (k = ko)) as [->|Hne].
  - rewrite cache_delete_cons_eq, cache_delete_absent by exact Hnotin. reflexivity.
  - rewrite cache_delete_cons_ne by exact Hne. simpl. f_equal. apply IH; [exact Hnd |].
    apply elem_of_cons in Hin as [[= -> ->]|Hin]; [congruence | exact Hin].
Qed.

Lemma cache_delete_sublist ko (c : list (string * CacheEntry)) :
  (cache_delete ko c).*1 `sublist_of` c.*1.
Proof. unfold cache_delete. apply fmap_sublist, sublist_filter. Qed.

Lemma removeOldest_sublist (c : list (string * CacheEntry)) :
  (removeOldest c).*1 `sublist_of` c.*1.
Proof.
  unfold removeOldest. destruct (oldest_scan c).1 as [k|]; [| reflexivity].
  destruct (String.eqb k ""); [reflexivity | apply cache_delete_sublist].
Qed.

Lemma removeOldest_length (c : list (string * CacheEntry)) :
  c <> [] -> NoDup c.*1 -> (forall k, k ∈ c.*1 -> k <> "") ->
  S (length (removeOldest c)) = length c.
Proof.
  intros Hne Hnd Hnamed. destruct (oldest_scan_min c Hne) as (ko & eo & Hko & Hin & _).
  unfold removeOldest. rewrite Hko.
  assert (Hk : ko <> "").
  { apply Hnamed. apply list_elem_of_fmap. exists (ko, eo). auto. }
  destruct (String.eqb_spec ko ""); [contradiction |].
  apply (cache_delete_length ko eo c Hnd Hin).
Qed.

(** A miss leaves the cache within its bound. *)
Lemma cache_set_bounded M key e (c : list (string * CacheEntry)) :
  key <> "" -> (1 <= M)%nat -> (length c <= M)%nat -> NoDup c.*1 ->
  (forall k, k ∈ c.*1 -> k <> "") ->
  let c' := cache_set key e (if (M <=? length c)%nat then removeOldest c else c) in
  (length c' <= M)%nat /\ NoDup c'.*1 /\ forall k, k ∈ c'.*1 -> k <> "".
Proof.
  intros Hkey HM Hlen Hnd Hnamed.
  set (c0 := if (M <=? length c)%nat then removeOldest c else c).
  assert (H0 : (length c0 < M)%nat /\ c0.*1 `sublist_of` c.*1).
  { subst c0. destruct (Nat.leb_spec M (length c)) as [Hfull|Hroom].
    - split; [| apply removeOldest_sublist].
      assert (c <> []) by (intros ->; simpl in Hfull; lia).
      pose proof (removeOldest_length c H Hnd Hnamed). lia.
    - split; [exact Hroom | reflexivity]. }
  destruct H0 as [Hlt Hsub]. simpl.
  assert (Hnd0 : NoDup c0.*1) by apply (sublist_NoDup _ _ Hnd Hsub).
  assert (Hnamed0 : forall k, k ∈ c0.*1 -> k <> "").
  { intros k Hk. apply Hnamed. eapply elem_of_sublist; eassumption. }
  assert (Hlen' : length (cache_set key e c0) = length (cache_set key e c0).*1)
    by (rewrite length_fmap; reflexivity).
  rewrite Hlen', cache_set_keys. destruct (decide (key ∈ c0.*1)) as [Hin|Hnin].
  - rewrite length_fmap. split; [lia |]. auto.
  - rewrite length_app, length_fmap. simpl. split; [lia |]. split.
    + apply NoDup_app. split; [exact Hnd0 |]. split; [| apply NoDup_singleton].
      intros x Hx Hx'. apply list_elem_of_singleton in Hx'. subst x. contradiction.
    + intros k Hk. apply elem_of_app in Hk as [Hk|Hk]; [apply Hnamed0, Hk |].
      apply list_elem_of_singleton in Hk. subst k. exact Hkey.
Qed.

Lemma getOrFetch_miss_bounded max key fetch :
  key <> "" -> keeps (cache_bounded max) fetch ->
  keeps (cache_bounded max) (getOrFetch_miss key fetch).
Proof.
  intros Hkey Hf s Hs. specialize (Hf s Hs).
  destruct (fetch s) as [[data|e] s1] eqn:Ef; simpl in Hf.
  - pose proof (getOrFetch_miss_cache key fetch s data s1 Ef) as Hc.
    assert (Hms : maxSize (getOrFetch_miss key fetch s).2 = maxSize s1).
    { unfold getOrFetch_miss, bind. rewrite Ef. simpl.
      destruct (maxSize s1 <=? length (queryCache s1))%nat; reflexivity. }
    destruct Hf as [H0 H1 H2 H3 H4].
    destruct (cache_set_bounded max key
                {| ce_data := data; ce_timestamp := clock s1 (ticks s1) |}
                (queryCache s1) Hkey H1 H2 H3 H4) as (B1 & B2 & B3).
    rewrite H0 in Hc.
    split; [rewrite Hms; exact H0 | exact H1 | rewrite Hc; exact B1
           | rewrite Hc; exact B2 | rewrite Hc; exact B3].
  - unfold getOrFetch_miss, bind. rewrite Ef. exact Hf.
Qed.

Lemma keeps_try_finally {A} (I : State -> Prop) (m : M A) (f : State -> State) :
  keeps I m -> (forall s, I s -> I (f s)) -> keeps I (try_finally m f).
Proof.
  intros Hm Hf s H. unfold try_finally. specialize (Hm s H).
  destruct (m s) as [r s']. simpl in *. apply Hf, Hm.
Qed.

Lemma maxSize_set_store n st s : maxSize (set_store n st s) = maxSize s.
Proof. unfold set_store. destruct (db s); reflexivity. Qed.

Create HintDb bounded.

Ltac bounded_modify :=
  apply keeps_modify;
  let s0 := fresh "s" in let H0 := fresh "H" in
  intros s0 H0;
  first
    [ apply (cache_bounded_same _ s0);
      [ first [reflexivity | apply queryCache_set_store]
      | first [reflexivity | apply maxSize_set_store]
      | exact H0 ] ].

Ltac bounded_step :=
  first
    [ assumption
    | solve [eauto 3 with bounded]
    | apply keeps_ret
    | apply keeps_throw
    | apply keeps_gets
    | apply keeps_bind; [| intros ?]
    | apply keeps_try_catch; [| intros ?]
    | apply keeps_both
    | apply keeps_for_each; intros ?
    | bounded_modify
    | progress case_match ].

Ltac solve_bounded := repeat bounded_step.

Section Bounded.
Variable max : nat.
#[local] Abbreviation bounded := (cache_bounded max).

Lemma Date_now_bounded : keeps bounded Date_now.
Proof. intros s H. apply (cache_bounded_same max s); [reflexivity | reflexivity | exact H]. Qed.

Lemma get_db_bounded : keeps bounded get_db.
Proof. intros s H. unfold get_db. destruct (db s); exact H. Qed.

Hint Resolve Date_now_bounded get_db_bounded : bounded.

Lemma objectStore_bounded n : keeps bounded (objectStore n).
Proof. unfold objectStore. solve_bounded. Qed.

Lemma invalidatePattern_bounded p : keeps bounded (invalidatePattern p).
Proof.
  unfold invalidatePattern. apply keeps_modify. intros s H.
  apply cache_bounded_sub; [| exact H]. apply fmap_sublist, sublist_filter.
Qed.

Lemma invalidate_bounded k : keeps bounded (invalidate k).
Proof.
  unfold invalidate. apply keeps_modify. intros s H.
  apply cache_bounded_sub; [| exact H]. apply cache_delete_sublist.
Qed.

Lemma clear_bounded : keeps bounded clear.
Proof.
  unfold clear. apply keeps_modify. intros s H.
  apply cache_bounded_sub; [| exact H]. apply sublist_nil_l.
Qed.

Lemma put_store_bounded n st : keeps bounded (put_store n st).
Proof. unfold put_store. solve_bounded. Qed.

Hint Resolve objectStore_bounded invalidatePattern_bounded invalidate_bounded
  clear_bounded put_store_bounded : bounded.

Lemma getOrFetch_bounded key fetch ttl :
  key <> "" -> keeps bounded fetch ->
  keeps bounded (getOrFetch key fetch ttl).
Proof.
  intros Hkey Hf. pose proof (getOrFetch_miss_bounded max key fetch Hkey Hf).
  unfold getOrFetch. solve_bounded.
Qed.

Lemma get_bounded n k : keeps bounded (get n k).
Proof.
  unfold get. apply keeps_bind; [apply keeps_gets | intros ttl].
  apply getOrFetch_bounded; [apply cacheKey_get_nonempty | solve_bounded].
Qed.

Lemma getAll_bounded n ix rg : keeps bounded (getAll n ix rg).
Proof.
  unfold getAll. apply keeps_bind; [apply keeps_gets | intros ttl].
  apply getOrFetch_bounded; [apply cacheKey_getAll_nonempty | solve_bounded].
Qed.

Hint Resolve get_bounded getAll_bounded : bounded.

Lemma logAudit_entry_bounded a d : keeps bounded (logAudit_entry a d).
Proof. unfold logAudit_entry. solve_bounded. Qed.

Hint Resolve logAudit_entry_bounded : bounded.

Lemma spawn_logAudit_bounded a d : keeps bounded (spawn_logAudit a d).
Proof. unfold spawn_logAudit. solve_bounded. Qed.

Hint Resolve spawn_logAudit_bounded : bounded.

Lemma add_bounded n r : keeps bounded (add n r).
Proof. unfold add. solve_bounded. Qed.

Lemma update_bounded n r : keeps bounded (update n r).
Proof. unfold update. solve_bounded. Qed.

Lemma delete_bounded n k : keeps bounded (delete n k).
Proof. unfold delete. solve_bounded. Qed.

Lemma bulkAdd_bounded n items : keeps bounded (bulkAdd n items).
Proof. unfold bulkAdd. solve_bounded. Qed.

Lemma clearStore_bounded n : keeps bounded (clearStore n).
Proof. unfold clearStore. solve_bounded. Qed.

Lemma getStoreCount_bounded n : keeps bounded (getStoreCount n).
Proof. unfold getStoreCount. solve_bounded. Qed.

Hint Resolve add_bounded update_bounded delete_bounded bulkAdd_bounded
  clearStore_bounded getStoreCount_bounded : bounded.

Lemma logAudit_bounded a d : keeps bounded (logAudit a d).
Proof. unfold logAudit. solve_bounded. Qed.

Lemma complete_pending_bounded : keeps bounded complete_pending.
Proof. unfold complete_pending. solve_bounded. Qed.

Lemma as_array_bounded v : keeps bounded (as_array v).
Proof. unfold as_array. solve_bounded. Qed.

Lemma getFallbackData_bounded : keeps bounded getFallbackData.
Proof. unfold getFallbackData. solve_bounded. Qed.

Lemma saveToLocalStorageFallback_bounded data :
  keeps bounded (saveToLocalStorageFallback data).
Proof. unfold saveToLocalStorageFallback. solve_bounded. Qed.

Hint Resolve logAudit_bounded complete_pending_bounded as_array_bounded
  getFallbackData_bounded saveToLocalStorageFallback_bounded : bounded.

Lemma getSystemData_bounded : keeps bounded getSystemData.
Proof. unfold getSystemData. solve_bounded. Qed.

Lemma getBackups_bounded ty : keeps bounded (getBackups ty).
Proof. unfold getBackups. solve_bounded. Qed.

Hint Resolve getSystemData_bounded getBackups_bounded : bounded.

Lemma getLastBackupDate_bounded : keeps bounded getLastBackupDate.
Proof. unfold getLastBackupDate. solve_bounded. Qed.

Hint Resolve getLastBackupDate_bounded : bounded.

Lemma getDatabaseInfo_bounded : keeps bounded getDatabaseInfo.
Proof. unfold getDatabaseInfo. solve_bounded. Qed.

Lemma cleanupOldBackups_bounded n : keeps bounded (cleanupOldBackups n).
Proof. unfold cleanupOldBackups. solve_bounded. Qed.

Hint Resolve getDatabaseInfo_bounded cleanupOldBackups_bounded : bounded.

Lemma createBackup_bounded ty data : keeps bounded (createBackup ty data).
Proof. unfold createBackup. solve_bounded. Qed.

Hint Resolve createBackup_bounded : bounded.

Lemma executeTransaction_bounded ops :
  keeps bounded ops -> keeps bounded (executeTransaction ops).
Proof. intros H. unfold executeTransaction. solve_bounded. Qed.

Lemma saveSystemData_bounded data : keeps bounded (saveSystemData data).
Proof.
  unfold saveSystemData. apply keeps_try_catch; [| intros ?; solve_bounded].
  apply keeps_bind; [apply executeTransaction_bounded; solve_bounded | intros ?].
  solve_bounded.
Qed.

Hint Resolve saveSystemData_bounded : bounded.

Lemma restoreBackup_bounded k : keeps bounded (restoreBackup k).
Proof. unfold restoreBackup. solve_bounded. Qed.

Lemma merge_collection_bounded n legacy : keeps bounded (merge_collection n legacy).
Proof. unfold merge_collection. solve_bounded. Qed.

Hint Resolve restoreBackup_bounded merge_collection_bounded : bounded.

Lemma mergeData_bounded data : keeps bounded (mergeData data).
Proof. unfold mergeData. solve_bounded. Qed.

Hint Resolve mergeData_bounded : bounded.

Lemma migrateFromLocalStorage_bounded : keeps bounded migrateFromLocalStorage.
Proof. unfold migrateFromLocalStorage. solve_bounded. Qed.

Lemma getSalesByDateRange_bounded a b : keeps bounded (getSalesByDateRange a b).
Proof. unfold getSalesByDateRange. solve_bounded. Qed.

Hint Resolve migrateFromLocalStorage_bounded getSalesByDateRange_bounded : bounded.

Lemma hasChangesSinceLastSync_bounded : keeps bounded hasChangesSinceLastSync.
Proof. unfold hasChangesSinceLastSync. solve_bounded. Qed.

Lemma cleanupOldData_bounded y : keeps bounded (cleanupOldData y).
Proof. unfold cleanupOldData. solve_bounded. Qed.

Lemma checkDataIntegrity_bounded : keeps bounded checkDataIntegrity.
Proof. unfold checkDataIntegrity. solve_bounded. Qed.

Hint Resolve hasChangesSinceLastSync_bounded cleanupOldData_bounded
  checkDataIntegrity_bounded : bounded.

Lemma sync_bounded y : keeps bounded (sync y).
Proof.
  unfold sync. apply keeps_bind; [apply keeps_gets | intros inProgress].
  destruct inProgress; [apply keeps_ret |].
  apply keeps_bind; [solve_bounded | intros _].
  apply keeps_try_finally.
  - unfold sync_body. solve_bounded.
  - intros s H. apply (cache_bounded_same max s); [reflexivity | reflexivity | exact H].
Qed.

Lemma quickSync_bounded : keeps bounded quickSync.
Proof. unfold quickSync. solve_bounded. Qed.

Lemma getAuditLogs_bounded limit filters : keeps bounded (getAuditLogs limit filters).
Proof. unfold getAuditLogs. solve_bounded. Qed.

Hint Resolve getAuditLogs_bounded : bounded.

Lemma getLowStockProducts_bounded t : keeps bounded (getLowStockProducts t).
Proof. unfold getLowStockProducts. solve_bounded. Qed.

Lemma getTopSellingProducts_bounded d w m limit period :
  keeps bounded (getTopSellingProducts d w m limit period).
Proof. unfold getTopSellingProducts. solve_bounded. Qed.

Lemma cleanup_bounded n : keeps bounded (cleanup n).
Proof. unfold cleanup. solve_bounded. Qed.

End Bounded.

(** The calls that a client of the module makes. *)
Inductive api : forall {A : Type}, M A -> Prop :=
| api_add n r : api (add n r)
| api_get n k : api (get n k)
| api_getAll n ix rg : api (getAll n ix rg)
| api_update n r : api (update n r)
| api_delete n k : api (delete n k)
| api_bulkAdd n items : api (bulkAdd n items)
| api_clearStore n : api (clearStore n)
| api_getStoreCount n : api (getStoreCount n)
| api_getSystemData : api getSystemData
| api_saveSystemData data : api (saveSystemData data)
| api_createBackup ty data : api (createBackup ty data)
| api_cleanupOldBackups n : api (cleanupOldBackups n)
| api_restoreBackup k : api (restoreBackup k)
| api_getBackups ty : api (getBackups ty)
| api_getLastBackupDate : api getLastBackupDate
| api_getDatabaseInfo : api getDatabaseInfo
| api_logAudit a d : api (logAudit a d)
| api_getAuditLogs limit filters : api (getAuditLogs limit filters)
| api_mergeData data : api (mergeData data)
| api_migrateFromLocalStorage : api migrateFromLocalStorage
| api_getSalesByDateRange a b : api (getSalesByDateRange a b)
| api_getLowStockProducts t : api (getLowStockProducts t)
| api_getTopSellingProducts d w m limit period :
    api (getTopSellingProducts d w m limit period)
| api_checkDataIntegrity : api checkDataIntegrity
| api_cleanupOldData y : api (cleanupOldData y)
| api_sync y : api (sync y)
| api_quickSync : api quickSync
| api_cleanup n : api (cleanup n)
| api_invalidate k : api (invalidate k)
| api_invalidatePattern p : api (invalidatePattern p)
| api_clear : api clear.

(** X9. The cache never outgrows [maxSize]: from a state whose cache holds
    at most [maxSize] entries, under distinct non-empty keys, with [maxSize]
    at least 1, every call of the module leaves such a state, with the same
    [maxSize], whatever the call resolves to. *)
Theorem cache_never_overflows {A : Type} (m : M A) (max : nat) (s : State) :
  api m -> cache_bounded max s ->
  cache_bounded max (m s).2
  /\ (length (queryCache (m s).2) <= maxSize s)%nat.
Proof.
  intros Hm Hs.
  assert (H : keeps (cache_bounded max) m).
  { destruct Hm;
      auto using add_bounded, get_bounded, getAll_bounded, update_bounded, delete_bounded,
        bulkAdd_bounded, clearStore_bounded, getStoreCount_bounded, getSystemData_bounded,
        saveSystemData_bounded, createBackup_bounded, cleanupOldBackups_bounded,
        restoreBackup_bounded, getBackups_bounded, getLastBackupDate_bounded,
        getDatabaseInfo_bounded, logAudit_bounded, getAuditLogs_bounded, mergeData_bounded,
        migrateFromLocalStorage_bounded, getSalesByDateRange_bounded,
        getLowStockProducts_bounded, getTopSellingProducts_bounded,
        checkDataIntegrity_bounded, cleanupOldData_bounded, sync_bounded, quickSync_bounded,
        cleanup_bounded, invalidate_bounded, invalidatePattern_bounded, clear_bounded. }
  split; [apply H, Hs |].
  rewrite (bounded_max _ _ Hs). apply (bounded_size _ _ (H s Hs)).
Qed.

Lemma cache_never_overflows_witness :
  cache_bounded 100 (getAll PRODUCTS None None (initial_state true 0)).2
  /\ (length (queryCache (getAll PRODUCTS None None (initial_state true 0)).2)
      <= maxSize (initial_state true 0))%nat.
Proof.
  apply (cache_never_overflows (getAll PRODUCTS None None) 100 (initial_state true 0)).
  - apply api_getAll.
  - split; simpl; [reflexivity | lia | lia | constructor |].
    intros k H. inversion H.
Defined.

(** ** [bulkAdd] *)

Lemma assign_key_keyPath r st k r' st' :
  assign_key r st = Some (k, r', st') -> keyPath st' = keyPath st.
Proof.
  unfold assign_key. destruct (prop_path (keyPath st) r) as [k0|].
  - intros [= <- <- <-]. apply keyPath_bump_keyGen.
  - destruct (autoIncrement st); [| discriminate]. intros [= <- <- <-]. reflexivity.
Qed.

Lemma store_add_keyPath r st k st' :
  store_add r st = inr (k, st') -> keyPath st' = keyPath st.
Proof.
  unfold store_add. destruct (assign_key r st) as [[[k0 r0] st0]|] eqn:E; [| discriminate].
  destruct (records st !! k0); [discriminate |]. intros [= <- <-]. simpl.
  apply (assign_key_keyPath _ _ _ _ _ E).
Qed.

Lemma store_add_key r st k st' k0 :
  store_add r st = inr (k, st') -> prop_path (keyPath st) r = Some k0 -> k = k0.
Proof.
  unfold store_add, assign_key. intros H Hk. rewrite Hk in H.
  destruct (records st !! k0); [discriminate |]. injection H as <- _. reflexivity.
Qed.

Lemma bulk_issue_true st items l : bulk_issue st items = (l, true) -> l = items.
Proof.
  revert l. induction items as [|r items IH]; intros l; simpl.
  - intros [= <-]. reflexivity.
  - destruct (assign_key r st); [| discriminate].
    destruct (bulk_issue st items) as [l0 b]. intros [= <- ->].
    f_equal. apply IH. reflexivity.
Qed.

Lemma bulk_run_errors abort items : forall st c e st' c' e',
  bulk_run abort items st c e = Some (st', c', e') -> (e <= e')%nat.
Proof.
  induction items as [|r items IH]; intros st c e st' c' e'; simpl.
  - intros [= _ _ <-]. lia.
  - destruct (store_add r st) as [err|[k st1]].
    + destruct abort; [discriminate |]. intros H. apply IH in H. lia.
    + apply IH.
Qed.

(** A run without failures has added every item. *)
Lemma bulk_run_clean abort items : forall st c st' c',
  bulk_run abort items st c 0 = Some (st', c', 0%nat) ->
  c' = (c + length items)%nat
  /\ keyPath st' = keyPath st
  /\ store_count st' = (store_count st + length items)%nat
  /\ (forall k r, records st !! k = Some r -> records st' !! k = Some r)
  /\ (forall r k, r ∈ items -> prop_path (keyPath st) r = Some k ->
        records st' !! k = Some r).
Proof.
  induction items as [|r items IH]; intros st c st' c'; simpl.
  - intros [= <- <-]. split; [lia |]. split; [reflexivity |]. split; [lia |].
    split; [auto |]. intros r k H. inversion H.
  - destruct (store_add r st) as [err|[k1 st1]] eqn:Ea.
    + destruct abort; [discriminate |]. intros H. apply bulk_run_errors in H. lia.
    + intros H. destruct (IH _ _ _ _ H) as (Hc & Hkp & Hcount & Hold & Hnew).
      pose proof (store_add_keyPath _ _ _ _ Ea) as Hkp1.
      destruct (store_add_stored _ _ _ _ Ea) as [Hfresh Hrec1].
      split; [lia |]. split; [congruence |]. split.
      { rewrite Hcount. unfold store_count. rewrite Hrec1.
        rewrite map_size_insert_None by exact Hfresh. lia. }
      split.
      { intros k r0 Hk. apply Hold. rewrite Hrec1.
        rewrite lookup_insert_ne; [exact Hk |]. intros ->. congruence. }
      intros r0 k Hin Hk. apply elem_of_cons in Hin as [->|Hin].
      * rewrite (store_add_key _ _ _ _ _ Ea Hk) in *. apply Hold.
        rewrite Hrec1, lookup_insert_eq. unfold as_stored. rewrite Hk. reflexivity.
      * apply Hnew; [exact Hin |]. rewrite Hkp1. exact Hk.
Qed.

(** On an engine that aborts the transaction of a failed request, the run
    either fails as a whole or has no failure. *)
Lemma bulk_run_abort items : forall st c e st' c' e',
  bulk_run true items st c e = Some (st', c', e') -> e' = e.
Proof.
  induction items as [|r items IH]; intros st c e st' c' e'; simpl.
  - intros [= _ _ <-]. reflexivity.
  - destruct (store_add r st) as [err|[k st1]]; [discriminate | apply IH].
Qed.

(** X10. A call of [bulkAdd] that resolves has added every item: it
    resolves to the number of items, the store has grown by that many
    records, holds each item under its key and has kept what it held.  On an
    engine that aborts the transaction of a failed request, a call that
    rejects, for items that all carry their key, has changed nothing. *)
Theorem bulkAdd_all_or_nothing (n : string) (items : list Rec) (s : State) (st : Store) :
  store_at n s = Some st -> items <> [] ->
  (forall c s', bulkAdd n (Some items) s = (Ok c, s') ->
     c = length items
     /\ exists st',
          store_at n s' = Some st'
          /\ store_count st' = (store_count st + length items)%nat
          /\ (forall k r, records st !! k = Some r -> records st' !! k = Some r)
          /\ (forall r k, r ∈ items -> prop_path (keyPath st) r = Some k ->
                records st' !! k = Some r))
  /\ (forall d e s', db s = Some d -> abortOnError d = true ->
        (forall r, r ∈ items -> is_Some (prop_path (keyPath st) r)) ->
        bulkAdd n (Some items) s = (Err e, s') ->
        e = ConstraintError /\ s' = s).
Proof.
  intros Hst Hne. pose proof (store_at_db n s st Hst) as Hdb.
  assert (Hunfold : forall d, db s = Some d ->
    bulkAdd n (Some items) s
    = let '(issued, all_issued) := bulk_issue st items in
      match bulk_run (abortOnError d) issued st 0 0 with
      | None => (Err (if all_issued then ConstraintError else DataError), s)
      | Some (st', completed, errors) =>
          (if negb all_issued then Err DataError
           else if (0 <? errors)%nat then Err (BulkErrors errors (length items))
           else Ok completed,
           bulk_committed n st' s)
      end).
  { intros d Hd. unfold bulkAdd, bind, gets. rewrite Hd.
    destruct items as [|r0 items0]; [congruence |].
    rewrite (objectStore_run n s st Hst).
    destruct (bulk_issue st (r0 :: items0)) as [issued all_issued].
    destruct (bulk_run (abortOnError d) issued st 0 0) as [[[st' completed] errors]|];
      [| reflexivity].
    unfold bulk_committed, put_store, invalidatePattern, modify. simpl.
    destruct all_issued; simpl; [| reflexivity].
    destruct (0 <? errors)%nat; reflexivity. }
  destruct (db s) as [d|] eqn:Ed; [| congruence].
  specialize (Hunfold d eq_refl). split.
  - intros c s' H. rewrite Hunfold in H.
    destruct (bulk_issue st items) as [issued all_issued] eqn:Ei.
    destruct (bulk_run (abortOnError d) issued st 0 0) as [[[st' completed] errors]|] eqn:Er;
      [| discriminate].
    destruct all_issued; simpl in H; [| discriminate].
    destruct (Nat.ltb_spec 0 errors) as [Hpos|Hzero]; [discriminate |].
    injection H as <- <-. assert (errors = 0%nat) as -> by lia.
    apply bulk_issue_true in Ei as ->.
    destruct (bulk_run_clean _ _ _ _ _ _ Er) as (Hc & _ & Hcount & Hold & Hnew).
    split; [lia |]. exists st'. split; [| auto].
    apply bulk_committed_store_eq. rewrite Ed. discriminate.
  - intros d0 e s' [= <-] Habort Hkeyed H. rewrite Hunfold, Habort in H.
    rewrite (bulk_issue_all st items Hkeyed) in H.
    destruct (bulk_run true items st 0 0) as [[[st' completed] errors]|] eqn:Er.
    + apply bulk_run_abort in Er as ->. simpl in H. discriminate.
    + injection H as <- <-. auto.
Qed.

Lemma bulkAdd_all_or_nothing_witness :
  (bulkAdd PRODUCTS (Some [lipstick; lipstick]) (initial_state true 0)).1
  = Err ConstraintError
  /\ (bulkAdd PRODUCTS (Some [lipstick; lipstick]) (initial_state true 0)).2
     = initial_state true 0.
Proof.
  destruct (bulkAdd PRODUCTS (Some [lipstick; lipstick]) (initial_state true 0))
    as [[c|e] s'] eqn:E; [vm_compute in E; discriminate |].
  destruct (proj2 (bulkAdd_all_or_nothing PRODUCTS [lipstick; lipstick]
                     (initial_state true 0) no_products eq_refl ltac:(discriminate))
              _ e s' eq_refl eq_refl) as [-> ->].
  - intros r Hr. apply elem_of_cons in Hr as [->|Hr]; [simpl; eauto |].
    apply list_elem_of_singleton in Hr as ->. simpl. eauto.
  - exact E.
  - split; reflexivity.
Defined.

(** ** The audit log *)

(** What [getAuditLogs] asks of a log. *)
Definition wanted (prop : Rec -> option string) (w : option string) (r : Rec) : Prop :=
  match w with
  | Some w => if String.eqb w "" then True else prop r = Some w
  | None => True
  end.

Definition within (test : Z -> Rec -> bool) (bound : option Z) (r : Rec) : Prop :=
  match bound with
  | Some d => test d r = true
  | None => True
  end.

Definition passes (filters : AuditFilters) (r : Rec) : Prop :=
  wanted prop_action (f_action filters) r
  /\ wanted prop_userId (f_userId filters) r
  /\ within not_before (f_startDate filters) r
  /\ within not_after (f_endDate filters) r.

Lemma filter_eq_elem prop w l r : r ∈ filter_eq prop w l <-> r ∈ l /\ wanted prop w r.
Proof.
  unfold filter_eq, wanted. destruct w as [w|]; [| tauto].
  destruct (String.eqb w ""); [tauto |]. rewrite list_elem_of_filter. tauto.
Qed.

Lemma filter_date_elem test bound l r :
  r ∈ filter_date test bound l <-> r ∈ l /\ within test bound r.
Proof.
  unfold filter_date, within. destruct bound as [d|]; [| tauto].
  rewrite list_elem_of_filter. tauto.
Qed.

Lemma apply_filters_elem filters l r :
  r ∈ apply_filters filters l <-> r ∈ l /\ passes filters r.
Proof.
  unfold apply_filters, passes.
  rewrite !filter_date_elem, !filter_eq_elem. tauto.
Qed.

Lemma getAuditLogs_run limit filters s st :
  store_at AUDIT_LOG s = Some st -> cache_coherent AUDIT_LOG s ->
  getAuditLogs limit filters s
  = (Ok (take limit (sort_by newest_first (apply_filters filters (store_getAll st)))),
     (getAll AUDIT_LOG None None s).2).
Proof.
  intros Hst Hco. pose proof (getAll_read AUDIT_LOG s st Hst Hco) as Hread.
  unfold getAuditLogs, try_catch. unfold bind at 1.
  destruct (getAll AUDIT_LOG None None s) as [v s1]. simpl in Hread. subst v.
  reflexivity.
Qed.

(** In a list from the newest to the oldest, what comes first is not older. *)
Lemma newest_take_drop (l : list Rec) (n : nat) a b :
  StronglySorted newer_first l -> a ∈ take n l -> b ∈ drop n l -> instant b <= instant a.
Proof.
  intros Hs Ha Hb. rewrite <- (take_drop n l) in Hs.
  change (newer_first a b). eapply StronglySorted_app_1_elem_of; eassumption.
Qed.

(** X11. With the audit store open, holding timestamped entries, and no
    stale reading of it in the cache, [getAuditLogs] resolves to entries of
    the store that pass every filter given, from the newest to the oldest,
    [limit] of them or all when there are fewer, and no entry left out is
    newer than one returned. *)
Theorem audit_logs_newest (limit : nat) (filters : AuditFilters) (s : State) (st : Store) :
  store_at AUDIT_LOG s = Some st -> cache_coherent AUDIT_LOG s ->
  dated (store_getAll st) ->
  exists l,
    (getAuditLogs limit filters s).1 = Ok l
    /\ length l = min limit (length (apply_filters filters (store_getAll st)))
    /\ (forall r, r ∈ l -> (exists k, records st !! k = Some r) /\ passes filters r)
    /\ StronglySorted newer_first l
    /\ (forall r r', r ∈ l -> (exists k, records st !! k = Some r') -> passes filters r' ->
          r' ∉ l -> instant r' <= instant r).
Proof.
  intros Hst Hco Hd. rewrite (getAuditLogs_run limit filters s st Hst Hco). simpl.
  set (matching := apply_filters filters (store_getAll st)).
  assert (Hdm : dated matching).
  { intros r Hr. apply apply_filters_elem in Hr as [Hr _]. apply Hd, Hr. }
  pose proof (sort_by_newest matching Hdm) as Hs.
  eexists. split; [reflexivity |]. split; [| split; [| split]].
  - rewrite length_take, sort_by_length. reflexivity.
  - intros r Hr. apply subseteq_take in Hr. rewrite sort_by_perm in Hr.
    apply apply_filters_elem in Hr as [Hr Hp]. split; [| exact Hp].
    apply store_getAll_elem, Hr.
  - rewrite <- (take_drop limit (sort_by newest_first matching)) in Hs.
    apply StronglySorted_app_1_l in Hs. exact Hs.
  - intros r r' Hr [k Hk] Hp Hout.
    apply (newest_take_drop (sort_by newest_first matching) limit); [exact Hs | exact Hr |].
    assert (Hin : r' ∈ sort_by newest_first matching).
    { rewrite sort_by_perm. apply apply_filters_elem. split; [| exact Hp].
      apply store_getAll_elem. eauto. }
    rewrite <- (take_drop limit (sort_by newest_first matching)) in Hin.
    apply elem_of_app in Hin as [Hin|Hin]; [contradiction | exact Hin].
Qed.

(** A store of two audit entries. *)
Definition audit_entry (id t : Z) (action : string) : Rec :=
  RAudit {| a_id := Some id; a_timestamp := t; a_action := action;
            a_details := DError ""; a_userId := "unknown"; a_userName := "Sistema" |}.

Definition two_logs : Store :=
  {| keyPath := "id"; autoIncrement := true; keyGen := 3;
     indexNames := ["timestamp"; "action"; "userId"];
     records := {[ KNum 1 := audit_entry 1 100 "add"; KNum 2 := audit_entry 2 200 "delete" ]} |}.

Definition audited : State := set_store AUDIT_LOG two_logs (initial_state true 1000).

Lemma two_logs_dated : dated (store_getAll two_logs).
Proof.
  intros r Hr. apply store_getAll_elem in Hr as [k Hk]. simpl in Hk.
  apply lookup_insert_Some in Hk as [[_ <-]|[_ Hk]]; [simpl; eauto |].
  apply lookup_singleton_Some in Hk as [_ <-]. simpl. eauto.
Qed.

Lemma audit_logs_newest_witness :
  exists l,
    (getAuditLogs 1 (mkFilters None None None None) audited).1 = Ok l
    /\ length l = min 1 (length (apply_filters (mkFilters None None None None)
                                   (store_getAll two_logs)))
    /\ (forall r, r ∈ l ->
          (exists k, records two_logs !! k = Some r)
          /\ passes (mkFilters None None None None) r)
    /\ StronglySorted newer_first l
    /\ (forall r r', r ∈ l -> (exists k, records two_logs !! k = Some r') ->
          passes (mkFilters None None None None) r' ->
          r' ∉ l -> instant r' <= instant r).
Proof.
  apply (audit_logs_newest 1 (mkFilters None None None None) audited two_logs).
  - reflexivity.
  - apply cache_coherent_empty. reflexivity.
  - exact two_logs_dated.
Defined.

(** ** The periodic cleanup *)

(** The store without the records under the keys [ks]. *)
Definition delete_all (ks : list Key) (st : Store) : Store :=
  foldl (fun st k => store_delete k st) st ks.

Lemma delete_all_fields ks st :
  keyPath (delete_all ks st) = keyPath st /\ keyGen (delete_all ks st) = keyGen st.
Proof.
  revert st. induction ks as [|k ks IH]; intros st; [auto |].
  simpl. destruct (IH (store_delete k st)) as [-> ->]. auto.
Qed.

Lemma delete_all_lookup ks st k :
  records (delete_all ks st) !! k = if decide (k ∈ ks) then None else records st !! k.
Proof.
  revert st. induction ks as [|k0 ks IH]; intros st.
  - destruct (decide (k ∈ [])) as [H|_]; [inversion H | reflexivity].
  - simpl. rewrite IH. simpl.
    destruct (decide (k ∈ ks)) as [Hin|Hnin].
    + rewrite decide_True by (right; exact Hin). reflexivity.
    + destruct (decide (k0 = k)) as [<-|Hne].
      * rewrite decide_True by left. apply lookup_delete_eq.
      * rewrite decide_False.
        -- apply lookup_delete_ne, Hne.
        -- intros H. apply elem_of_cons in H as [H|H]; [congruence | contradiction].
Qed.

Lemma delete_by_id_run n (l : list Rec) : forall s st,
  store_at n s = Some st -> (forall r, r ∈ l -> is_Some (prop_id r)) ->
  exists s',
    for_each l (fun log => delete n (prop_id log) >> ret tt) s = (Ok tt, s')
    /\ store_at n s' = Some (delete_all (omap prop_id l) st).
Proof.
  induction l as [|r l IH]; intros s st Hst Hid.
  - exists s. split; [reflexivity | exact Hst].
  - destruct (Hid r) as [k Hk]; [left |].
    set (s1 := committed n (store_delete k st) "delete" (DStoreId n (Some k)) s).
    assert (Hrun : (delete n (prop_id r) >> ret tt) s = (Ok tt, s1)).
    { rewrite Hk. erewrite bind_ok by (apply delete_run, Hst). reflexivity. }
    rewrite (for_each_cons_ok r l _ s s1 Hrun).
    destruct (IH s1 (store_delete k st)) as (s' & Hs' & Hst').
    + apply committed_store_eq. eapply store_at_db, Hst.
    + intros r' Hr'. apply Hid. right. exact Hr'.
    + exists s'. split; [exact Hs' |]. rewrite Hst'. simpl. rewrite Hk. reflexivity.
Qed.

(** A store that has only gained records, under keys that its generator
    made. *)
Record grown (a b : Store) : Prop := {
  grown_keyPath : keyPath b = keyPath a;
  grown_keyGen : keyGen a <= keyGen b;
  grown_kept : forall k r, records a !! k = Some r -> records b !! k = Some r;
  grown_new : forall k, records a !! k = None -> is_Some (records b !! k) ->
                exists n, k = KNum n /\ keyGen a <= n
}.

Lemma grown_refl a : grown a a.
Proof.
  split; [reflexivity | lia | auto |]. intros k Hk [r Hr]. congruence.
Qed.

(** An audit entry that brings no [id] is appended under a generated key. *)
Lemma store_add_grown e st0 st k st' :
  keyPath st0 = "id" -> grown st0 st -> a_id e = None ->
  store_add (RAudit e) st = inr (k, st') -> grown st0 st'.
Proof.
  intros Hkp [G1 G2 G3 G4] Hid. unfold store_add, assign_key.
  rewrite G1, Hkp. rewrite prop_path_id. simpl. rewrite Hid. simpl.
  destruct (autoIncrement st); [| discriminate].
  destruct (records st !! KNum (keyGen st)) eqn:Ek; [discriminate |].
  intros [= <- <-]. split; simpl.
  - exact G1.
  - lia.
  - intros k r Hk. rewrite lookup_insert_ne; [apply G3, Hk |].
    intros <-. apply G3 in Hk. congruence.
  - intros k Hk [r Hr]. destruct (decide (KNum (keyGen st) = k)) as [<-|Hne].
    + exists (keyGen st). auto.
    + rewrite lookup_insert_ne in Hr by exact Hne. apply G4; eauto.
Qed.

Section AuditGrows.
Variable st0 : Store.
Hypothesis st0_keyPath : keyPath st0 = "id".

(** The audit store has only grown from [st0]. *)
Definition audit_grown (s : State) : Prop :=
  exists st, store_at AUDIT_LOG s = Some st /\ grown st0 st.

Lemma keeps_audit_grown {A} (m : M A) :
  preserves (store_at AUDIT_LOG) m -> keeps audit_grown m.
Proof. intros H s (st & Hst & Hg). exists st. rewrite H. auto. Qed.

Lemma logAudit_entry_id a d s e :
  (logAudit_entry a d s).1 = Ok (Some e) -> a_id e = None.
Proof.
  unfold logAudit_entry, bind, gets, ret, Date_now.
  destruct (db s) as [dd|]; [| discriminate].
  destruct (objectStores dd !! AUDIT_LOG); [| discriminate].
  simpl. intros [= <-]. reflexivity.
Qed.

Lemma logAudit_grown a d : keeps audit_grown (logAudit a d).
Proof.
  intros s (st & Hst & Hg). unfold logAudit, try_catch. unfold bind at 1.
  pose proof (logAudit_entry_id a d s) as Hid.
  pose proof (logAudit_entry_preserves (store_at AUDIT_LOG) (store_at_volatile _) a d s) as Hp.
  destruct (logAudit_entry a d s) as [[[e|]|err] s1]; simpl in Hp, Hid.
  - rewrite <- Hp in Hst. specialize (Hid e eq_refl).
    destruct (store_add (RAudit e) st) as [err|[k st']] eqn:Ea.
    + assert (E : add AUDIT_LOG (RAudit e) s1 = (Err err, s1)).
      { unfold add, bind. rewrite (objectStore_run _ _ _ Hst), Ea. reflexivity. }
      rewrite (bind_err _ _ _ _ _ E). simpl. exists st. auto.
    + rewrite (bind_ok _ _ _ _ _ (add_run _ _ _ _ _ _ Hst Ea)). simpl.
      exists st'. split.
      * apply committed_store_eq. eapply store_at_db, Hst.
      * eapply store_add_grown; eassumption.
  - simpl. exists st. rewrite Hp. auto.
  - simpl. exists st. rewrite Hp. auto.
Qed.

Lemma checkDataIntegrity_grown : keeps audit_grown checkDataIntegrity.
Proof.
  assert (Hall : forall n, keeps audit_grown (getAll n None None)).
  { intros n. apply keeps_audit_grown, getAll_preserves, store_at_volatile. }
  assert (Hupd : forall r, keeps audit_grown (update PRODUCTS r)).
  { intros r. apply keeps_audit_grown.
    apply (update_preserves _ (store_at_volatile _) (store_at_ignores_pending _)).
    apply store_at_ignores_store. discriminate. }
  assert (Harr : forall v, keeps audit_grown (as_array v)).
  { intros v. apply keeps_audit_grown, as_array_preserves. }
  pose proof logAudit_grown as Hlog.
  unfold checkDataIntegrity. solve_keeps.
Qed.

End AuditGrows.

(** The audit store as the program fills it: keyed by [id], every record
    under its own, with a timestamp, and the generator ahead of every key. *)
Record audit_store (st : Store) : Prop := {
  audit_keyPath : keyPath st = "id";
  audit_wf : store_wf st;
  audit_dated : dated (store_getAll st);
  audit_ahead : forall n, is_Some (records st !! KNum n) -> n < keyGen st
}.

Lemma audit_store_id st k r :
  audit_store st -> records st !! k = Some r -> prop_id r = Some k.
Proof.
  intros [Hkp Hwf _ _] H. apply Hwf in H. rewrite Hkp, prop_path_id in H. exact H.
Qed.

Lemma audit_store_elem st r k :
  audit_store st -> r ∈ store_getAll st -> prop_id r = Some k -> records st !! k = Some r.
Proof.
  intros Ha Hr Hk. apply store_getAll_elem in Hr as [k' Hr].
  pose proof (audit_store_id st k' r Ha Hr). congruence.
Qed.

Lemma not_after_dated d r :
  is_Some (prop_timestamp r) -> not_after d r = true <-> instant r <= d.
Proof.
  intros [t Ht]. unfold not_after, instant. rewrite Ht. simpl. apply Z.leb_le.
Qed.

Lemma checkDataIntegrity_ok s :
  exists issues, checkDataIntegrity s = (Ok issues, (checkDataIntegrity s).2).
Proof.
  unfold checkDataIntegrity, try_catch.
  match goal with |- context [bind ?a ?b s] => destruct (bind a b s) as [[o|e] s'] end;
    eexists; reflexivity.
Qed.

(** The entries that one run of [cleanup] deletes. *)
Definition expired (cutoff : Z) (st : Store) : list Rec :=
  take 1000 (sort_by newest_first
               (filter (fun log => not_after cutoff log = true) (store_getAll st))).

Lemma cleanup_run y s st :
  store_at AUDIT_LOG s = Some st -> audit_store st ->
  exists s' st',
    cleanup y s = (Ok tt, s')
    /\ store_at AUDIT_LOG s' = Some st'
    /\ grown (delete_all (omap prop_id (expired (y (clock s (ticks s))) st)) st) st'.
Proof.
  intros Hst Ha. set (cutoff := y (clock s (ticks s))).
  remember (cleanup y s) as out eqn:Hout.
  unfold cleanup, try_catch in Hout.
  unfold bind at 1 in Hout. unfold clear at 1, modify at 1 in Hout.
  unfold bind at 1 in Hout. unfold Date_now at 1 in Hout.
  simpl clock in Hout. simpl ticks in Hout. fold cutoff in Hout.
  set (s1 := set_ticks (S (ticks s)) (set_queryCache [] s)) in Hout.
  assert (Hst1 : store_at AUDIT_LOG s1 = Some st) by exact Hst.
  assert (Hco1 : cache_coherent AUDIT_LOG s1) by (apply cache_coherent_empty; reflexivity).
  set (F := {| f_action := None; f_userId := None; f_startDate := None;
               f_endDate := Some cutoff |}) in Hout.
  pose proof (getAuditLogs_run 1000 F s1 st Hst1 Hco1) as Hlogs.
  change (take 1000 (sort_by newest_first (apply_filters F (store_getAll st))))
    with (expired cutoff st) in Hlogs.
  erewrite bind_ok in Hout by exact Hlogs.
  set (s2 := (getAll AUDIT_LOG None None s1).2) in *.
  assert (Hst2 : store_at AUDIT_LOG s2 = Some st).
  { subst s2. rewrite getAll_store_at. exact Hst1. }
  destruct (delete_by_id_run AUDIT_LOG (expired cutoff st) s2 st Hst2)
    as (s3 & Hdel & Hst3).
  { intros r Hr. unfold expired in Hr. apply subseteq_take in Hr.
    rewrite sort_by_perm in Hr. apply list_elem_of_filter in Hr as [_ Hr].
    apply store_getAll_elem in Hr as [k Hk].
    rewrite (audit_store_id st k r Ha Hk). eauto. }
  erewrite bind_ok in Hout by exact Hdel.
  destruct (checkDataIntegrity_ok s3) as [issues Hci].
  erewrite bind_ok in Hout by exact Hci.
  set (st2 := delete_all (omap prop_id (expired cutoff st)) st) in *.
  assert (Hkp2 : keyPath st2 = "id").
  { subst st2. rewrite (proj1 (delete_all_fields _ _)). apply (audit_keyPath _ Ha). }
  destruct (checkDataIntegrity_grown st2 Hkp2 s3) as (st' & Hst' & Hg).
  { exists st2. split; [exact Hst3 | apply grown_refl]. }
  exists (checkDataIntegrity s3).2, st'. subst out. auto.
Qed.

(** X12. One run of [cleanup] on an audit store: every entry newer than the
    limit of ninety days stays; when the older entries are 1000 at most,
    they are all gone; in any case the older entries that stay are not newer
    than those that went, since the call deletes the 1000 newest of them. *)
Theorem cleanup_removes_old (ninetyDaysBefore : Z -> Z) (s : State) (st : Store) :
  store_at AUDIT_LOG s = Some st -> audit_store st ->
  let cutoff := ninetyDaysBefore (clock s (ticks s)) in
  exists s' st',
    cleanup ninetyDaysBefore s = (Ok tt, s')
    /\ store_at AUDIT_LOG s' = Some st'
    /\ (forall k r, records st !! k = Some r -> cutoff < instant r ->
          records st' !! k = Some r)
    /\ ((length (filter (fun log => not_after cutoff log = true) (store_getAll st))
           <= 1000)%nat ->
        forall k r, records st !! k = Some r -> instant r <= cutoff ->
          records st' !! k = None)
    /\ (forall k r k' r',
          records st !! k = Some r -> instant r <= cutoff -> is_Some (records st' !! k) ->
          records st !! k' = Some r' -> records st' !! k' = None ->
          instant r <= instant r').
Proof.
  intros Hst Ha cutoff.
  destruct (cleanup_run ninetyDaysBefore s st Hst Ha) as (s' & st' & Hrun & Hst' & Hg).
  fold cutoff in Hg. set (old := filter _ (store_getAll st)).
  set (gone := expired cutoff st) in *.
  set (st2 := delete_all (omap prop_id gone) st) in *.
  assert (Hold : forall r, r ∈ old <-> r ∈ store_getAll st /\ instant r <= cutoff).
  { intros r. subst old. rewrite list_elem_of_filter. split.
    - intros [H1 H2]. split; [exact H2 |].
      apply not_after_dated; [apply (audit_dated _ Ha), H2 | exact H1].
    - intros [H1 H2]. split; [| exact H1].
      apply not_after_dated; [apply (audit_dated _ Ha), H1 | exact H2]. }
  assert (Hgone_old : forall r, r ∈ gone -> r ∈ old).
  { intros r Hr. subst gone. unfold expired in Hr. apply subseteq_take in Hr.
    rewrite sort_by_perm in Hr. exact Hr. }
  assert (Hkeys : forall k r, records st !! k = Some r ->
            (k ∈ omap prop_id gone <-> r ∈ gone)).
  { intros k r Hk. rewrite list_elem_of_omap. split.
    - intros (r0 & Hr0 & Hid). 
      assert (r0 = r); [| congruence].
      pose proof (audit_store_elem st r0 k Ha
                    (proj1 (proj1 (Hold r0) (Hgone_old r0 Hr0))) Hid). congruence.
    - intros Hr. exists r. split; [exact Hr | apply (audit_store_id st k r Ha Hk)]. }
  assert (Hlook : forall k, records st2 !! k
                   = if decide (k ∈ omap prop_id gone) then None else records st !! k).
  { intros k. apply delete_all_lookup. }
  assert (Hahead : forall k, is_Some (records st !! k) -> records st2 !! k = None ->
                             records st' !! k = None).
  { intros k [r Hk] H2. destruct (records st' !! k) as [r'|] eqn:E; [| reflexivity].
    destruct (grown_new _ _ Hg k H2) as (n & -> & Hn); [eauto |].
    subst st2. rewrite (proj2 (delete_all_fields _ _)) in Hn.
    pose proof (audit_ahead _ Ha n (ex_intro _ r Hk)). lia. }
  exists s', st'. split; [exact Hrun |]. split; [exact Hst' |]. split; [| split].
  - intros k r Hk Hnew. apply (grown_kept _ _ Hg). rewrite Hlook.
    rewrite decide_False; [exact Hk |].
    intros Hin. apply (Hkeys k r Hk), Hgone_old, Hold in Hin as [_ Hle]. lia.
  - intros Hfew k r Hk Hle. apply Hahead; [eauto |]. rewrite Hlook.
    rewrite decide_True; [reflexivity |]. apply (Hkeys k r Hk).
    subst gone. unfold expired. fold old.
    rewrite take_ge by (rewrite sort_by_length; exact Hfew).
    rewrite sort_by_perm. apply Hold. split; [| exact Hle].
    apply store_getAll_elem. eauto.
  - intros k r k' r' Hk Hle Hstay Hk' Hwent.
    assert (Hr : r ∉ gone).
    { intros Hin. apply (Hkeys k r Hk) in Hin.
      assert (H2 : records st2 !! k = None) by (rewrite Hlook, decide_True; auto).
      rewrite (Hahead k (ex_intro _ r Hk) H2) in Hstay. destruct Hstay; discriminate. }
    assert (Hr' : r' ∈ gone).
    { apply (Hkeys k' r' Hk'). destruct (decide (k' ∈ omap prop_id gone)) as [H|H];
        [exact H |].
      pose proof (Hlook k') as E. rewrite decide_False in E by exact H. rewrite Hk' in E.
      apply (grown_kept _ _ Hg) in E. congruence. }
    subst gone. unfold expired in Hr, Hr'. fold old in Hr, Hr'.
    apply (newest_take_drop (sort_by newest_first old) 1000); [| exact Hr' |].
    + apply sort_by_newest. intros x Hx. apply Hold in Hx as [Hx _].
      apply (audit_dated _ Ha), Hx.
    + assert (Hin : r ∈ sort_by newest_first old).
      { rewrite sort_by_perm. apply Hold. split; [| exact Hle].
        apply store_getAll_elem. eauto. }
      rewrite <- (take_drop 1000 (sort_by newest_first old)) in Hin.
      apply elem_of_app in Hin as [Hin|Hin]; [contradiction | exact Hin].
Qed.

Lemma two_logs_audit : audit_store two_logs.
Proof.
  split.
  - reflexivity.
  - intros k r Hk. simpl in Hk.
    apply lookup_insert_Some in Hk as [[<- <-]|[_ Hk]]; [reflexivity |].
    apply lookup_singleton_Some in Hk as [<- <-]. reflexivity.
  - exact two_logs_dated.
  - intros n [r Hk]. simpl in Hk.
    apply lookup_insert_Some in Hk as [[[= <-] _]|[_ Hk]]; [simpl; lia |].
    apply lookup_singleton_Some in Hk as [[= <-] _]. simpl. lia.
Qed.

(** The clock of [audited] reads 1000; here ninety days are 850 ms. *)
Definition minus_850 (t : Z) : Z := t - 850.

Lemma cleanup_removes_old_witness :
  let cutoff := minus_850 (clock audited (ticks audited)) in
  exists s' st',
    cleanup minus_850 audited = (Ok tt, s')
    /\ store_at AUDIT_LOG s' = Some st'
    /\ (forall k r, records two_logs !! k = Some r -> cutoff < instant r ->
          records st' !! k = Some r)
    /\ ((length (filter (fun log => not_after cutoff log = true) (store_getAll two_logs))
           <= 1000)%nat ->
        forall k r, records two_logs !! k = Some r -> instant r <= cutoff ->
          records st' !! k = None)
    /\ (forall k r k' r',
          records two_logs !! k = Some r -> instant r <= cutoff ->
          is_Some (records st' !! k) ->
          records two_logs !! k' = Some r' -> records st' !! k' = None ->
          instant r <= instant r').
Proof.
  apply (cleanup_removes_old minus_850 audited two_logs).
  - reflexivity.
  - exact two_logs_audit.
Defined.

(** In that run the entry of instant 100 goes and the one of instant 200
    stays. *)
Example cleanup_example :
  match store_at AUDIT_LOG (cleanup minus_850 audited).2 with
  | Some st => store_getAll st
  | None => []
  end = [audit_entry 2 200 "delete"].
Proof. vm_compute. reflexivity. Qed.

(** ** The products that sell most *)

Lemma insert_with_perm {A} (le : A -> A -> bool) x l : insert_with le x l ≡ₚ x :: l.
Proof.
  induction l as [|y l IH]; simpl; [reflexivity |].
  destruct (le x y); [reflexivity |]. rewrite IH. apply Permutation_swap.
Qed.

Lemma sort_with_perm {A} (le : A -> A -> bool) l : sort_with le l ≡ₚ l.
Proof.
  induction l as [|x l IH]; simpl; [reflexivity |].
  rewrite insert_with_perm, IH. reflexivity.
Qed.

(** Sorting by a number, the greatest first. *)
Lemma insert_with_desc {A} (key : A -> Z) x l :
  StronglySorted (fun a b => key b <= key a) l ->
  StronglySorted (fun a b => key b <= key a) (insert_with (fun a b => key b <=? key a) x l).
Proof.
  intros Hs. induction Hs as [|y l Hs IH Hy]; simpl.
  - repeat constructor.
  - destruct (Z.leb_spec (key y) (key x)) as [Hle|Hlt].
    + constructor; [constructor; assumption |].
      constructor; [exact Hle |].
      eapply Forall_impl; [exact Hy |]. intros z Hz. simpl in Hz. lia.
    + constructor; [exact IH |].
      rewrite insert_with_perm. constructor; [lia | exact Hy].
Qed.

Lemma sort_with_desc {A} (key : A -> Z) l :
  StronglySorted (fun a b => key b <= key a) (sort_with (fun a b => key b <=? key a) l).
Proof.
  induction l as [|x l IH]; simpl; [constructor | apply insert_with_desc, IH].
Qed.

Lemma Object_values_perm {A} (o : list (Z * A)) : Object_values o ≡ₚ o.*2.
Proof.
  unfold Object_values. rewrite sort_with_perm.
  apply fmap_Permutation.
  induction o as [|[k a] o IH]; [reflexivity |].
  destruct (is_index k) eqn:E.
  - rewrite filter_cons_True by exact E.
    rewrite (filter_cons_False (fun ke => is_index ke.1 = false)) by (simpl; congruence).
    simpl. constructor. exact IH.
  - rewrite filter_cons_False by (simpl; congruence).
    rewrite (filter_cons_True (fun ke => is_index ke.1 = false)) by exact E.
    rewrite <- Permutation_middle. constructor. exact IH.
Qed.

(** The value under a property of the object. *)
Fixpoint at_key {A} (k : Z) (o : list (Z * A)) : option A :=
  match o with
  | [] => None
  | (k', a) :: o' => if k' =? k then Some a else at_key k o'
  end.

Lemma at_key_elem {A} (o : list (Z * A)) k a :
  NoDup o.*1 -> (k, a) ∈ o <-> at_key k o = Some a.
Proof.
  induction o as [|[k' a'] o IH]; intros Hnd.
  - split; [intros H; inversion H | discriminate].
  - rewrite fmap_cons in Hnd. apply NoDup_cons in Hnd as [Hnotin Hnd]. simpl in *.
    destruct (Z.eqb_spec k' k) as [->|Hne].
    + split.
      * intros H. apply elem_of_cons in H as [[= ->]|H]; [reflexivity |].
        exfalso. apply Hnotin. apply list_elem_of_fmap. exists (k, a). auto.
      * intros [= ->]. left.
    + rewrite <- (IH Hnd). split.
      * intros H. apply elem_of_cons in H as [[= -> ->]|H]; [congruence | exact H].
      * intros H. right. exact H.
Qed.

Lemma at_key_None {A} (o : list (Z * A)) k : at_key k o = None <-> k ∉ o.*1.
Proof.
  induction o as [|[k' a'] o IH].
  - split; [intros _ H; inversion H | reflexivity].
  - rewrite fmap_cons. simpl. destruct (Z.eqb_spec k' k) as [->|Hne].
    + split; [discriminate | intros H; exfalso; apply H; left].
    + rewrite IH. rewrite not_elem_of_cons. split; [auto | tauto].
Qed.

(** The units of a product among some items. *)
Definition quantity_of (id : Z) (items : list SaleItem) : Z :=
  foldr (fun item acc => if i_productId item =? id then i_quantity item + acc else acc)
        0 items.

Lemma quantity_of_app id l1 l2 :
  quantity_of id (l1 ++ l2) = quantity_of id l1 + quantity_of id l2.
Proof.
  induction l1 as [|i l1 IH]; simpl; [reflexivity |].
  destruct (i_productId i =? id); lia.
Qed.

(** The object after some items were counted. *)
Record counted (items : list SaleItem) (o : list (Z * ProductSales)) : Prop := {
  counted_keys : NoDup o.*1;
  counted_sold : forall k, k ∈ o.*1 <-> exists item, item ∈ items /\ i_productId item = k;
  counted_entry : forall k e, at_key k o = Some e ->
    ps_productId e = k /\ ps_quantity e = quantity_of k items
}.

Lemma count_item_keys item o :
  (count_item item o).*1
  = if decide (i_productId item ∈ o.*1) then o.*1 else o.*1 ++ [i_productId item].
Proof.
  induction o as [|[k e] o IH].
  - destruct (decide (i_productId item ∈ [])) as [H|_]; [inversion H | reflexivity].
  - simpl count_item. destruct (Z.eqb_spec k (i_productId item)) as [->|Hne];
      rewrite !fmap_cons; simpl fst.
    + rewrite decide_True by left. reflexivity.
    + rewrite IH. destruct (decide (i_productId item ∈ o.*1)) as [Hin|Hnin].
      * rewrite decide_True by (right; exact Hin). reflexivity.
      * rewrite decide_False; [reflexivity |].
        intros H. apply elem_of_cons in H as [H|H]; [congruence | contradiction].
Qed.

Lemma count_item_at item o k :
  at_key k (count_item item o)
  = if i_productId item =? k
    then Some match at_key k o with
              | Some e => {| ps_productId := ps_productId e; ps_name := ps_name e;
                             ps_quantity := ps_quantity e + i_quantity item;
                             ps_revenue := ps_revenue e + i_quantity item * i_price item |}
              | None => {| ps_productId := i_productId item; ps_name := i_name item;
                           ps_quantity := 0 + i_quantity item;
                           ps_revenue := 0 + i_quantity item * i_price item |}
              end
    else at_key k o.
Proof.
  induction o as [|[k' e] o IH]; simpl.
  - destruct (i_productId item =? k); reflexivity.
  - destruct (Z.eqb_spec k' (i_productId item)) as [->|Hne]; simpl.
    + destruct (Z.eqb_spec (i_productId item) k); reflexivity.
    + rewrite IH. destruct (Z.eqb_spec k' k) as [->|Hne'].
      * destruct (Z.eqb_spec (i_productId item) k); [congruence | reflexivity].
      * reflexivity.
Qed.

Lemma counted_nil : counted [] [].
Proof.
  split.
  - constructor.
  - intros k. split; [intros H; inversion H | intros (i & H & _); inversion H].
  - discriminate.
Qed.

Lemma counted_snoc items o item :
  counted items o -> counted (items ++ [item]) (count_item item o).
Proof.
  intros [Hnd Hsold Hentry]. split.
  - rewrite count_item_keys. destruct (decide _) as [Hin|Hnin]; [exact Hnd |].
    apply NoDup_app. split; [exact Hnd |]. split; [| apply NoDup_singleton].
    intros x Hx Hx'. apply list_elem_of_singleton in Hx'. subst x. contradiction.
  - intros k. rewrite count_item_keys. split.
    + intros H.
      assert (H' : k ∈ o.*1 \/ k = i_productId item).
      { destruct (decide _); [left; exact H |].
        apply elem_of_app in H as [H|H]; [left; exact H | right].
        apply list_elem_of_singleton in H. exact H. }
      destruct H' as [H'| ->].
      * apply Hsold in H' as (i & Hi & Hk). exists i. split; [| exact Hk].
        apply elem_of_app. left. exact Hi.
      * exists item. split; [| reflexivity]. apply elem_of_app. right. left.
    + intros (i & Hi & Hk). apply elem_of_app in Hi as [Hi|Hi].
      * assert (k ∈ o.*1) by (apply Hsold; eauto).
        destruct (decide _); [assumption | apply elem_of_app; left; assumption].
      * apply list_elem_of_singleton in Hi. subst i. subst k.
        destruct (decide _) as [Hin|_]; [exact Hin | apply elem_of_app; right; left].
  - intros k e. rewrite count_item_at, quantity_of_app. simpl.
    destruct (Z.eqb_spec (i_productId item) k) as [E|Hne]; [subst k |].
    + destruct (at_key (i_productId item) o) as [e0|] eqn:E0.
      * destruct (Hentry _ _ E0) as [H1 H2]. intros [= <-]. simpl. split; [exact H1 | lia].
      * intros [= <-]. simpl. split; [reflexivity |].
        assert (Hq : quantity_of (i_productId item) items = 0); [| lia].
        apply at_key_None in E0.
        assert (Hno : forall i, i ∈ items -> i_productId i <> i_productId item).
        { intros i Hi E. apply E0, Hsold. eauto. }
        clear -Hno. induction items as [|i items IH]; [reflexivity |]. simpl.
        destruct (Z.eqb_spec (i_productId i) (i_productId item)) as [E|_].
        -- exfalso. apply (Hno i); [left | exact E].
        -- apply IH. intros j Hj. apply Hno. right. exact Hj.
    + intros H. destruct (Hentry _ _ H) as [H1 H2]. split; [exact H1 | lia].
Qed.

Lemma counted_fold items : forall done o,
  counted done o -> counted (done ++ items) (fold_left (fun o item => count_item item o) items o).
Proof.
  induction items as [|item items IH]; intros done o H; simpl.
  - rewrite app_nil_r. exact H.
  - rewrite (cons_middle item), app_assoc. apply IH, counted_snoc, H.
Qed.

(** The items of the sales, in order. *)
Definition items_of (sales : list Rec) : list SaleItem :=
  concat (omap prop_items sales).

Lemma count_sales_all sales : forall o,
  (forall r, r ∈ sales -> is_Some (prop_items r)) ->
  count_sales sales o
  = Some (fold_left (fun o item => count_item item o) (items_of sales) o).
Proof.
  induction sales as [|r sales IH]; intros o H; [reflexivity |].
  destruct (H r) as [items Hi]; [left |]. simpl. unfold items_of. simpl. rewrite Hi.
  simpl. rewrite fold_left_app. apply IH. intros r' Hr'. apply H. right. exact Hr'.
Qed.

Lemma count_sales_throws sales : forall o,
  (exists r, r ∈ sales /\ prop_items r = None) -> count_sales sales o = None.
Proof.
  induction sales as [|r sales IH]; intros o (r0 & Hin & Hr0); [inversion Hin |].
  simpl. destruct (prop_items r) as [items|] eqn:E; [| reflexivity].
  apply IH. apply elem_of_cons in Hin as [->|Hin]; [congruence | eauto].
Qed.

Section TopSellingProperties.
Variables startOfDay weekBefore monthBefore : Z -> Z.

(** The sales that the period keeps. *)
Definition selected (period : string) (now : Z) (sales : list Rec) : list Rec :=
  if String.eqb period "all" then sales
  else filter (fun sale =>
                 dated_from (period_start startOfDay weekBefore monthBefore period now) sale
                 = true) sales.

Definition ranking (limit : nat) (chosen : list Rec) : list ProductSales :=
  match count_sales chosen [] with
  | None => []
  | Some productSales =>
      take limit (sort_with (fun a b => ps_quantity b <=? ps_quantity a)
                    (Object_values productSales))
  end.

Lemma getTopSellingProducts_run limit period s st :
  store_at SALES s = Some st -> cache_coherent SALES s ->
  let s1 := (getAll SALES None None s).2 in
  (getTopSellingProducts startOfDay weekBefore monthBefore limit period s).1
  = Ok (ranking limit (selected period (clock s1 (ticks s1)) (store_getAll st))).
Proof.
  intros Hst Hco. pose proof (getAll_read SALES s st Hst Hco) as Hread.
  unfold getTopSellingProducts, try_catch, ranking, selected. unfold bind at 1.
  destruct (getAll SALES None None s) as [v s1]. simpl in Hread. subst v. simpl.
  destruct (String.eqb period "all").
  - unfold bind, ret, as_array. simpl.
    destruct (count_sales (store_getAll st) []); reflexivity.
  - unfold bind, ret, as_array, Date_now. simpl.
    destruct (count_sales _ []); reflexivity.
Qed.


End TopSellingProperties.

(** Two sales of three products. *)
Definition sale_a : Rec :=
  RSale (mkSale 1 1000 "ana" "pix" 150
           (Some [mkSaleItem 7 "batom" 1 50; mkSaleItem 9 "rimel" 2 50])).

Definition sale_b : Rec :=
  RSale (mkSale 2 2000 "bia" "pix" 250
           (Some [mkSaleItem 9 "rimel" 3 50; mkSaleItem 8 "base" 2 50])).

Definition two_sales : Store :=
  {| keyPath := "id"; autoIncrement := false; keyGen := 1;
     indexNames := ["date"; "attendant"; "total"; "paymentMethod"];
     records := {[ KNum 1 := sale_a; KNum 2 := sale_b ]} |}.

Definition selling : State := set_store SALES two_sales (initial_state true 5000).

Example top_selling_example :
  (getTopSellingProducts (fun t => t) (fun t => t) (fun t => t) 2 "all" selling).1
  = Ok [mkProductSales 9 "rimel" 5 250; mkProductSales 8 "base" 2 100].
Proof. vm_compute. reflexivity. Qed.


(** ** Saving and loading the whole data *)

Lemma put_all_from kp (g : Rec -> Rec) l : forall (m : gmap Key Rec) k r,
  put_all kp g l m !! k = Some r ->
  m !! k = Some r \/ exists r', r' ∈ l /\ prop_path kp r' = Some k.
Proof.
  induction l as [|r0 l IH]; intros m k r H; [left; exact H |].
  rewrite put_all_cons in H. apply IH in H as [H | (r' & Hin & Hk)].
  - destruct (prop_path kp r0) as [k0|] eqn:E; [| left; exact H].
    destruct (decide (k0 = k)) as [->|Hne].
    + right. exists r0. split; [left | exact E].
    + rewrite lookup_insert_ne in H by exact Hne. left. exact H.
  - right. exists r'. split; [right; exact Hin | exact Hk].
Qed.

(** The store holds the records of [items], each under its key, and no
    other. *)
Definition holds (items : list Rec) (st : Store) : Prop :=
  forall k r, records st !! k = Some r <-> r ∈ items /\ prop_path (keyPath st) r = Some k.

Lemma put_all_holds kp items k r :
  NoDup (map (prop_path kp) items) ->
  put_all kp (fun r => r) items ∅ !! k = Some r <-> r ∈ items /\ prop_path kp r = Some k.
Proof.
  intros Hnd. split.
  - intros H. destruct (put_all_from _ _ _ _ _ _ H) as [H0 | (r' & Hin & Hk)].
    + rewrite lookup_empty in H0. discriminate.
    + rewrite (put_all_in kp (fun r => r) items ∅ r' k Hnd Hin Hk) in H.
      injection H as <-. split; assumption.
  - intros [Hin Hk]. apply (put_all_in kp (fun r => r) items ∅ r k Hnd Hin Hk).
Qed.

Lemma holds_wf items st : holds items st -> store_wf st.
Proof. intros H k r Hk. apply H in Hk as [_ Hk]. exact Hk. Qed.

Lemma holds_getAll items st :
  holds items st -> (forall r, r ∈ items -> is_Some (prop_path (keyPath st) r)) ->
  NoDup (map (prop_path (keyPath st)) items) ->
  store_getAll st ≡ₚ items.
Proof.
  intros H Hkeyed Hnd. apply NoDup_Permutation.
  - apply (NoDup_fmap_1 (prop_path (keyPath st))).
    apply store_getAll_keys_nodup, (holds_wf items), H.
  - apply (NoDup_fmap_1 (prop_path (keyPath st))), Hnd.
  - intros r. rewrite store_getAll_elem. split.
    + intros [k Hk]. apply H in Hk as [Hin _]. exact Hin.
    + intros Hin. destruct (Hkeyed r Hin) as [k Hk]. exists k. apply H. split; assumption.
Qed.

Lemma clearStore_run n s st :
  store_at n s = Some st ->
  clearStore n s = (Ok true, bulk_committed n (store_clear st) s).
Proof.
  intros Hst. unfold clearStore, bind. rewrite (objectStore_run n s st Hst). reflexivity.
Qed.

Lemma bulk_committed_coherent_same n st' s : cache_coherent n (bulk_committed n st' s).
Proof.
  intros e He. unfold bulk_committed in He. simpl in He.
  rewrite queryCache_set_store in He.
  pose proof (cache_get_Some _ _ _ He) as Hin.
  apply list_elem_of_filter in Hin as [Hinc _]. simpl in Hinc.
  rewrite cacheKey_getAll_includes in Hinc. discriminate.
Qed.

(** [await this.clearStore(n); await this.bulkAdd(n, items)] for items that
    carry distinct keys. *)
Lemma replace_run n (items : list Rec) s st :
  store_at n s = Some st ->
  (forall r, r ∈ items -> is_Some (prop_path (keyPath st) r)) ->
  NoDup (map (prop_path (keyPath st)) items) ->
  exists s' st',
    (clearStore n >> bulkAdd n (Some items) >> ret tt) s = (Ok tt, s')
    /\ store_at n s' = Some st' /\ keyPath st' = keyPath st /\ holds items st'
    /\ (forall m, m <> n -> store_at m s' = store_at m s)
    /\ cache_coherent n s'
    /\ (forall m, cache_coherent m s -> cache_coherent m s').
Proof.
  intros Hst Hkeyed Hnd.
  pose proof (store_at_db n s st Hst) as Hdb.
  set (s1 := bulk_committed n (store_clear st) s).
  assert (Hst1 : store_at n s1 = Some (store_clear st))
    by apply (bulk_committed_store_eq n _ s Hdb).
  destruct items as [|r0 items0].
  - exists s1, (store_clear st). split.
    { unfold bind at 1. rewrite (clearStore_run n s st Hst). fold s1.
      unfold bulkAdd, gets, bind, ret. destruct (db s1); reflexivity. }
    split; [exact Hst1 |]. split; [reflexivity |]. split.
    { intros k r. simpl. rewrite lookup_empty. split; [discriminate |].
      intros [H _]. inversion H. }
    split; [intros m Hm; apply bulk_committed_store_ne, Hm |].
    split; [apply bulk_committed_coherent_same |].
    intros m Hm. apply bulk_committed_coherent, Hm.
  - destruct (bulkAdd_fresh n (r0 :: items0) s1 (store_clear st) Hst1) as (st' & Hrun & Hrec & Hkp).
    { discriminate. }
    { intros r Hin. destruct (Hkeyed r Hin) as [k Hk]. exists k.
      split; [exact Hk | apply lookup_empty]. }
    { exact Hnd. }
    exists (bulk_committed n st' s1), st'. split.
    { unfold bind at 1. rewrite (clearStore_run n s st Hst). fold s1.
      unfold bind at 1. rewrite Hrun. reflexivity. }
    split; [apply bulk_committed_store_eq, (store_at_db n s1 _ Hst1) |].
    split; [exact Hkp |]. split.
    { intros k r. rewrite Hrec, Hkp. apply put_all_holds, Hnd. }
    split.
    { intros m Hm. rewrite bulk_committed_store_ne by exact Hm.
      apply bulk_committed_store_ne, Hm. }
    split; [apply bulk_committed_coherent_same |].
    intros m Hm. apply bulk_committed_coherent, bulk_committed_coherent, Hm.
Qed.

Lemma object_set_new k v o : k ∉ o.*1 -> object_set k v o = o ++ [(k, v)].
Proof.
  induction o as [|[k' v'] o IH]; intros H; simpl; [reflexivity |].
  rewrite fmap_cons in H. apply not_elem_of_cons in H as [Hne H]. simpl in Hne.
  destruct (String.eqb_spec k' k) as [E|_]; [congruence |].
  rewrite IH by exact H. reflexivity.
Qed.

Lemma settings_fold o : forall acc,
  NoDup (acc ++ o).*1 ->
  fold_left (fun o r => match r with
                        | RSetting st => object_set (st_key st) (st_value st) o
                        | _ => o
                        end) (setting_records o) acc = acc ++ o.
Proof.
  induction o as [|[k v] o IH]; intros acc Hnd; simpl.
  - rewrite app_nil_r. reflexivity.
  - rewrite object_set_new.
    + rewrite IH; rewrite <- app_assoc; [reflexivity | exact Hnd].
    + rewrite fmap_app in Hnd. apply NoDup_app in Hnd as (_ & Hdis & _).
      intros Hin. apply (Hdis k Hin). left.
Qed.

Lemma settings_object_records o : NoDup o.*1 -> settings_object (setting_records o) = o.
Proof. intros H. apply (settings_fold o []). exact H. Qed.

Lemma setting_records_keys o :
  map (prop_path "key") (setting_records o) = (fun k => Some (KStr k)) <$> o.*1.
Proof.
  induction o as [|[k v] o IH]; [reflexivity |]. simpl. f_equal. exact IH.
Qed.

Lemma executeTransaction_run ops s stP stS stT :
  store_at PRODUCTS s = Some stP -> store_at SALES s = Some stS ->
  store_at SETTINGS s = Some stT -> executeTransaction ops s = ops s.
Proof.
  unfold store_at, executeTransaction, get_db, bind.
  destruct (db s) as [d|]; [| discriminate].
  intros HP HS HT. rewrite bool_decide_true; [reflexivity |].
  rewrite HP, HS, HT. repeat split; eexists; reflexivity.
Qed.

Lemma getSystemData_read s stP stS stT :
  store_at PRODUCTS s = Some stP -> store_at SALES s = Some stS ->
  store_at SETTINGS s = Some stT ->
  cache_coherent PRODUCTS s -> cache_coherent SALES s -> cache_coherent SETTINGS s ->
  (getSystemData s).1
  = Ok {| sd_products := VArr (store_getAll stP); sd_sales := VArr (store_getAll stS);
          sd_settings := Some (settings_object (store_getAll stT)) |}.
Proof.
  intros HP HS HT CP CS CT.
  pose proof (getAll_read PRODUCTS s stP HP CP) as R1.
  pose proof (getAll_store_at PRODUCTS None None SALES s) as HS1.
  pose proof (getAll_store_at PRODUCTS None None SETTINGS s) as HT1.
  pose proof (getAll_coherent PRODUCTS SALES s CS CP) as CS1.
  pose proof (getAll_coherent PRODUCTS SETTINGS s CT CP) as CT1.
  unfold getSystemData, try_catch. unfold bind at 1. unfold both at 1.
  destruct (getAll PRODUCTS None None s) as [v1 s1]. simpl in R1, HS1, HT1, CS1, CT1.
  subst v1. rewrite HS in HS1. rewrite HT in HT1.
  pose proof (getAll_read SALES s1 stS HS1 CS1) as R2.
  pose proof (getAll_store_at SALES None None SETTINGS s1) as HT2.
  pose proof (getAll_coherent SALES SETTINGS s1 CT1 CS1) as CT2.
  unfold both at 1.
  destruct (getAll SALES None None s1) as [v2 s2]. simpl in R2, HT2, CT2.
  subst v2. rewrite HT1 in HT2.
  pose proof (getAll_read SETTINGS s2 stT HT2 CT2) as R3.
  destruct (getAll SETTINGS None None s2) as [v3 s3]. simpl in R3. subst v3.
  reflexivity.
Qed.

Lemma set_localStorage_coherent m l s :
  cache_coherent m s -> cache_coherent m (set_localStorage l s).
Proof. intros H. exact H. Qed.


(** A run that an aborting engine completes was over distinct keys that the
    store did not have. *)
Lemma bulk_run_distinct items : forall st c e out,
  bulk_run true items st c e = Some out ->
  (forall r, r ∈ items -> is_Some (prop_path (keyPath st) r)) ->
  NoDup (map (prop_path (keyPath st)) items)
  /\ forall r k, r ∈ items -> prop_path (keyPath st) r = Some k -> records st !! k = None.
Proof.
  induction items as [|r items IH]; intros st c e out Hrun Hkeyed; simpl in *.
  - split; [constructor |]. intros r k H. inversion H.
  - destruct (store_add r st) as [err|[k1 st1]] eqn:Ea; [discriminate |].
    pose proof (store_add_keyPath _ _ _ _ Ea) as Hkp.
    destruct (store_add_stored _ _ _ _ Ea) as [Hfresh Hrec].
    destruct (Hkeyed r (list_elem_of_here _ _)) as [k0 Hk0].
    pose proof (store_add_key _ _ _ _ _ Ea Hk0) as ->.
    destruct (IH _ _ _ _ Hrun) as [Hnd Hnew].
    { intros r' Hin. rewrite Hkp. apply Hkeyed. right. exact Hin. }
    rewrite Hkp in Hnd. split.
    + constructor; [| exact Hnd]. rewrite Hk0. intros Hin.
      apply list_elem_of_fmap in Hin as (r' & Hk' & Hin).
      specialize (Hnew r' k0 Hin). rewrite Hkp in Hnew.
      rewrite Hrec, lookup_insert_eq in Hnew. symmetry in Hk'.
      specialize (Hnew Hk'). discriminate.
    + intros r' k Hin Hk. apply elem_of_cons in Hin as [->|Hin].
      * rewrite Hk0 in Hk. injection Hk as <-. exact Hfresh.
      * specialize (Hnew r' k Hin). rewrite Hkp in Hnew. specialize (Hnew Hk).
        rewrite Hrec in Hnew. apply lookup_insert_None in Hnew as [Hnew _]. exact Hnew.
Qed.

Lemma bulkAdd_duplicates n (items : list Rec) s d st :
  db s = Some d -> abortOnError d = true -> store_at n s = Some st ->
  (forall r, r ∈ items -> is_Some (prop_path (keyPath st) r)) ->
  ~ NoDup (map (prop_path (keyPath st)) items) ->
  bulkAdd n (Some items) s = (Err ConstraintError, s).
Proof.
  intros Hd Habort Hst Hkeyed Hdup. unfold bulkAdd, bind, gets. rewrite Hd.
  destruct items as [|r0 items0]; [exfalso; apply Hdup; constructor |].
  rewrite (objectStore_run n s st Hst).
  rewrite (bulk_issue_all st _ Hkeyed). rewrite Habort.
  destruct (bulk_run true (r0 :: items0) st 0 0) as [out|] eqn:Er; [| reflexivity].
  exfalso. apply Hdup. apply (bulk_run_distinct _ _ _ _ _ Er Hkeyed).
Qed.

Lemma store_getAll_clear st : store_getAll (store_clear st) = [].
Proof. unfold store_getAll, store_clear. simpl. rewrite map_to_list_empty. reflexivity. Qed.


Definition small_data : SystemData :=
  {| sd_products := VArr [lipstick]; sd_sales := VArr [old_sale];
     sd_settings := Some [("defaultTax", "6"); ("defaultMargin", "40")] |}.

Definition twice_data : SystemData :=
  {| sd_products := VArr [lipstick; lipstick]; sd_sales := VArr [old_sale];
     sd_settings := Some [("defaultTax", "6")] |}.



(** ** The migration and the legacy data *)

(** What [localStorage] has under [camarim-system-data]. *)
Definition legacy (s : State) : option (option SystemData) :=
  ls_system_data (localStorage s).

Lemma legacy_volatile : Volatile legacy.
Proof. split; reflexivity. Qed.

Lemma legacy_ignores_pending : ignores_pending legacy.
Proof. intros p s. reflexivity. Qed.

Lemma legacy_ignores_store n : ignores_store legacy n.
Proof. intros st s. unfold legacy. rewrite localStorage_ignores_store. reflexivity. Qed.

Lemma keeps_of_preserves {A X} (f : State -> X) (P : X -> Prop) (m : M A) :
  preserves f m -> keeps (fun s => P (f s)) m.
Proof. intros H s Hs. rewrite H. exact Hs. Qed.

Lemma legacy_logAudit a d : preserves legacy (logAudit a d).
Proof.
  apply (logAudit_preserves _ legacy_volatile legacy_ignores_pending), legacy_ignores_store.
Qed.

Lemma legacy_createBackup ty data : preserves legacy (createBackup ty data).
Proof.
  apply (createBackup_preserves _ legacy_volatile legacy_ignores_pending),
    legacy_ignores_store.
Qed.

Lemma legacy_mergeData data : preserves legacy (mergeData data).
Proof. apply (mergeData_preserves _ legacy_volatile); apply legacy_ignores_store. Qed.

Lemma legacy_transaction data :
  preserves legacy
    (executeTransaction
       (match nonempty_array (sd_products data) with
        | Some products => clearStore PRODUCTS >> bulkAdd PRODUCTS (Some products) >> ret tt
        | None => ret tt
        end >>
        match nonempty_array (sd_sales data) with
        | Some sales => clearStore SALES >> bulkAdd SALES (Some sales) >> ret tt
        | None => ret tt
        end >>
        match sd_settings data with
        | Some settings =>
            clearStore SETTINGS >>
            bulkAdd SETTINGS (Some (setting_records settings)) >> ret tt
        | None => ret tt
        end)).
Proof.
  pose proof (fun n => clearStore_preserves _ legacy_volatile n (legacy_ignores_store n)) as Hc.
  pose proof (fun n items =>
                bulkAdd_preserves _ legacy_volatile n items (legacy_ignores_store n)) as Hb.
  unfold executeTransaction.
  apply preserves_bind; [intros s; unfold get_db; destruct (db s); reflexivity | intros d].
  case_match; [| apply preserves_throw].
  repeat first [ apply Hc | apply Hb | apply preserves_ret
               | apply preserves_bind; [| intros ?] | progress case_match ].
Qed.

(** [saveSystemData] writes under that key only when it falls back, and
    then it writes the data that it was given. *)
Lemma legacy_saveSystemData data :
  keeps (fun s => legacy s = Some (Some data)) (saveSystemData (Some data)).
Proof.
  intros s Hs. unfold saveSystemData, try_catch.
  match goal with |- context [match ?m s with _ => _ end] =>
    assert (K : preserves legacy m); [| specialize (K s); destruct (m s) as [[a|e] s1]]
  end.
  - apply preserves_bind; [apply legacy_transaction | intros _].
    apply preserves_bind; [apply legacy_createBackup | intros _].
    apply preserves_bind; [apply (Date_now_preserves _ legacy_volatile) | intros now].
    apply preserves_bind; [| intros _; apply preserves_ret].
    apply preserves_modify. intros s0. reflexivity.
  - simpl in *. congruence.
  - reflexivity.
Qed.

(** X16. [migrateFromLocalStorage] never rejects, whatever is stored and
    whatever fails on the way, and it leaves in place what [localStorage]
    has under [camarim-system-data].  With nothing under that key it changes
    nothing; with a text there that does not parse it touches no store but
    the audit log and nothing else of [localStorage]. *)
Theorem migration_keeps_legacy_data (s : State) :
  let s' := (migrateFromLocalStorage s).2 in
  (migrateFromLocalStorage s).1 = Ok tt
  /\ legacy s' = legacy s
  /\ (legacy s = None -> s' = s)
  /\ (legacy s = Some None ->
      localStorage s' = localStorage s
      /\ forall n, n <> AUDIT_LOG -> store_at n s' = store_at n s).
Proof.
  assert (Hcatch : forall e s1,
    (logAudit "migration_error" (DError (error_message e)) s1).1 = Ok tt
    /\ legacy (logAudit "migration_error" (DError (error_message e)) s1).2 = legacy s1).
  { intros e s1. split; [apply logAudit_ok | apply legacy_logAudit]. }
  cbv zeta. remember (migrateFromLocalStorage s) as out eqn:Hout.
  unfold migrateFromLocalStorage, try_catch in Hout. unfold bind at 1, gets at 1 in Hout.
  destruct (ls_system_data (localStorage s)) as [[data|]|] eqn:E; fold (legacy s) in E.
  - unfold bind at 1, ret at 1 in Hout.
    match type of Hout with context [match ?m s with _ => _ end] =>
      assert (K : keeps (fun s => legacy s = Some (Some data)) m);
        [| specialize (K s E); destruct (m s) as [[[]|e] s1]]
    end.
    + repeat first
        [ apply legacy_saveSystemData
        | apply keeps_ret
        | apply (keeps_of_preserves legacy (fun x => x = Some (Some data)));
          first [ apply legacy_logAudit | apply legacy_createBackup | apply legacy_mergeData
                | apply getStoreCount_preserves
                | apply (Date_now_preserves _ legacy_volatile)
                | apply preserves_modify; intros ?; reflexivity ]
        | apply keeps_bind; [| intros ?]
        | progress case_match ].
    + subst out. simpl in *. rewrite E. repeat split; try congruence.
    + subst out. simpl in K. destruct (Hcatch e s1) as [H1 H2].
      split; [exact H1 |]. split; [rewrite H2; congruence |].
      split; rewrite E; discriminate.
  - subst out. simpl. unfold throw. destruct (Hcatch SyntaxError s) as [H1 H2].
    split; [exact H1 |]. split; [exact H2 |]. split; [rewrite E; discriminate |].
    intros _. split.
    + apply (logAudit_preserves _ localStorage_volatile localStorage_ignores_pending),
        localStorage_ignores_store.
    + intros n Hn.
      apply (logAudit_preserves _ (store_at_volatile n) (store_at_ignores_pending n)),
        store_at_ignores_store, Hn.
  - subst out. simpl. repeat split; reflexivity.
Qed.

(** ** Products low on stock *)

(** X17. With the product store open and no stale reading of it in the
    cache, [getLowStockProducts] resolves to the stored products whose stock
    is below the threshold, in the order of their keys; a record without a
    stock is not among them. *)
Theorem low_stock_products (threshold : Z) (s : State) (st : Store) :
  store_at PRODUCTS s = Some st -> cache_coherent PRODUCTS s ->
  exists l,
    (getLowStockProducts threshold s).1 = Ok l
    /\ (forall r, r ∈ l <->
          (exists k, records st !! k = Some r)
          /\ exists z, prop_stock r = Some z /\ z < threshold)
    /\ l `sublist_of` store_getAll st.
Proof.
  intros Hst Hco. pose proof (getAll_read PRODUCTS s st Hst Hco) as Hread.
  exists (filter (fun p => stock_below threshold p = true) (store_getAll st)).
  split; [| split].
  - unfold getLowStockProducts, try_catch. unfold bind at 1.
    destruct (getAll PRODUCTS None None s) as [v s1]. simpl in Hread. subst v.
    reflexivity.
  - intros r. rewrite list_elem_of_filter, store_getAll_elem. unfold stock_below.
    split.
    + intros [Hlow Hin]. split; [exact Hin |].
      destruct (prop_stock r) as [z|]; [| discriminate].
      exists z. split; [reflexivity | apply Z.ltb_lt, Hlow].
    + intros [Hin (z & Hz & Hlt)]. split; [| exact Hin].
      rewrite Hz. apply Z.ltb_lt, Hlt.
  - apply sublist_filter.
Qed.

Lemma low_stock_products_witness :
  exists l,
    (getLowStockProducts 10 (add PRODUCTS lipstick (initial_state true 0)).2).1 = Ok l
    /\ lipstick ∈ l /\ l `sublist_of` [lipstick].
Proof.
  destruct (store_at PRODUCTS (add PRODUCTS lipstick (initial_state true 0)).2)
    as [st|] eqn:Hst; [| vm_compute in Hst; discriminate].
  destruct (low_stock_products 10 _ st Hst) as (l & Hl & Helem & Hsub).
  - apply cache_coherent_empty. reflexivity.
  - exists l. split; [exact Hl |].
    vm_compute in Hst. injection Hst as <-. split.
    + apply Helem. split; [exists (KNum 7); reflexivity |].
      exists 3. split; [reflexivity | lia].
    + exact Hsub.
Defined.

(** ** What the background sync takes for a change *)

(** The two instants that [hasChangesSinceLastSync] compares. *)
Definition sync_markers (s : State) : option Z * option Z :=
  (ls_last_save (localStorage s), lastSync s).

Lemma sync_markers_volatile : Volatile sync_markers.
Proof. split; reflexivity. Qed.

Lemma sync_markers_ignores_pending : ignores_pending sync_markers.
Proof. intros p s. reflexivity. Qed.

Lemma sync_markers_ignores_store n : ignores_store sync_markers n.
Proof. intros st s. unfold set_store. destruct (db s); reflexivity. Qed.

Lemma hasChanges_markers s s' :
  sync_markers s' = sync_markers s ->
  (hasChangesSinceLastSync s').1 = (hasChangesSinceLastSync s).1.
Proof.
  unfold sync_markers. intros [= H1 H2].
  unfold hasChangesSinceLastSync, bind, gets. rewrite H1, H2.
  destruct (ls_last_save (localStorage s)), (lastSync s); reflexivity.
Qed.

(** X18. The writes of single records and of lists, the clearing of a
    store, the integrity check and the making of a backup leave alone the
    two instants that [hasChangesSinceLastSync] compares: after any of them
    it answers as it did before, so a sync that saw no change before sees
    none after. *)
Theorem writes_are_not_changes (n : string) (s : State) :
  (forall r, (hasChangesSinceLastSync (add n r s).2).1 = (hasChangesSinceLastSync s).1)
  /\ (forall r, (hasChangesSinceLastSync (update n r s).2).1 = (hasChangesSinceLastSync s).1)
  /\ (forall k, (hasChangesSinceLastSync (delete n k s).2).1 = (hasChangesSinceLastSync s).1)
  /\ (forall items,
        (hasChangesSinceLastSync (bulkAdd n items s).2).1 = (hasChangesSinceLastSync s).1)
  /\ (hasChangesSinceLastSync (clearStore n s).2).1 = (hasChangesSinceLastSync s).1
  /\ (hasChangesSinceLastSync (checkDataIntegrity s).2).1 = (hasChangesSinceLastSync s).1
  /\ (forall ty data,
        (hasChangesSinceLastSync (createBackup ty data s).2).1
        = (hasChangesSinceLastSync s).1).
Proof.
  pose proof sync_markers_volatile as V.
  pose proof sync_markers_ignores_pending as P.
  pose proof sync_markers_ignores_store as I.
  repeat split; intros; apply hasChanges_markers.
  - apply (add_preserves _ V P), I.
  - apply (update_preserves _ V P), I.
  - apply (delete_preserves _ V P), I.
  - apply (bulkAdd_preserves _ V), I.
  - apply (clearStore_preserves _ V), I.
  - apply (checkDataIntegrity_preserves _ V P); apply I.
  - apply (createBackup_preserves _ V P), I.
Qed.

(** A save at instant 5 and a sync at instant 10: a product added afterwards
    is no change for the next sync. *)
Definition synced : State :=
  set_lastSync (Some 10)
    (set_localStorage
       {| ls_system_data := None; ls_migrated_date := None; ls_backup_data := None;
          ls_backup_latest := None; ls_last_save := Some 5 |}
       (initial_state true 20)).

Example added_after_sync :
  (hasChangesSinceLastSync synced).1 = Ok false
  /\ (hasChangesSinceLastSync (add PRODUCTS lipstick synced).2).1 = Ok false
  /\ records_at PRODUCTS (add PRODUCTS lipstick synced).2 = [lipstick].
Proof. vm_compute. auto. Qed.
